(** * Transcript explorer: search, filters, highlighting and the ask helper

    A shallow embedding of the client-side search engine of the transcript
    explorer (the search page, the transcript browse page, the ask page and
    the request helper of [lib/api.ts]) together with the properties the
    specification states about it; and of the code around it (the menus and
    captions of the two pages, the transcript provider and the gate of the
    pages, the overview page, the speaker tables), with further properties
    of that code.  The text matching and the ranking belong to Fuse.js,
    which is not part of the repository: the pages are verified for any
    matcher, and the claims on the matching itself are settled over a
    matcher written from the specification ([Fuzzy]).

    Strings are JavaScript strings restricted to the code units 0..255
    (one [ascii] per UTF-16 code unit, i.e. the Latin-1 range, which contains
    the English transcript text): on that range [toLowerCase], [trim] and the
    case folding of a regular expression with the [i] flag are written out
    exactly. *)

From Stdlib Require Import Ascii String QArith Lia Sorted.
From Stdlib Require Import DecimalString DecimalPos DecimalZ.
From Equations Require Import Equations.
From stdpp Require Import base option list strings gmap.

Local Open Scope nat_scope.
Local Open Scope list_scope.

(** ** JavaScript strings *)

Module JS.

Definition str := list ascii.

(** A string literal of the program text. *)
Definition lit (s : string) : str := list_ascii_of_string s.

(** The code unit of a character. *)
Definition cu (c : ascii) : nat := nat_of_ascii c.

Definition between (lo hi n : nat) : bool := (lo <=? n) && (n <=? hi).

(** [WhiteSpace] and [LineTerminator] code units below 256: TAB, LF, VT, FF,
    CR, SP and NBSP.  These are what [String.prototype.trim] strips. *)
Definition isWhiteSpace (c : ascii) : bool :=
  match cu c with
  | 9 | 10 | 11 | 12 | 13 | 32 | 160 => true
  | _ => false
  end.

Fixpoint trimStart (s : str) : str :=
  match s with
  | [] => []
  | c :: s' => if isWhiteSpace c then trimStart s' else s
  end.

Definition trimEnd (s : str) : str := rev (trimStart (rev s)).

(** [s.trim()] *)
Definition trim (s : str) : str := trimEnd (trimStart s).

(** Truthiness of a string value: only the empty string is falsy. *)
Definition truthy (s : str) : bool :=
  match s with [] => false | _ :: _ => true end.

(** [toLowerCase] on one code unit: A-Z and the Latin-1 capitals U+00C0..U+00DE
    (without the multiplication sign U+00D7) move up by 32. *)
Definition lowerChar (c : ascii) : ascii :=
  let n := cu c in
  if between 65 90 n || (between 192 222 n && negb (n =? 215))
  then ascii_of_nat (n + 32) else c.

(** [s.toLowerCase()] *)
Definition toLowerCase (s : str) : str := map lowerChar s.

(** The [Canonicalize] operation of a regular expression with the [i] flag
    and without the [u] flag: the character is upper-cased when the result
    is one code unit.  a-z and U+00E0..U+00FE (without the division sign
    U+00F7) move down by 32; [U+00DF] upper-cases to two code units and stays;
    the upper-case forms of U+00B5 and U+00FF lie above 255 and are shared
    with no other code unit below 256, so both are their own
    representatives here. *)
Definition canonicalize (c : ascii) : ascii :=
  let n := cu c in
  if between 97 122 n || (between 224 254 n && negb (n =? 247))
  then ascii_of_nat (n - 32) else c.

Definition charEqb (a b : ascii) : bool := Ascii.eqb a b.

(** [needle] is a prefix of [hay], code unit by code unit. *)
Fixpoint startsWith (hay needle : str) {struct needle} : bool :=
  match needle, hay with
  | [], _ => true
  | _ :: _, [] => false
  | n :: needle', h :: hay' => charEqb n h && startsWith hay' needle'
  end.

(** [hay.includes(needle)] *)
Fixpoint includes (hay needle : str) : bool :=
  startsWith hay needle ||
  match hay with
  | [] => false
  | _ :: hay' => includes hay' needle
  end.

End JS.

Import JS.

(** ** Regular expressions of the highlighter

    [highlightText] builds [new RegExp("(" + escaped + ")", "gi")], where
    [escaped] is the query with every syntax character preceded by a
    backslash.  The fragment of the pattern language this can produce is one
    capturing group around a sequence of literal atoms. *)

Module RegExp.

(** The character class of the escaping regular expression in the source. *)
Definition escapedClass : str := lit ".*+?^${}()|[]\".

Definition inEscapedClass (c : ascii) : bool := existsb (charEqb c) escapedClass.

Definition backslash : ascii := "\"%char.

(** [query.replace(/[.*+?^${}()|[\]\\]/g, "\\$&")] *)
Fixpoint escapeRegExp (q : str) : str :=
  match q with
  | [] => []
  | c :: q' =>
      if inEscapedClass c then backslash :: c :: escapeRegExp q'
      else c :: escapeRegExp q'
  end.

(** [SyntaxCharacter] of the pattern grammar:
    one of  ^ $ \ . * + ? ( ) [ ] { } |  *)
Definition isSyntaxCharacter (c : ascii) : bool :=
  match cu c with
  | 94 | 36 | 92 | 46 | 42 | 43 | 63 | 40 | 41 | 91 | 93 | 123 | 125 | 124 => true
  | _ => false
  end.

(** A sequence of atoms, each a [PatternCharacter] (any character that is
    not a syntax character) or an identity escape of a syntax character.
    [None]: the pattern leaves the fragment (or is a syntax error). *)
Fixpoint parseAtoms (p : str) : option str :=
  match p with
  | [] => Some []
  | c :: p' =>
      if charEqb c backslash then
        match p' with
        | d :: p'' =>
            if isSyntaxCharacter d then cons d <$> parseAtoms p'' else None
        | [] => None
        end
      else if isSyntaxCharacter c then None
      else cons c <$> parseAtoms p'
  end.

(** [( Atoms )] *)
Definition parseGroup (p : str) : option str :=
  match p with
  | c :: rest =>
      if charEqb c "("%char then
        match rev rest with
        | d :: body => if charEqb d ")"%char then parseAtoms (rev body) else None
        | [] => None
        end
      else None
  | [] => None
  end.

(** A regular expression object with the flags [g] and [i]: the literal its
    group matches, and the mutable [lastIndex]. *)
Record t := mk { lits : str; lastIndex : nat }.

Definition setLastIndex (r : t) (i : nat) : t := mk (lits r) i.

(** [new RegExp(pattern, "gi")]; [None] when the constructor throws. *)
Definition create (pattern : str) : option t :=
  (fun l => mk l 0) <$> parseGroup pattern.

(** The matcher at one position: the literal against the front of [s],
    code units compared after [canonicalize]. *)
Fixpoint matchHere (l s : str) {struct l} : bool :=
  match l, s with
  | [], _ => true
  | _ :: _, [] => false
  | a :: l', c :: s' =>
      charEqb (canonicalize a) (canonicalize c) && matchHere l' s'
  end.

(** The loop of [RegExp.prototype[Symbol.split]]: [cur] is the text between
    the end [p] of the last match and the position [q] under test, reversed;
    [s] is the text from [q] on.  A match that is empty and ends at [p]
    advances [q]; any other match closes the piece, appends the capture and
    restarts after it. *)
Equations? splitLoop (l cur s : str) : list str
  by wf (2 * length s + length (take 1 cur)) lt :=
  splitLoop l cur [] := [rev cur];
  splitLoop l cur (c :: s') with matchHere l (c :: s') := {
    | false := splitLoop l (c :: cur) s';
    | true with l, cur := {
        | [], [] := splitLoop [] [c] s';
        | [], d :: cur' := rev (d :: cur') :: [] :: splitLoop [] [] (c :: s');
        | a :: l', _ :=
            rev cur :: take (S (length l')) (c :: s')
              :: splitLoop (a :: l') [] (drop (length l') s') } }.
Proof.
  all: simpl; try lia.
  rewrite length_drop. lia.
Qed.

(** [text.split(regex)].  No limit is passed; the default one, 2^32 - 1
    pieces, is not reached by a string an engine can hold. *)
Definition split (r : t) (text : str) : list str :=
  match text with
  | [] => if matchHere (lits r) [] then [] else [[]]
  | _ :: _ => splitLoop (lits r) [] text
  end.

(** First position at or after [i] where the literal matches; [s] is the
    text from [i] on.  The end of the text is a position too. *)
Fixpoint searchFrom (l s : str) (i : nat) : option nat :=
  if matchHere l s then Some i
  else match s with
       | [] => None
       | _ :: s' => searchFrom l s' (S i)
       end.

(** [RegExpBuiltinExec] for a global, non-sticky expression: the index of
    the match found from [lastIndex] on, and the object afterwards. *)
Definition exec (r : t) (s : str) : option nat * t :=
  if length s <? lastIndex r then (None, setLastIndex r 0)
  else match searchFrom (lits r) (drop (lastIndex r) s) (lastIndex r) with
       | Some i => (Some i, setLastIndex r (i + length (lits r)))
       | None => (None, setLastIndex r 0)
       end.

(** [regex.test(s)] *)
Definition test (r : t) (s : str) : bool * t :=
  let '(m, r') := exec r s in (bool_decide (is_Some m), r').

End RegExp.

(** ** Highlighting *)

(** A child of the rendered paragraph: a plain string, or a [<mark>]
    element around a string. *)
Inductive Node := Text (s : str) | Mark (s : str).

(** What [highlightText] returns: the text itself, or an array of children. *)
Inductive Rendered := Whole (s : str) | Parts (ns : list Node).

(** [parts.map((part, i) => regex.test(part) ? <mark>{part}</mark> : part)],
    the expression object threaded through the calls in order. *)
Fixpoint markParts (regex : RegExp.t) (parts : list str) : list Node :=
  match parts with
  | [] => []
  | part :: rest =>
      let '(b, regex') := RegExp.test regex part in
      (if b then Mark part else Text part) :: markParts regex' rest
  end.

(** [highlightText] of the search page and of the transcript page (the two
    bodies are the same).  [None]: the constructor threw. *)
Definition highlightText (query text : str) : option Rendered :=
  if negb (truthy (trim query)) then Some (Whole text)
  else
    match RegExp.create (lit "(" ++ RegExp.escapeRegExp query ++ lit ")") with
    | None => None
    | Some regex => Some (Parts (markParts regex (RegExp.split regex text)))
    end.

Definition nodeText (n : Node) : str :=
  match n with Text s => s | Mark s => s end.

(** The characters shown on screen, in order. *)
Definition renderedText (r : Rendered) : str :=
  match r with
  | Whole s => s
  | Parts ns => concat (map nodeText ns)
  end.

(** ** The structured transcript ([types.ts]) *)

Record Sentence := { sent_text : str; sent_start : Q; sent_end : Q }.

Record Paragraph := {
  speaker : option Z;
  start : Q;
  end_ : Q;
  num_words : Z;
  text : str;
  sentences : list Sentence
}.

Record Word := {
  word : str;
  word_start : Q;
  word_end : Q;
  word_confidence : Q;
  word_speaker : option Z;
  punctuated_word : str
}.

Record Entity := {
  label : str;
  value : str;
  confidence : Q;
  start_word : Z;
  end_word : Z
}.

Record Topic := {
  topic : str;
  topic_confidence : Q;
  topic_start : Q;
  topic_end : Q
}.

Record TranscriptData := {
  duration : Q;
  channels : Z;
  summary : str;
  topics : list Topic;
  entities : list Entity;
  speakers : list Z;
  paragraphs : list Paragraph;
  words : list Word;
  full_transcript : str
}.

(** A record of the search index: [{ ...p, index: i }] on the search page,
    [{ ...p, _idx: i }] on the transcript page. *)
Record Doc := { doc_paragraph : Paragraph; doc_index : nat }.

(** [data.paragraphs.map((p, i) => ({ ...p, index: i }))] *)
Definition indexDocs (ps : list Paragraph) : list Doc :=
  imap (fun i p => {| doc_paragraph := p; doc_index := i |}) ps.

(** ** The Fuse.js interface

    The library is not part of the repository.  Its matcher (which records
    of the collection a pattern hits, with what score, in what order) is a
    parameter of the development: it sees the options, the values of the
    records under the configured key, and the pattern.  The shape of a
    result, [{ item: docs[refIndex], refIndex, score }], is the library's
    interface. *)

Module Fuse.

Record Options := {
  keys : list string;
  threshold : Q;
  includeScore : bool;
  ignoreLocation : bool;
  minMatchCharLength : nat
}.

Record Result := { item : Doc; refIndex : nat; score : Q }.

(** The hits for a pattern: positions in the collection with their scores
    (0 is a perfect match, 1 a complete mismatch), in the order returned. *)
Definition Matcher := Options -> list str -> str -> list (nat * Q).

(** What the library reads of a record under [keys: ["text"]]. *)
Definition keyed (d : Doc) : str := text (doc_paragraph d).

(** [new Fuse(collection, options)] *)
Record t := mk { collection : list Doc; options : Options }.

Definition hit (docs : list Doc) (h : nat * Q) : option Result :=
  (fun d => {| item := d; refIndex := h.1; score := h.2 |}) <$> docs !! h.1.

(** [fuse.search(pattern)].  A hit always lies in the collection; one that
    did not would have no [item] and is left out. *)
Definition search (m : Matcher) (f : t) (pattern : str) : list Result :=
  omap (hit (collection f)) (m (options f) (map keyed (collection f)) pattern).

(** The order of the library's default [sortFn]: by score, then by position
    in the collection. *)
Definition before (a b : nat * Q) : Prop :=
  (a.2 < b.2)%Q \/ (a.2 == b.2)%Q /\ a.1 < b.1.

End Fuse.

(** The options both pages pass to the constructor. *)
Definition fuseOptions : Fuse.Options := {|
  Fuse.keys := ["text"%string];
  Fuse.threshold := 3 # 10;
  Fuse.includeScore := true;
  Fuse.ignoreLocation := true;
  Fuse.minMatchCharLength := 2
|}.

(** [m.paragraph.speaker === filterSpeaker] for a number [filterSpeaker]. *)
Definition speakerIs (sp : option Z) (filterSpeaker : Z) : bool :=
  match sp with
  | Some s => Z.eqb s filterSpeaker
  | None => false
  end.

(** [text.toLowerCase().includes(filterEntity.toLowerCase())] *)
Definition mentions (paragraphText filterEntity : str) : bool :=
  includes (toLowerCase paragraphText) (toLowerCase filterEntity).

(** ** The search page *)

Module SearchPage.

Record SearchResult := { paragraph : Paragraph; index : nat }.

Section WithMatcher.
Variable matcher : Fuse.Matcher.

(** The memoised [fuse]. *)
Definition fuse (data : option TranscriptData) : option Fuse.t :=
  (fun d => Fuse.mk (indexDocs (paragraphs d)) fuseOptions) <$> data.

(** The text stage of [results]: the hits of the query, or every paragraph. *)
Definition matches (d : TranscriptData) (query : str) : list SearchResult :=
  match (if truthy (trim query) then fuse (Some d) else None) with
  | Some f =>
      map (fun r => {| paragraph := doc_paragraph (Fuse.item r);
                       index := doc_index (Fuse.item r) |})
          (Fuse.search matcher f query)
  | None => imap (fun i p => {| paragraph := p; index := i |}) (paragraphs d)
  end.

Definition bySpeaker (filterSpeaker : option Z) (ms : list SearchResult)
  : list SearchResult :=
  match filterSpeaker with
  | Some s => List.filter (fun m => speakerIs (speaker (paragraph m)) s) ms
  | None => ms
  end.

Definition byEntity (filterEntity : str) (ms : list SearchResult)
  : list SearchResult :=
  if truthy filterEntity
  then List.filter (fun m => mentions (text (paragraph m)) filterEntity) ms
  else ms.

(** The memoised [results]. *)
Definition results (data : option TranscriptData) (query : str)
    (filterSpeaker : option Z) (filterEntity : str) : list SearchResult :=
  match data with
  | None => []
  | Some d =>
      take 100 (byEntity filterEntity (bySpeaker filterSpeaker (matches d query)))
  end.

End WithMatcher.
End SearchPage.

(** ** The transcript browse page *)

Module TranscriptPage.

Record Row := { para : Paragraph; idx : nat }.

Section WithMatcher.
Variable matcher : Fuse.Matcher.

Definition fuse (data : option TranscriptData) : option Fuse.t :=
  (fun d => Fuse.mk (indexDocs (paragraphs d)) fuseOptions) <$> data.

Definition matches (d : TranscriptData) (query : str) : list Row :=
  match (if truthy (trim query) then fuse (Some d) else None) with
  | Some f =>
      map (fun r => {| para := doc_paragraph (Fuse.item r);
                       idx := doc_index (Fuse.item r) |})
          (Fuse.search matcher f query)
  | None => imap (fun i p => {| para := p; idx := i |}) (paragraphs d)
  end.

Definition bySpeaker (filterSpeaker : option Z) (rs : list Row) : list Row :=
  match filterSpeaker with
  | Some s => List.filter (fun r => speakerIs (speaker (para r)) s) rs
  | None => rs
  end.

Definition byEntity (filterEntity : str) (rs : list Row) : list Row :=
  if truthy filterEntity
  then List.filter (fun r => mentions (text (para r)) filterEntity) rs
  else rs.

(** The memoised [filtered]: no cap. *)
Definition filtered (data : option TranscriptData) (query : str)
    (filterSpeaker : option Z) (filterEntity : str) : list Row :=
  match data with
  | None => []
  | Some d => byEntity filterEntity (bySpeaker filterSpeaker (matches d query))
  end.

End WithMatcher.
End TranscriptPage.

(** ** The ask helper ([lib/api.ts]) and the ask page *)

Module Ask.

Record Source := { source_text : str; source_speaker : option Z; source_start : Q }.

Inductive Role := user | assistant.

Record ChatMessage := {
  role : Role;
  content : str;
  sources : option (list Source)   (* [sources?]: absent is [None] *)
}.

(** The body of a reply of [/api/ask] once parsed. *)
Record AskResult := { answer : str; result_sources : option (list Source) }.

(** An HTTP response: its [ok] flag, and what [res.json()] gives
    ([None]: the body does not parse and [json] rejects). *)
Record Response := { ok : bool; json : option AskResult }.

(** How the promise of [fetch] settles. *)
Inductive Settled := Rejected | Fulfilled (res : Response).

Record Request := { url : str; method : string; contentType : string; body : str }.

(** What a rejected promise of [askQuestion] carries. *)
Inductive Thrown :=
  | FetchFailed                 (* [fetch] itself rejected *)
  | ErrorMessage (msg : string) (* [new Error(msg)] *)
  | BodySyntaxError.            (* [res.json()] rejected *)

Record State := { messages : list ChatMessage; input : str; isLoading : bool }.

Section WithNetwork.
Variable API_BASE : str.
Variable fetch : Request -> Settled.

(** The request of [askQuestion]: a POST of [{ question }] as JSON. *)
Definition askRequest (question : str) : Request :=
  {| url := API_BASE ++ lit "/api/ask";
     method := "POST";
     contentType := "application/json";
     body := question |}.

(** [askQuestion(question)] *)
Definition askQuestion (question : str) : Thrown + AskResult :=
  match fetch (askRequest question) with
  | Rejected => inl FetchFailed
  | Fulfilled res =>
      if negb (ok res) then inl (ErrorMessage "Failed to get answer")
      else match json res with
           | Some result => inr result
           | None => inl BodySyntaxError
           end
  end.

Definition userMessage (question : str) : ChatMessage :=
  {| role := user; content := question; sources := None |}.

(** The message appended after a reply: [sources: result.sources || []]. *)
Definition answerMessage (result : AskResult) : ChatMessage :=
  {| role := assistant;
     content := answer result;
     sources := Some (default [] (result_sources result)) |}.

(** The message appended by the [catch] block. *)
Definition errorMessage : ChatMessage :=
  {| role := assistant;
     content := lit "Sorry, I encountered an error processing your question. Please try again.";
     sources := None |}.

(** The state updates before the [await]: the input is cleared, the
    question is appended and the page is loading. *)
Definition submitted (st : State) (question : str) : State :=
  {| messages := messages st ++ [userMessage question];
     input := [];
     isLoading := true |}.

(** The updates after it: the reply is appended ([try] or [catch]) and
    [finally] ends the loading. *)
Definition settled (st : State) (reply : ChatMessage) : State :=
  {| messages := messages st ++ [reply];
     input := input st;
     isLoading := false |}.

(** One run of [handleSubmit], from the submit event to the [finally]. *)
Definition handleSubmit (st : State) : State :=
  let question := trim (input st) in
  if negb (truthy question) || isLoading st then st
  else
    settled (submitted st question)
      match askQuestion question with
      | inr result => answerMessage result
      | inl _ => errorMessage
      end.

End WithNetwork.

(** The condition under which a message is rendered with a Sources block:
    [msg.sources && msg.sources.length > 0]. *)
Definition showsSources (msg : ChatMessage) : bool :=
  match sources msg with
  | Some (_ :: _) => true
  | _ => false
  end.

(** The call behind [ask] failed: the request errored, or the response is
    not ok. *)
Definition failed (s : Settled) : Prop :=
  match s with
  | Rejected => True
  | Fulfilled res => ok res = false
  end.

End Ask.

(** ** The pages over a store of objects

    The transcript is one object graph shared by every page: arrays and
    records are references, and the array methods the pages call allocate
    their results.  This model runs the same code over an explicit store,
    so that what a search allocates, what it aliases and what it writes can
    be told apart. *)

Module Store.

Definition loc := positive.

(** The own fields of a paragraph record; [sentences] is a reference. *)
Record ParagraphFields := {
  f_speaker : option Z;
  f_start : Q;
  f_end : Q;
  f_num_words : Z;
  f_text : str;
  f_sentences : loc
}.

Inductive Obj :=
  | OParagraph (p : ParagraphFields)                 (* a paragraph of the transcript *)
  | ODoc (p : ParagraphFields) (index : nat)         (* [{ ...p, index: i }] *)
  | OHit (item : loc) (refIndex : nat) (score : Q)   (* a result of the library *)
  | ORow (paragraph : loc) (index : nat)             (* [{ paragraph, index }] *)
  | OArray (elems : list loc)
  | OEntity (e : Entity)
  | OSentence (s : Sentence)
  | OTranscript (paragraphs entities : loc)          (* [data] *)
  | OFuse (docs : loc) (records : list str) (options : Fuse.Options).

Abbreviation heap := (gmap loc Obj).

(** Computations over the store; [None] is a thrown [TypeError]. *)
Definition M (A : Type) : Type := heap -> option (A * heap).

Definition ret {A} (a : A) : M A := fun h => Some (a, h).

Definition bind {A B} (m : M A) (k : A -> M B) : M B :=
  fun h => match m h with
           | Some (a, h1) => k a h1
           | None => None
           end.

Definition throw {A} : M A := fun _ => None.

Notation "'let*' x := m 'in' k" := (bind m (fun x => k))
  (at level 10, x name, k at level 200, only parsing).

(** A new object. *)
Definition alloc (o : Obj) : M loc :=
  fun h => let l := fresh (dom h) in Some (l, <[l := o]> h).

(** Reading an object. *)
Definition load (l : loc) : M Obj :=
  fun h => (fun o => (o, h)) <$> h !! l.

(** Overwriting an object in place. *)
Definition store (l : loc) (o : Obj) : M unit :=
  fun h => match h !! l with
           | Some _ => Some (tt, <[l := o]> h)
           | None => None
           end.

Definition getArray (l : loc) : M (list loc) :=
  let* o := load l in
  match o with OArray es => ret es | _ => throw end.

(** The paragraph fields of a paragraph or of its indexed copy. *)
Definition getFields (l : loc) : M ParagraphFields :=
  let* o := load l in
  match o with
  | OParagraph p => ret p
  | ODoc p _ => ret p
  | _ => throw
  end.

Fixpoint mapIdx {A B} (f : A -> nat -> M B) (i : nat) (l : list A) : M (list B) :=
  match l with
  | [] => ret []
  | x :: l' =>
      let* y := f x i in
      let* ys := mapIdx f (S i) l' in
      ret (y :: ys)
  end.

Fixpoint filterM (f : loc -> M bool) (l : list loc) : M (list loc) :=
  match l with
  | [] => ret []
  | x :: l' =>
      let* b := f x in
      let* ys := filterM f l' in
      ret (if b then x :: ys else ys)
  end.

(** [arr.map(f)] *)
Definition Array_map (f : loc -> nat -> M loc) (arr : loc) : M loc :=
  let* es := getArray arr in
  let* rs := mapIdx f 0 es in
  alloc (OArray rs).

(** [arr.filter(f)] *)
Definition Array_filter (f : loc -> M bool) (arr : loc) : M loc :=
  let* es := getArray arr in
  let* keep := filterM f es in
  alloc (OArray keep).

(** [arr.slice(0, n)] *)
Definition Array_slice (n : nat) (arr : loc) : M loc :=
  let* es := getArray arr in
  alloc (OArray (take n es)).

(** [arr.sort(cmp)] as a value: a stable insertion sort; [x] goes after the
    elements that do not compare greater than it. *)
Fixpoint insertBy {A} (cmp : A -> A -> Z) (x : A) (l : list A) : list A :=
  match l with
  | [] => [x]
  | y :: l' => if (cmp y x <=? 0)%Z then y :: insertBy cmp x l' else x :: y :: l'
  end.

Definition sortBy {A} (cmp : A -> A -> Z) (l : list A) : list A :=
  fold_left (fun acc x => insertBy cmp x acc) l [].

(** [new Map(entries)] keeps a key at the place of its first entry and
    the value of its last one. *)
Fixpoint mapSet (m : list (str * loc)) (k : str) (v : loc) : list (str * loc) :=
  match m with
  | [] => [(k, v)]
  | (k', v') :: m' =>
      if bool_decide (k' = k) then (k', v) :: m' else (k', v') :: mapSet m' k v
  end.

Definition newMap (entries : list (str * loc)) : list (str * loc) :=
  fold_left (fun m kv => mapSet m kv.1 kv.2) entries [].

Definition getValue (e : loc) : M str :=
  let* o := load e in
  match o with OEntity en => ret (value en) | _ => throw end.

(** [new Fuse(docs, options)]: the records of the index are read from the
    collection, which the object keeps by reference. *)
Definition Fuse_new (docs : loc) (opts : Fuse.Options) : M loc :=
  let* es := getArray docs in
  let* texts := mapIdx (fun d _ => let* f := getFields d in ret (f_text f)) 0 es in
  alloc (OFuse docs texts opts).

Definition located (es : list loc) (h : nat * Q) : option (loc * (nat * Q)) :=
  (fun d => (d, h)) <$> es !! h.1.

(** [fuse.search(pattern)]: a new array of new result objects, each
    referring to the record of the collection it hit. *)
Definition Fuse_search (m : Fuse.Matcher) (fuse : loc) (pattern : str) : M loc :=
  let* o := load fuse in
  match o with
  | OFuse docs texts opts =>
      let* es := getArray docs in
      let* rs := mapIdx (fun dh _ => alloc (OHit dh.1 dh.2.1 dh.2.2)) 0
                   (omap (located es) (m opts texts pattern)) in
      alloc (OArray rs)
  | _ => throw
  end.

Section Pages.
Variable matcher : Fuse.Matcher.
Variable localeCompare : str -> str -> Z.

(** The memoised [fuse] of both pages. *)
Definition fuse (data : option loc) : M (option loc) :=
  match data with
  | None => ret None
  | Some d =>
      let* o := load d in
      match o with
      | OTranscript ps _ =>
          let* docs := Array_map (fun p i => let* f := getFields p in
                                             alloc (ODoc f i)) ps in
          let* fz := Fuse_new docs fuseOptions in
          ret (Some fz)
      | _ => throw
      end
  end.

(** [{ paragraph: r.item, index: r.item.index }] *)
Definition rowOfHit (r : loc) : M loc :=
  let* o := load r in
  match o with
  | OHit item _ _ =>
      let* d := load item in
      match d with
      | ODoc _ i => alloc (ORow item i)
      | _ => throw
      end
  | _ => throw
  end.

(** The fields of [m.paragraph]. *)
Definition rowFields (m : loc) : M ParagraphFields :=
  let* o := load m in
  match o with
  | ORow p _ => getFields p
  | _ => throw
  end.

(** The body shared by [results] (search page, [cap = Some 100]) and
    [filtered] (transcript page, [cap = None]). *)
Definition rows (cap : option nat) (data fz : option loc) (query : str)
    (filterSpeaker : option Z) (filterEntity : str) : M loc :=
  match data with
  | None => alloc (OArray [])
  | Some d =>
      let* o := load d in
      match o with
      | OTranscript ps _ =>
          let* matches :=
            match (if truthy (trim query) then fz else None) with
            | Some f =>
                let* hits := Fuse_search matcher f query in
                Array_map (fun r _ => rowOfHit r) hits
            | None => Array_map (fun p i => alloc (ORow p i)) ps
            end in
          let* matches :=
            match filterSpeaker with
            | Some s =>
                Array_filter (fun m => let* f := rowFields m in
                                       ret (speakerIs (f_speaker f) s)) matches
            | None => ret matches
            end in
          let* matches :=
            if truthy filterEntity
            then Array_filter (fun m => let* f := rowFields m in
                                        ret (mentions (f_text f) filterEntity)) matches
            else ret matches in
          match cap with
          | Some n => Array_slice n matches
          | None => ret matches
          end
      | _ => throw
      end
  end.

Definition results := rows (Some 100).
Definition filtered := rows None.

(** [arr.sort((a, b) => a.value.localeCompare(b.value))]: in place. *)
Definition sortByValue (arr : loc) : M loc :=
  let* es := getArray arr in
  let* entries := mapIdx (fun e _ => let* v := getValue e in ret (v, e)) 0 es in
  let sorted := sortBy (fun a b => localeCompare a.1 b.1) entries in
  let* _ := store arr (OArray (map snd sorted)) in
  ret arr.

(** The memoised [uniqueEntities] of both pages:
    [Array.from(new Map(data.entities.map((e) => [e.value, e])).values()).sort(...)].
    The array of pairs and the map are temporaries of the expression and are
    kept as values; the array that [Array.from] returns is an object. *)
Definition uniqueEntities (data : option loc) : M loc :=
  match data with
  | None => alloc (OArray [])
  | Some d =>
      let* o := load d in
      match o with
      | OTranscript _ ents =>
          let* es := getArray ents in
          let* entries := mapIdx (fun e _ => let* v := getValue e in ret (v, e)) 0 es in
          let* arr := alloc (OArray (map snd (newMap entries))) in
          sortByValue arr
      | _ => throw
      end
  end.

(** One render of a page: the three memoised values, in source order. *)
Definition render (cap : option nat) (data : option loc) (query : str)
    (filterSpeaker : option Z) (filterEntity : str) : M (option loc * loc * loc) :=
  let* fz := fuse data in
  let* ents := uniqueEntities data in
  let* rs := rows cap data fz query filterSpeaker filterEntity in
  ret (fz, ents, rs).

End Pages.
End Store.

(** ** What the specification says of highlighting *)

(** Equality up to case, as a regular expression with the [i] flag sees it. *)
Definition ciEq (a b : str) : Prop := map canonicalize a = map canonicalize b.

(** The query occurs in the text at position [i], up to case. *)
Definition occursAt (query text : str) (i : nat) : Prop :=
  i + length query <= length text /\
  ciEq (take (length query) (drop i text)) query.



(** The pieces of a left-to-right scan for a literal [l]: a piece where no
    match starts, then a match, and so on, ending with a piece where no
    match starts. *)
Inductive Scanned (l : str) : str -> list str -> Prop :=
  | scanned_end u :
      (forall j, j <= length u -> RegExp.matchHere l (drop j u) = false) ->
      Scanned l u [u]
  | scanned_hit u m rest parts :
      (forall j, j < length u -> RegExp.matchHere l (drop j (u ++ m ++ rest)) = false) ->
      RegExp.matchHere l (m ++ rest) = true ->
      length m = length l ->
      Scanned l rest parts ->
      Scanned l (u ++ m ++ rest) (u :: m :: parts).

(** The children [highlightText] is meant to build from the pieces: plain,
    marked, plain, ... *)
Fixpoint alternate (parts : list str) : list Node :=
  match parts with
  | [] => []
  | u :: rest =>
      Text u :: match rest with
                | [] => []
                | m :: rest' => Mark m :: alternate rest'
                end
  end.

(** ** What the specification says of the filters *)

(** The entity value occurs in the paragraph text, up to case. *)
Definition containsIgnoringCase (paragraphText entity : str) : Prop :=
  exists pre mid post,
    paragraphText = pre ++ mid ++ post /\ toLowerCase mid = toLowerCase entity.

(** A paragraph passes every active filter: its speaker is the selected
    one, and it contains the selected entity value. *)
Definition passes (filterSpeaker : option Z) (filterEntity : str)
    (p : Paragraph) : Prop :=
  (forall s, filterSpeaker = Some s -> speaker p = Some s) /\
  (filterEntity <> [] -> containsIgnoringCase (text p) filterEntity).

(** The two tests of the pages together. *)
Definition keeps (filterSpeaker : option Z) (filterEntity : str)
    (p : Paragraph) : bool :=
  match filterSpeaker with
  | Some s => speakerIs (speaker p) s
  | None => true
  end &&
  (if truthy filterEntity then mentions (text p) filterEntity else true).

(** ** What the specification says of the store *)

Module Frame.
Import Store.

(** A computation leaves every object of the store it starts from as it
    was: whatever it returns, the store afterwards extends the one before. *)
Definition preserves {A} (m : M A) : Prop :=
  forall h a h', m h = Some (a, h') -> h ⊆ h'.

(** A computation only reads. *)
Definition readonly {A} (m : M A) : Prop :=
  forall h a h', m h = Some (a, h') -> h' = h.

(** The locations [rs] are new in [h'] with respect to [h] and hold the
    objects [os]. *)
Definition Allocated (h h' : heap) (rs : list loc) (os : list Obj) : Prop :=
  Forall2 (fun r o => h !! r = None /\ h' !! r = Some o) rs os.

(** A loaded transcript: the object [d], its two arrays, the paragraph
    objects [pl] with fields [fl], the entity objects [el]. *)
Definition loaded (h : heap) (d : loc) (pl : list loc)
    (fl : list ParagraphFields) (el : list loc) : Prop :=
  exists ps ents,
    h !! d = Some (OTranscript ps ents) /\
    h !! ps = Some (OArray pl) /\
    h !! ents = Some (OArray el) /\
    Forall2 (fun p f => h !! p = Some (OParagraph f)) pl fl /\
    Forall (fun e => exists en, h !! e = Some (OEntity en)) el.

(** The index of a page: the object [fz] over the array of records [ds],
    the record at [i] a copy of the fields of paragraph [i] with its
    number. *)
Definition indexed (h : heap) (fz : loc) (ds : list loc)
    (fl : list ParagraphFields) : Prop :=
  exists docs,
    h !! fz = Some (OFuse docs (map f_text fl) fuseOptions) /\
    h !! docs = Some (OArray ds) /\
    Forall2 (fun dl o => h !! dl = Some o) ds (imap (fun i f => ODoc f i) fl).

(** The fields seen through a reference to a paragraph or to a record of
    the index. *)
Definition fieldsAt (h : heap) (p : loc) : option ParagraphFields :=
  match h !! p with
  | Some (OParagraph f) => Some f
  | Some (ODoc f _) => Some f
  | _ => None
  end.

(** The entries [rs] are [{ paragraph, index }] objects, new with respect
    to the store [h0], for the candidates [cands]: a reference, a number,
    and the fields behind the reference. *)
Definition Rows (h0 h : heap) (rs : list loc)
    (cands : list (loc * nat * ParagraphFields)) : Prop :=
  Forall2 (fun r c => h0 !! r = None /\
                      h !! r = Some (ORow c.1.1 c.1.2) /\
                      fieldsAt h c.1.1 = Some c.2) rs cands.

(** The entries of a result array: for each, the reference in its
    [paragraph] field and its [index]. *)
Definition readRows (h : heap) (r : loc) : option (list (loc * nat)) :=
  match h !! r with
  | Some (OArray es) =>
      mapM (fun e => match h !! e with
                     | Some (ORow p i) => Some (p, i)
                     | _ => None
                     end) es
  | _ => None
  end.

(** The filters of the pages on the fields of a record. *)
Definition keepsFields (filterSpeaker : option Z) (filterEntity : str)
    (f : ParagraphFields) : bool :=
  match filterSpeaker with
  | Some s => speakerIs (f_speaker f) s
  | None => true
  end &&
  (if truthy filterEntity then mentions (f_text f) filterEntity else true).

(** The entries of the result array [r] refer to objects that did not
    exist in the store [h] the search started from: to copies. *)
Definition overCopies (h h' : heap) (r : loc) : Prop :=
  exists rows,
    readRows h' r = Some rows /\ Forall (fun pi => h !! pi.1 = None) rows.

(** A candidate of the store model and a row of the value model show the
    same paragraph. *)
Definition sameRow {Rw} (para : Rw -> Paragraph) (idx : Rw -> nat)
    (c : loc * nat * ParagraphFields) (m : Rw) : Prop :=
  c.1.2 = idx m /\
  f_speaker c.2 = speaker (para m) /\
  f_text c.2 = text (para m).

Definition capped {A} (cap : option nat) (l : list A) : list A :=
  match cap with Some n => take n l | None => l end.

(** What the entries of the result refer to, by the code: with a blank
    query, the paragraph objects of the transcript themselves; otherwise the
    records of the index that the matcher hit. *)
Definition expectedRows (matcher : Fuse.Matcher) (cap : option nat)
    (pl ds : list loc) (fl : list ParagraphFields) (query : str)
    (filterSpeaker : option Z) (filterEntity : str) : list (loc * nat) :=
  let candidates :=
    if truthy (trim query)
    then omap (fun h : nat * Q =>
                 match ds !! h.1, fl !! h.1 with
                 | Some dl, Some f => Some (dl, h.1, f)
                 | _, _ => None
                 end)
              (matcher fuseOptions (map f_text fl) query)
    else imap (fun i pf => (pf.1, i, pf.2)) (zip pl fl) in
  map fst
    (capped cap
       (List.filter (fun c => keepsFields filterSpeaker filterEntity c.2) candidates)).

End Frame.

(** ** Sample data *)

Definition plain (sp : option Z) (t : string) : Paragraph :=
  {| speaker := sp; start := 0; end_ := 0; num_words := 1;
     text := lit t; sentences := [] |}.

Definition transcriptOf (ps : list Paragraph) : TranscriptData :=
  {| duration := 0; channels := 1; summary := []; topics := [];
     entities := []; speakers := [0%Z; 1%Z]; paragraphs := ps;
     words := []; full_transcript := [] |}.

(** A transcript of 101 paragraphs, each naming Ehud. *)
Definition crowd : TranscriptData :=
  transcriptOf (replicate 101 (plain (Some 1%Z) "Ehud said so")).

Definition trio : TranscriptData :=
  transcriptOf [plain (Some 0%Z) "I met him in New York";
                plain (Some 1%Z) "Ehud was there";
                plain None "the quick fox"].

(** A stand-in for the library's matcher: a record is a hit when its text
    contains the pattern up to case; exact hits score 0, the others 1/4;
    hits come best first, then in the order of the collection. *)
Definition sampleMatcher : Fuse.Matcher := fun _ texts pattern =>
  let hits := omap (fun it : nat * str =>
                      if includes it.2 pattern then Some (it.1, 0%Q)
                      else if mentions it.2 pattern then Some (it.1, 1 # 4)
                      else None)
                   (imap pair texts) in
  List.filter (fun h => Qeq_bool h.2 0) hits ++
  List.filter (fun h => negb (Qeq_bool h.2 0)) hits.



(** A stand-in for which every record is a hit, all with one score. *)
Definition everyRecord : Fuse.Matcher := fun _ texts _ =>
  imap (fun i _ => (i, 1 # 4)) texts.

(** The fields of two paragraphs. *)
Definition sampleFields : list Store.ParagraphFields :=
  [{| Store.f_speaker := Some 0%Z; Store.f_start := 0; Store.f_end := 1;
      Store.f_num_words := 3; Store.f_text := lit "I met him";
      Store.f_sentences := 6%positive |};
   {| Store.f_speaker := Some 1%Z; Store.f_start := 1; Store.f_end := 2;
      Store.f_num_words := 3; Store.f_text := lit "Ehud was there";
      Store.f_sentences := 7%positive |}].

(** A store holding a transcript of these two paragraphs and one entity:
    the transcript object at 1, its arrays at 2 and 3, the paragraphs at 4
    and 5, their (empty) sentence arrays at 6 and 7, the entity at 8. *)
Definition sampleStore : gmap Store.loc Store.Obj :=
  list_to_map
    ([(1%positive, Store.OTranscript 2%positive 3%positive);
      (2%positive, Store.OArray [4; 5]%positive);
      (3%positive, Store.OArray [8%positive])]
     ++ zip [4; 5]%positive (Store.OParagraph <$> sampleFields)
     ++ [(6%positive, Store.OArray []);
         (7%positive, Store.OArray []);
         (8%positive, Store.OEntity
            {| label := lit "PER"; value := lit "Ehud"; confidence := 1;
               start_word := 3; end_word := 4 |})]).

(** A collation for the samples: by length. *)
Definition byLength (a b : str) : Z := (Z.of_nat (length a) - Z.of_nat (length b))%Z.

(** A network on which every request fails. *)
Definition offline : Ask.Request -> Ask.Settled := fun _ => Ask.Rejected.

(** The ask page with a question typed in. *)
Definition typing (question : string) : Ask.State :=
  {| Ask.messages := []; Ask.input := lit question; Ask.isLoading := false |}.

(** ** What the specification says of unrelated text *)


(** ** What the specification says of the order of results *)

(** What the library's matcher returns for the index of a page. *)
Definition pageHits (matcher : Fuse.Matcher) (d : TranscriptData) (query : str)
  : list (nat * Q) :=
  matcher fuseOptions (map Fuse.keyed (indexDocs (paragraphs d))) query.

(** The paragraph numbers [indices] are, in order, those of some of the
    hits, and these go from the best score on, hits of equal score in the
    order of the transcript.  (The library scores a perfect match 0: the
    lower the score, the higher the relevance.) *)
Definition bestFirst (hits : list (nat * Q)) (indices : list nat) : Prop :=
  exists kept,
    kept `sublist_of` hits /\
    indices = map fst kept /\
    StronglySorted Fuse.before kept.

(** The hits that lie in the collection. *)
Definition hitsInRange (matcher : Fuse.Matcher) (d : TranscriptData) (query : str)
  : list (nat * Q) :=
  List.filter (fun h => h.1 <? length (paragraphs d)) (pageHits matcher d query).

(** ** [Map] objects

    [new Map(entries)] over string keys, as the list of its entries in
    insertion order: a key stays at the place of its first entry and holds
    the value of its last one. *)

Module JSMap.
Section WithValue.
Context {V : Type}.

(** [map.set(k, v)] *)
Fixpoint set (m : list (str * V)) (k : str) (v : V) : list (str * V) :=
  match m with
  | [] => [(k, v)]
  | (k', v') :: m' =>
      if bool_decide (k' = k) then (k', v) :: m' else (k', v') :: set m' k v
  end.

(** [new Map(entries)] *)
Definition create (entries : list (str * V)) : list (str * V) :=
  fold_left (fun m kv => set m kv.1 kv.2) entries [].

(** [Array.from(map.values())] *)
Definition values (m : list (str * V)) : list V := map snd m.

End WithValue.
End JSMap.

(** ** The entity menu of the search page and of the transcript page

    [Array.from(new Map(data.entities.map((e) => [e.value, e])).values())
       .sort((a, b) => a.value.localeCompare(b.value))], the same expression on
    both pages, over values.  The collation is the engine's and is a
    parameter. *)

Section WithCollation.
Variable localeCompare : str -> str -> Z.

Definition uniqueEntities (data : option TranscriptData) : list Entity :=
  match data with
  | None => []
  | Some d =>
      Store.sortBy (fun a b => localeCompare (value a) (value b))
        (JSMap.values (JSMap.create (map (fun e => (value e, e)) (entities d))))
  end.

End WithCollation.

(** ** What the two pages render around the list *)

(** A child of a JSX element: a number or a string. *)
Inductive Child := Num (n : nat) | Str (s : str).

Module SearchView.

(** [{results.length} result{results.length !== 1 ? "s" : ""}
     {results.length === 100 ? " (showing first 100)" : ""}] *)
Definition caption (results : list SearchPage.SearchResult) : list Child :=
  [Num (length results);
   Str (lit " result");
   Str (if negb (length results =? 1) then lit "s" else []);
   Str (if length results =? 100 then lit " (showing first 100)" else [])].

End SearchView.

Module TranscriptContent.

(** [query.trim().length > 0 || filterSpeaker !== null || filterEntity !== ""] *)
Definition isSearching (query : str) (filterSpeaker : option Z) (filterEntity : str)
  : bool :=
  (0 <? length (trim query))
  || match filterSpeaker with Some _ => true | None => false end
  || match filterEntity with [] => false | _ :: _ => true end.

(** [isPlaying && currentTime >= r.para.start && currentTime < r.para.end] *)
Definition isActive (isPlaying : bool) (currentTime : Q) (r : TranscriptPage.Row)
  : bool :=
  isPlaying
  && Qle_bool (start (TranscriptPage.para r)) currentTime
  && negb (Qle_bool (end_ (TranscriptPage.para r)) currentTime).

End TranscriptContent.

(** ** Speaker names and colours ([lib/speakers.ts], [SpeakerBadge]) *)

Module Speakers.

(** [table[speaker]] on an object literal keyed by numbers. *)
Fixpoint get (table : list (Z * string)) (k : Z) : option string :=
  match table with
  | [] => None
  | (k', v) :: rest => if Z.eqb k' k then Some v else get rest k
  end.

Definition SPEAKER_NAMES : list (Z * string) :=
  [(0%Z, "Epstein"%string); (1%Z, "Ehud"%string)].

Definition getSpeakerName (speaker : option Z) : str :=
  match speaker with
  | None => lit "Unknown"
  | Some s => lit (default "Other"%string (get SPEAKER_NAMES s))
  end.

Definition SPEAKER_COLORS : list (Z * string) :=
  [(0%Z, "bg-blue-100 text-blue-800 dark:bg-blue-900 dark:text-blue-200"%string);
   (1%Z, "bg-emerald-100 text-emerald-800 dark:bg-emerald-900 dark:text-emerald-200"%string)].

Definition DEFAULT_COLOR : string :=
  "bg-gray-100 text-gray-800 dark:bg-gray-800 dark:text-gray-200".

Definition SPEAKER_BORDERS : list (Z * string) :=
  [(0%Z, "border-l-blue-400"%string); (1%Z, "border-l-emerald-400"%string)].

Definition DEFAULT_BORDER : string := "border-l-gray-400".

Definition getSpeakerColor (speaker : option Z) : str :=
  match speaker with
  | None => lit DEFAULT_COLOR
  | Some s => lit (default DEFAULT_COLOR (get SPEAKER_COLORS s))
  end.

Definition getSpeakerBorderColor (speaker : option Z) : str :=
  match speaker with
  | None => lit DEFAULT_BORDER
  | Some s => lit (default DEFAULT_BORDER (get SPEAKER_BORDERS s))
  end.

End Speakers.

(** ** The detailed summary of the overview page ([app/page.tsx]) *)

Module Summary.

Record KeyFigure := { name : str; context : str }.

Record SummarySection := {
  title : str;
  timestamp_start : str;
  timestamp_end : str;
  section_summary : str;
  key_points : list str;
  speakers_involved : list str
}.

(** The page reads [key_figures_mentioned] and [key_themes] through [?.]
    and [??]: a reply without the field is allowed for, and is [None]. *)
Record DetailedSummary := {
  headline : str;
  overview : str;
  sections : list SummarySection;
  key_figures_mentioned : option (list KeyFigure);
  key_themes : option (list str)
}.

End Summary.

(** ** The request helpers of the transcript and of the summary
       ([lib/api.ts]) *)

Module Api.

(** An HTTP response: its [ok] flag, and how [res.json()] settles: with the
    parsed body, or rejected with an error of some message. *)
Record Response (A : Type) := { ok : bool; json : str + A }.
Arguments ok {A} _.
Arguments json {A} _.

(** How the promise of [fetch] settles: rejected with an error of some
    message, or fulfilled. *)
Inductive Settled (A : Type) :=
  | Rejected (message : str)
  | Fulfilled (res : Response A).
Arguments Rejected {A} _.
Arguments Fulfilled {A} _.

Section WithNetwork.
Variable API_BASE : str.

(** [fetchTranscript()]: the body, or the message of the error thrown. *)
Definition fetchTranscript (fetch : str -> Settled TranscriptData)
  : str + TranscriptData :=
  match fetch (API_BASE ++ lit "/api/transcript") with
  | Rejected message => inl message
  | Fulfilled res =>
      if negb (ok res) then inl (lit "Failed to fetch transcript") else json res
  end.

(** [fetchSummary()] *)
Definition fetchSummary (fetch : str -> Settled Summary.DetailedSummary)
  : str + Summary.DetailedSummary :=
  match fetch (API_BASE ++ lit "/api/summary") with
  | Rejected message => inl message
  | Fulfilled res =>
      if negb (ok res) then inl (lit "Failed to fetch summary") else json res
  end.

End WithNetwork.
End Api.

(** ** The transcript provider and the gate of the pages *)

Module TranscriptProvider.

Record State := {
  data : option TranscriptData;
  loading : bool;
  error : option str
}.

(** The three [useState] of the provider. *)
Definition initial : State := {| data := None; loading := true; error := None |}.

(** The effect of the provider, from the call to the [finally]:
    [fetchTranscript().then((d) => setData(d)).catch((e) => setError(e.message))
       .finally(() => setLoading(false))]. *)
Definition load (API_BASE : str) (fetch : str -> Api.Settled TranscriptData)
    (st : State) : State :=
  let st' :=
    match Api.fetchTranscript API_BASE fetch with
    | inr d => {| data := Some d; loading := loading st; error := error st |}
    | inl message => {| data := data st; loading := loading st; error := Some message |}
    end in
  {| data := data st'; loading := false; error := error st' |}.

(** What a page returns. *)
Inductive View :=
  | Loading
  | Failure (shown : str)       (* [Error: {shown}] *)
  | Content (d : TranscriptData).

(** [error || noData] *)
Definition orElse (error : option str) (noData : str) : str :=
  match error with
  | Some (c :: message) => c :: message
  | _ => noData
  end.

(** The gate every page starts with:
    [if (loading) ...; if (error || !data) ...; ...]. *)
Definition gate (noData : str) (st : State) : View :=
  if loading st then Loading
  else
    match (match error st with Some m => truthy m | None => false end), data st with
    | false, Some d => Content d
    | _, _ => Failure (orElse (error st) noData)
    end.

(** The search page and the transcript page. *)
Definition view : State -> View := gate (lit "No data").

(** The overview page. *)
Definition overviewView : State -> View := gate (lit "No data available").

End TranscriptProvider.

(** ** The overview page ([app/page.tsx]) *)

Module Overview.
Import Summary.

Definition newline : ascii := "010"%char.

(** [s.split(sep)] for a separator of one code unit; [cur] is the piece
    being read, reversed. *)
Fixpoint splitAt (sep : ascii) (cur s : str) : list str :=
  match s with
  | [] => [rev cur]
  | c :: s' =>
      if charEqb c sep then rev cur :: splitAt sep [] s'
      else splitAt sep (c :: cur) s'
  end.

Definition split (sep : ascii) (s : str) : list str := splitAt sep [] s.

(** The sign of the number a comparator returns. *)
Definition sign (q : Q) : Z := Z.sgn (Qnum q).

(** [Array.from(new Map(data.topics.map((t) => [t.topic, t])).values())
       .sort((a, b) => b.confidence - a.confidence)] *)
Definition uniqueTopics (d : TranscriptData) : list Topic :=
  Store.sortBy (fun a b => sign (topic_confidence b - topic_confidence a))
    (JSMap.values (JSMap.create (map (fun t => (topic t, t)) (topics d)))).

(** [Array.from(new Map(data.entities.map((e) => [e.value, e])).values())
       .sort((a, b) => b.confidence - a.confidence)] *)
Definition uniqueEntities (d : TranscriptData) : list Entity :=
  Store.sortBy (fun a b => sign (confidence b - confidence a))
    (JSMap.values (JSMap.create (map (fun e => (value e, e)) (entities d)))).

Record State := {
  summary : option DetailedSummary;
  summaryLoading : bool;
  showAllFigures : bool
}.

Definition initial : State :=
  {| summary := None; summaryLoading := true; showAllFigures := false |}.

(** The effect of the page, from the call to the [finally]:
    [fetchSummary().then(setSummary).catch(() => {})
       .finally(() => setSummaryLoading(false))]. *)
Definition load (API_BASE : str) (fetch : str -> Api.Settled DetailedSummary)
    (st : State) : State :=
  {| summary := match Api.fetchSummary API_BASE fetch with
                | inr s => Some s
                | inl _ => summary st
                end;
     summaryLoading := false;
     showAllFigures := showAllFigures st |}.

(** [summary?.key_figures_mentioned] *)
Definition figures (s : option DetailedSummary) : option (list KeyFigure) :=
  s ≫= key_figures_mentioned.

(** [visibleFigures] *)
Definition visibleFigures (st : State) : list KeyFigure :=
  if showAllFigures st then default [] (figures (summary st))
  else take 12 (default [] (figures (summary st))).

(** The section of the key figures is rendered:
    [summary?.key_figures_mentioned && summary.key_figures_mentioned.length > 0]. *)
Definition showsFigures (st : State) : bool :=
  match figures (summary st) with
  | Some (_ :: _) => true
  | _ => false
  end.

(** The button under them is rendered:
    [summary.key_figures_mentioned.length > 12]. *)
Definition showsToggle (st : State) : bool :=
  12 <? length (default [] (figures (summary st))).

(** [setShowAllFigures(!showAllFigures)] *)
Definition toggle (st : State) : State :=
  {| summary := summary st;
     summaryLoading := summaryLoading st;
     showAllFigures := negb (showAllFigures st) |}.

(** [summary?.headline || "Epstein Transcript Explorer"] *)
Definition shownHeadline (st : State) : str :=
  match headline <$> summary st with
  | Some (c :: h) => c :: h
  | _ => lit "Epstein Transcript Explorer"
  end.

(** The "Key Figures" figure of the statistics:
    [summary?.key_figures_mentioned?.length ?? uniqueEntities.length]. *)
Definition keyFiguresStat (st : State) (d : TranscriptData) : nat :=
  match figures (summary st) with
  | Some figs => length figs
  | None => length (uniqueEntities d)
  end.

(** [summary.overview.split("\n").filter(Boolean)] *)
Definition overviewParagraphs (s : DetailedSummary) : list str :=
  List.filter truthy (split newline (overview s)).

(** [data.paragraphs.filter((p) => p.speaker === s).length] *)
Definition speakerCount (d : TranscriptData) (s : Z) : nat :=
  length (List.filter (fun p => speakerIs (speaker p) s) (paragraphs d)).

(** The counts of the Speakers section, one per entry of [data.speakers]. *)
Definition speakerCounts (d : TranscriptData) : list nat :=
  map (speakerCount d) (speakers d).

(** The entity section is rendered:
    [uniqueEntities.length > 0 && !summary?.key_figures_mentioned?.length]. *)
Definition showsEntities (st : State) (d : TranscriptData) : bool :=
  (0 <? length (uniqueEntities d))
  && negb (match figures (summary st) with Some (_ :: _) => true | _ => false end).

(** [uniqueTopics.slice(0, 20)] and [uniqueEntities.slice(0, 30)] *)
Definition shownTopics (d : TranscriptData) : list Topic := take 20 (uniqueTopics d).
Definition shownEntities (d : TranscriptData) : list Entity := take 30 (uniqueEntities d).

End Overview.

(** ** The ask page, event by event

    [handleSubmit] is suspended at its [await]; the question it holds then
    is [pending].  The text input is disabled while [isLoading]. *)

Module AskPage.
Import Ask.

Record Page := { st : State; pending : option str }.

Inductive Event :=
  | Typed (s : str)   (* [onChange] of the input *)
  | Submit            (* [onSubmit] of the form *)
  | Settle.           (* the promise of [askQuestion] settles *)

Definition initial : Page :=
  {| st := {| messages := []; input := []; isLoading := false |}; pending := None |}.

(** [disabled={isLoading || !input.trim()}] of the button. *)
Definition submitDisabled (s : State) : bool :=
  isLoading s || negb (truthy (trim (input s))).

Section WithNetwork.
Variable API_BASE : str.
Variable fetch : Request -> Settled.

(** The message the [try] or the [catch] appends. *)
Definition reply (question : str) : ChatMessage :=
  match askQuestion API_BASE fetch question with
  | inr result => answerMessage result
  | inl _ => errorMessage
  end.

Definition step (p : Page) (e : Event) : Page :=
  match e with
  | Typed s =>
      if isLoading (st p) then p
      else {| st := {| messages := messages (st p); input := s;
                       isLoading := isLoading (st p) |};
              pending := pending p |}
  | Submit =>
      let question := trim (input (st p)) in
      if negb (truthy question) || isLoading (st p) then p
      else {| st := submitted (st p) question; pending := Some question |}
  | Settle =>
      match pending p with
      | Some question =>
          {| st := settled (st p) (reply question); pending := None |}
      | None => p
      end
  end.

Definition run (events : list Event) (p : Page) : Page := fold_left step events p.

End WithNetwork.

(** The log is a sequence of exchanges: a question, then one reply. *)
Fixpoint paired (log : list ChatMessage) : bool :=
  match log with
  | [] => true
  | q :: a :: rest =>
      match role q, role a with
      | user, assistant => paired rest
      | _, _ => false
      end
  | [_] => false
  end.

End AskPage.

(** ** Numbers as strings, and the speaker menu

    [String(n)] and [Number(s)] on the safe integers (magnitude below
    2^53), where a number is printed as its decimal digits with a minus
    sign when negative, and a string of that form is read back exactly.
    [None]: the argument lies outside this fragment. *)

Module Num.

Definition isSafeInteger (n : Z) : bool := (Z.abs n <=? 2 ^ 53 - 1)%Z.

(** [String(n)] *)
Definition toString (n : Z) : option str :=
  if isSafeInteger n then Some (lit (NilZero.string_of_int (Z.to_int n))) else None.

(** [Number(s)] for [s] an optional minus sign and decimal digits. *)
Definition toNumber (s : str) : option Z :=
  match NilZero.int_of_string (string_of_list_ascii s) with
  | Some d => if isSafeInteger (Z.of_int d) then Some (Z.of_int d) else None
  | None => None
  end.

End Num.

(** The speaker menu, the same on the search page and on the transcript
    page. *)
Module SpeakerSelect.

(** [value={filterSpeaker === null ? "all" : String(filterSpeaker)}]; the
    option of a speaker [s] has [value={s}], the same string. *)
Definition value (filterSpeaker : option Z) : option str :=
  match filterSpeaker with
  | None => Some (lit "all")
  | Some s => Num.toString s
  end.

(** [onChange]: the new [filterSpeaker],
    [e.target.value === "all" ? null : Number(e.target.value)]. *)
Definition onChange (targetValue : str) : option (option Z) :=
  if bool_decide (targetValue = lit "all") then Some None
  else Some <$> Num.toNumber targetValue.

End SpeakerSelect.

(** ** More sample data *)

(** A transcript of 100 paragraphs of speaker 0, then one of speaker 1. *)
Definition queue : TranscriptData :=
  transcriptOf (replicate 100 (plain (Some 0%Z) "I said so")
                ++ [plain (Some 1%Z) "Ehud said so"]).

(** A paragraph with its span in the recording. *)
Definition spoken (sp : option Z) (from to : Q) (t : string) : Paragraph :=
  {| speaker := sp; start := from; end_ := to; num_words := 1;
     text := lit t; sentences := [] |}.

(** A transcript of three paragraphs that follow one another in time. *)
Definition timed : TranscriptData :=
  transcriptOf [spoken (Some 0%Z) 0 5 "I met him in New York";
                spoken (Some 1%Z) 5 (19 # 2) "Ehud was there";
                spoken None (19 # 2) 12 "the quick fox"].

Definition named (l v : string) (c : Q) : Entity :=
  {| label := lit l; value := lit v; confidence := c;
     start_word := 0; end_word := 1 |}.

(** A transcript whose entities name Ehud twice. *)
Definition cast : TranscriptData :=
  {| duration := 0; channels := 1; summary := []; topics := [];
     entities := [named "LOC" "New York" (1 # 2); named "PER" "Ehud" (9 # 10);
                  named "ORG" "Ehud" (3 # 10)];
     speakers := [0%Z; 1%Z];
     paragraphs := paragraphs trio;
     words := []; full_transcript := [] |}.

(** A server that answers no request for the summary. *)
Definition noSummary : str -> Api.Settled Summary.DetailedSummary :=
  fun _ => Api.Fulfilled {| Api.ok := false; Api.json := inl [] |}.

(** ** The matching of the library, from the specification

    The pages hand the text matching and the ranking to Fuse.js, which is
    not under [src/].  What the specification says of them (section 4.2) is
    written out here as one matcher; the options are those of the source. *)

Module Fuzzy.

(** Modelled from the spec: the index of the library (Fuse.js, absent from
    [src/]) holds the text of a paragraph "normalized (lower-cased,
    whitespace-collapsed)".  This is the collapsing: a run of white space
    becomes one space; [inSpace] tells that the character before was white
    space. *)
Fixpoint collapse (inSpace : bool) (s : str) : str :=
  match s with
  | [] => []
  | c :: s' =>
      if isWhiteSpace c
      then if inSpace then collapse true s' else " "%char :: collapse true s'
      else c :: collapse false s'
  end.

(** Modelled from the spec: the normalization of the library's index (absent
    from [src/]), "lower-cased, whitespace-collapsed".  The query is compared
    in the same form. *)
Definition normalize (s : str) : str := collapse false (toLowerCase s).

(** Modelled from the spec: the "bounded edit-distance" metric of the
    library's matching (absent from [src/]).  Some prefix of [t] is [q] up to
    at most [k] edits: a character of the query replaced, missing from the
    text, or a character more in the text. *)
Fixpoint within (k : nat) : str -> str -> bool :=
  fix go (q t : str) {struct q} : bool :=
    match q with
    | [] => true
    | c :: q' =>
        match t with
        | d :: t' => charEqb c d && go q' t'
        | [] => false
        end
        || match k with
           | 0 => false
           | S k' =>
               within k' q' t
               || match t with
                  | d :: t' => within k' q' t' || within k' (c :: q') t'
                  | [] => false
                  end
           end
    end.

(** Modelled from the spec: "Matching ignores match position (a hit anywhere
    in the paragraph counts)", for the library's matching (absent from
    [src/]): [q] is found, up to [k] edits, somewhere in [t]. *)
Fixpoint occursWithin (k : nat) (q t : str) : bool :=
  within k q t
  || match t with
     | [] => false
     | _ :: t' => occursWithin k q t'
     end.

(** Modelled from the spec: the fewest edits with which the library's
    matching (absent from [src/]) finds [q] in [t]; the search starts at [k]
    and goes up, [fuel] times at most. *)
Fixpoint leastFrom (fuel k : nat) (q t : str) : nat :=
  match fuel with
  | 0 => k
  | S fuel' => if occursWithin k q t then k else leastFrom fuel' (S k) q t
  end.

(** Modelled from the spec: the edit distance of the library's matching
    (absent from [src/]) between the query and the place of the text closest
    to it; it is the length of the query at most. *)
Definition errors (q t : str) : nat := leastFrom (length q) 0 q t.

(** Modelled from the spec: the "relevance score" of the library (absent
    from [src/]) as the "character-level divergence": the share of the
    characters of the query that differ from the text.  0 is a perfect match
    and the most relevant; the lower, the more relevant. *)
Definition score (query text : str) : Q :=
  Z.of_nat (errors (normalize query) (normalize text))
  # Pos.of_nat (length (normalize query)).

(** Modelled from the spec: when the library (absent from [src/]) reports a
    paragraph: "a paragraph matches if its normalized text contains the query
    as a contiguous substring OR scores above a similarity threshold under a
    bounded edit-distance metric", the threshold allowing "~30%
    character-level divergence": the [threshold: 0.3] of the options. *)
Definition matches (threshold : Q) (query text : str) : bool :=
  includes (normalize text) (normalize query)
  || Qle_bool (score query text) threshold.

(** Modelled from the spec: the order of the library's results (its sort is
    absent from [src/]): "descending relevance score", "ties broken by
    original paragraph order".  Negative: [a] goes first. *)
Definition rank (a b : nat * Q) : Z :=
  match (a.2 ?= b.2)%Q with
  | Lt => (-1)%Z
  | Gt => 1%Z
  | Eq => (Z.of_nat a.1 - Z.of_nat b.1)%Z
  end.

(** Modelled from the spec: the matcher of the library (Fuse.js, absent from
    [src/]): the records that match, each with its score, the most relevant
    first. *)
Definition matcher : Fuse.Matcher := fun opts texts pattern =>
  Store.sortBy rank
    (omap (fun it : nat * str =>
             if matches (Fuse.threshold opts) pattern it.2
             then Some (it.1, score pattern it.2)
             else None)
          (imap pair texts)).

End Fuzzy.

(** A transcript of two paragraphs, the second one with a space in it. *)
Definition spaced : TranscriptData :=
  transcriptOf [plain None "ab"; plain None "c d"].


(** One listed entry comes before another by the specification's order:
    its paragraph has the better (lower) score for the query, or the same
    score and the lower paragraph number. *)
Definition ranksBefore (query : str) (a b : Paragraph * nat) : Prop :=
  (Fuzzy.score query (text a.1) < Fuzzy.score query (text b.1))%Q \/
  ((Fuzzy.score query (text a.1) == Fuzzy.score query (text b.1))%Q /\ a.2 < b.2).

(** * Properties *)

(** ** Strings *)

Section StringFacts.

Lemma charEqb_eq a b : charEqb a b = true <-> a = b.
Proof. apply Ascii.eqb_eq. Qed.

Lemma charEqb_refl a : charEqb a a = true.
Proof. by apply charEqb_eq. Qed.

Lemma truthy_true (s : str) : truthy s = true <-> s <> [].
Proof. destruct s; simpl; split; congruence. Qed.

Lemma truthy_false (s : str) : truthy s = false <-> s = [].
Proof. destruct s; simpl; split; congruence. Qed.

Lemma trimStart_nil_inv s : trimStart s = [] -> forallb isWhiteSpace s = true.
Proof.
  induction s as [|c s IH]; simpl; [done|].
  destruct (isWhiteSpace c); [auto | discriminate].
Qed.

(** A string with something left after trimming is not empty. *)
Lemma trim_truthy s : truthy (trim s) = true -> s <> [].
Proof. by intros H ->. Qed.

Lemma startsWith_spec hay needle :
  startsWith hay needle = true <-> exists post, hay = needle ++ post.
Proof.
  revert hay; induction needle as [|n needle IH]; intros hay; simpl.
  - split; [eauto | done].
  - destruct hay as [|h hay]; simpl.
    + split; [done | by intros [? ?]].
    + rewrite andb_true_iff, charEqb_eq, IH. split.
      * intros [-> [post ->]]. eauto.
      * intros [post [= -> ->]]. eauto.
Qed.

(** [includes] is the substring test. *)
Lemma includes_spec hay needle :
  includes hay needle = true <-> exists pre post, hay = pre ++ needle ++ post.
Proof.
  induction hay as [|h hay IH]; simpl.
  - rewrite orb_false_r, startsWith_spec. split.
    + intros [post ->]. by exists [], post.
    + intros [pre [post E]]. destruct pre; simpl in E; [eauto | done].
  - rewrite orb_true_iff, startsWith_spec, IH. split.
    + intros [[post ->] | (pre & post & ->)].
      * by exists [], post.
      * by exists (h :: pre), post.
    + intros [[|p pre] [post E]]; simpl in E.
      * left; eauto.
      * injection E as -> ->. right; eauto.
Qed.

End StringFacts.

(** ** The regular expression of the highlighter *)

Section RegExpFacts.
Import RegExp.

(** The class the source escapes is the set of syntax characters. *)
Lemma escaped_is_syntax c : inEscapedClass c = isSyntaxCharacter c.
Proof. destruct c as [[] [] [] [] [] [] [] []]; reflexivity. Qed.

Lemma syntax_backslash c : isSyntaxCharacter c = false -> charEqb c backslash = false.
Proof.
  intros H. destruct (charEqb c backslash) eqn:E; [|done].
  apply charEqb_eq in E. subst c. discriminate.
Qed.

(** Escaping then parsing gives the query back: the expression is the
    query taken literally. *)
Lemma parseAtoms_escape q : parseAtoms (escapeRegExp q) = Some q.
Proof.
  induction q as [|c q IH]; simpl; [done|].
  rewrite escaped_is_syntax. destruct (isSyntaxCharacter c) eqn:E; simpl.
  - rewrite E, IH. done.
  - rewrite (syntax_backslash _ E), E, IH. done.
Qed.

Lemma create_escaped q :
  create (lit "(" ++ escapeRegExp q ++ lit ")") = Some (mk q 0).
Proof.
  unfold create, parseGroup. simpl.
  rewrite rev_app_distr. simpl. rewrite rev_involutive, parseAtoms_escape. done.
Qed.

Lemma matchHere_nil l : l <> [] -> matchHere l [] = false.
Proof. by destruct l. Qed.

Lemma matchHere_app l s t : matchHere l s = true -> matchHere l (s ++ t) = true.
Proof.
  revert s; induction l as [|a l IH]; intros s; simpl; [done|].
  destruct s as [|c s]; simpl; [done|].
  rewrite !andb_true_iff. intros [-> H]. auto.
Qed.

(** The matcher accepts exactly the strings that start with the literal up
    to case. *)
Lemma matchHere_spec l s :
  matchHere l s = true <-> length l <= length s /\ ciEq (take (length l) s) l.
Proof.
  unfold ciEq. revert s; induction l as [|a l IH]; intros s; simpl.
  - split; [intros _; split; [lia | done] | done].
  - destruct s as [|c s]; simpl.
    + split; [done | intros [? _]; lia].
    + rewrite andb_true_iff, charEqb_eq, IH. split.
      * intros [-> [? ->]]. split; [lia | done].
      * intros [? [= -> ->]]. split; [done | split; [lia | done]].
Qed.

Lemma matchHere_occursAt query text i :
  occursAt query text i <-> i <= length text /\ matchHere query (drop i text) = true.
Proof.
  unfold occursAt. rewrite matchHere_spec, length_drop. split.
  - intros [? ?]. split; [lia | split; [lia | done]].
  - intros [? [? ?]]. split; [lia | done].
Qed.

Lemma splitLoop_miss l cur c s' :
  matchHere l (c :: s') = false ->
  splitLoop l cur (c :: s') = splitLoop l (c :: cur) s'.
Proof. intros H. simp splitLoop. rewrite H. by simp splitLoop. Qed.

Lemma splitLoop_hit a l' cur c s' :
  matchHere (a :: l') (c :: s') = true ->
  splitLoop (a :: l') cur (c :: s') =
  rev cur :: take (S (length l')) (c :: s')
    :: splitLoop (a :: l') [] (drop (length l') s').
Proof. intros H. simp splitLoop. rewrite H. by simp splitLoop. Qed.

(** The loop of [split] scans from left to right. *)
Lemma splitLoop_scanned a l' n : forall s cur,
  length s <= n ->
  (forall j, j < length cur -> matchHere (a :: l') (drop j (rev cur ++ s)) = false) ->
  Scanned (a :: l') (rev cur ++ s) (splitLoop (a :: l') cur s).
Proof.
  induction n as [|n IH]; intros s cur Hn Hcur.
  - destruct s; [|simpl in Hn; lia].
    simp splitLoop. rewrite app_nil_r in *. apply scanned_end.
    intros j Hj. rewrite length_rev in Hj.
    destruct (decide (j < length cur)) as [Hlt|Hge]; [by apply Hcur|].
    rewrite drop_ge by (rewrite length_rev; lia). done.
  - destruct s as [|c s'].
    { simp splitLoop. rewrite app_nil_r in *. apply scanned_end.
      intros j Hj. rewrite length_rev in Hj.
      destruct (decide (j < length cur)) as [Hlt|Hge]; [by apply Hcur|].
      rewrite drop_ge by (rewrite length_rev; lia). done. }
    simpl in Hn. destruct (matchHere (a :: l') (c :: s')) eqn:Hm.
    + rewrite (splitLoop_hit _ _ _ _ _ Hm).
      pose proof (proj1 (matchHere_spec _ _) Hm) as [Hlen _]. simpl in Hlen.
      rewrite <- (take_drop (S (length l')) (c :: s')) at 1.
      change (drop (S (length l')) (c :: s')) with (drop (length l') s').
      apply scanned_hit.
      * intros j Hj. rewrite length_rev in Hj.
        change (drop (length l') s') with (drop (S (length l')) (c :: s')).
        rewrite take_drop. by apply Hcur.
      * change (drop (length l') s') with (drop (S (length l')) (c :: s')).
        by rewrite take_drop.
      * rewrite length_take. simpl. lia.
      * apply (IH (drop (length l') s') []).
        -- rewrite length_drop. lia.
        -- simpl. intros; lia.
    + rewrite (splitLoop_miss _ _ _ _ Hm).
      replace (rev cur ++ c :: s') with (rev (c :: cur) ++ s')
        by (simpl; by rewrite <- app_assoc).
      apply IH; [lia|].
      intros j Hj. simpl in Hj. simpl. rewrite <- app_assoc. simpl.
      destruct (decide (j < length cur)) as [Hlt|Hge]; [by apply Hcur|].
      assert (j = length (rev cur)) as -> by (rewrite length_rev; lia).
      by rewrite drop_app_length.
Qed.

(** The pieces of [text.split(regex)] for a literal that is not empty. *)
Lemma split_scanned l text :
  l <> [] -> Scanned l text (split (mk l 0) text).
Proof.
  intros Hl. destruct l as [|a l']; [done|].
  unfold split. simpl lits. destruct text as [|c s].
  - simpl. apply scanned_end. intros j _. by rewrite drop_nil.
  - apply (splitLoop_scanned a l' (length (c :: s)) (c :: s) []); [done|].
    simpl. intros; lia.
Qed.

Lemma Scanned_concat l text parts : Scanned l text parts -> concat parts = text.
Proof.
  induction 1 as [u _|u m rest parts _ _ _ _ IH]; simpl.
  - by rewrite app_nil_r.
  - by rewrite IH.
Qed.

Lemma searchFrom_none l s :
  (forall j, j <= length s -> matchHere l (drop j s) = false) ->
  forall i, searchFrom l s i = None.
Proof.
  induction s as [|c s IH]; intros H i;
    pose proof (H 0 ltac:(lia)) as H0; rewrite drop_0 in H0; simpl searchFrom;
    rewrite H0; [done|].
  apply IH. intros j Hj. apply (H (S j)). simpl; lia.
Qed.

(** No match in a piece: [test] answers [false] whatever [lastIndex] was,
    and resets it. *)
Lemma test_no_match l k u :
  (forall j, j <= length u -> matchHere l (drop j u) = false) ->
  test (mk l k) u = (false, mk l 0).
Proof.
  intros H. unfold test, exec. simpl.
  destruct (length u <? k) eqn:E; [done|].
  apply Nat.ltb_ge in E.
  rewrite searchFrom_none; [done|].
  intros j Hj. rewrite length_drop in Hj. rewrite drop_drop. apply H. lia.
Qed.

(** A piece that is a match, tested from [lastIndex = 0]: [true]. *)
Lemma test_match l m :
  matchHere l m = true -> test (mk l 0) m = (true, mk l (length l)).
Proof.
  intros H. unfold test, exec. simpl. destruct m; simpl; by rewrite H.
Qed.

Lemma matchHere_exact l m rest :
  matchHere l (m ++ rest) = true -> length m = length l -> matchHere l m = true.
Proof.
  intros H Hlen. apply matchHere_spec in H as [_ H]. apply matchHere_spec.
  split; [lia|]. rewrite <- Hlen in *.
  by rewrite take_app_length in H; rewrite firstn_all.
Qed.

Lemma no_start_inside l u x :
  l <> [] ->
  (forall j, j < length u -> matchHere l (drop j (u ++ x)) = false) ->
  forall j, j <= length u -> matchHere l (drop j u) = false.
Proof.
  intros Hl H j Hj.
  destruct (decide (j < length u)) as [Hlt|Hge].
  - specialize (H j Hlt). rewrite drop_app_le in H by lia.
    destruct (matchHere l (drop j u)) eqn:E; [|done].
    by rewrite (matchHere_app _ _ _ E) in H.
  - rewrite drop_ge by lia. by apply matchHere_nil.
Qed.

(** Whatever [lastIndex] the expression starts with, the calls of [test]
    over the pieces mark every second piece and no other. *)
Lemma markParts_scanned l text parts :
  l <> [] -> Scanned l text parts ->
  forall k, markParts (mk l k) parts = alternate parts.
Proof.
  intros Hl. induction 1 as [u Hu|u m rest parts Hu Hm Hlen _ IH]; intros k; simpl.
  - by rewrite test_no_match.
  - rewrite test_no_match by eauto using no_start_inside.
    rewrite test_match by eauto using matchHere_exact.
    by rewrite IH.
Qed.

End RegExpFacts.

(** ** Highlighting *)

Section HighlightFacts.
Import RegExp.





Lemma alternate_text parts : concat (map nodeText (alternate parts)) = concat parts.
Proof.
  assert (forall n parts, length parts <= n ->
            concat (map nodeText (alternate parts)) = concat parts) as H.
  { clear parts. induction n as [|n IH]; intros [|u [|m parts]] Hn;
      simpl in *; try done; try lia.
    do 2 f_equal. apply IH. lia. }
  by apply (H (length parts)).
Qed.

(** What [highlightText] returns for a query that is not blank: the
    constructor does not throw, and the children are the pieces of the scan
    for the literal query, every second one marked. *)
Lemma highlightText_parts query text :
  truthy (trim query) = true ->
  highlightText query text =
    Some (Parts (alternate (split (mk query 0) text))) /\
  Scanned query text (split (mk query 0) text).
Proof.
  intros Hq. pose proof (trim_truthy _ Hq) as Hne.
  pose proof (split_scanned query text Hne) as Hs.
  split; [|done].
  unfold highlightText. rewrite Hq, create_escaped. simpl.
  by rewrite (markParts_scanned query text _ Hne Hs).
Qed.

End HighlightFacts.

Section HighlightClaims.
Import RegExp.




(** C10.  Highlighting preserves the text: for every paragraph text and
    every query that is not blank, [highlightText] returns (the constructor
    does not throw) and the fragments it returns, marked and unmarked, spell
    the original text in order. *)
Theorem highlight_preserves_text (query text : str) :
  trim query <> [] ->
  exists r, highlightText query text = Some r /\ renderedText r = text.
Proof.
  intros Hq. apply truthy_true in Hq.
  destruct (highlightText_parts query text Hq) as [Heq Hs].
  eexists; split; [exact Heq|]. simpl.
  by rewrite alternate_text, (Scanned_concat _ _ _ Hs).
Qed.

Lemma highlight_preserves_text_witness :
  trim (lit "a.") <> [] /\
  exists r, highlightText (lit "a.") (lit "a.b A. ab") = Some r /\
            renderedText r = lit "a.b A. ab".
Proof.
  split; [discriminate|].
  apply (highlight_preserves_text (lit "a.") (lit "a.b A. ab")). discriminate.
Defined.

End HighlightClaims.

(** ** Search and filters *)

Section ListFacts.
Context {A B : Type}.

Lemma filter_filter_length (f g : A -> bool) (l : list A) :
  length (List.filter f (List.filter g l)) <= length (List.filter f l).
Proof.
  induction l as [|x l IH]; simpl; [done|].
  destruct (g x); simpl; destruct (f x); simpl; lia.
Qed.

Lemma filter_length_le (f : A -> bool) (l : list A) :
  length (List.filter f l) <= length l.
Proof. induction l as [|x l IH]; simpl; [done|]. destruct (f x); simpl; lia. Qed.

Lemma take_length_mono n (l k : list A) :
  length l <= length k -> length (take n l) <= length (take n k).
Proof. rewrite !length_take. lia. Qed.

Lemma filter_both (f g : A -> bool) (l : list A) :
  List.filter f (List.filter g l) = List.filter (fun x => g x && f x) l.
Proof.
  induction l as [|x l IH]; simpl; [done|].
  destruct (g x); simpl; [destruct (f x)|]; by rewrite IH.
Qed.

Lemma filter_all (l : list A) : List.filter (fun _ => true) l = l.
Proof. induction l; simpl; congruence. Qed.

Lemma filter_map_comm (h : A -> B) (f : B -> bool) (l : list A) :
  List.filter f (map h l) = map h (List.filter (fun x => f (h x)) l).
Proof. induction l as [|x l IH]; simpl; [done|]. destruct (f (h x)); simpl; by rewrite IH. Qed.

Lemma map_imap_proj (proj : B -> A) (mk : nat -> A -> B) (l : list A) :
  (forall i x, proj (mk i x) = x) -> map proj (imap mk l) = l.
Proof.
  revert mk; induction l as [|x l IH]; intros mk H; simpl; [done|].
  rewrite H. f_equal. apply IH. intros i y. apply H.
Qed.

Lemma map_imap_index (proj : B -> nat) (mk : nat -> A -> B) (l : list A) k :
  (forall i x, proj (mk i x) = k + i) -> map proj (imap mk l) = seq k (length l).
Proof.
  revert mk k; induction l as [|x l IH]; intros mk k H; simpl; [done|].
  rewrite H, Nat.add_0_r. f_equal. apply IH. intros i y.
  unfold compose. rewrite H. lia.
Qed.

End ListFacts.

Section FilterFacts.

Lemma speakerIs_spec sp s : speakerIs sp s = true <-> sp = Some s.
Proof.
  destruct sp as [z|]; simpl; [|split; done].
  rewrite Z.eqb_eq. split; congruence.
Qed.

(** The entity test of the pages is the substring test up to case. *)
Lemma mentions_spec t e : mentions t e = true <-> containsIgnoringCase t e.
Proof.
  unfold mentions, containsIgnoringCase, toLowerCase. rewrite includes_spec. split.
  - intros (pre & post & E).
    apply map_eq_app in E as (pre' & rest & -> & <- & E).
    apply map_eq_app in E as (mid & post' & -> & E & <-).
    by exists pre', mid, post'.
  - intros (pre & mid & post & -> & E).
    exists (map lowerChar pre), (map lowerChar post).
    by rewrite !map_app, E.
Qed.

Lemma keeps_spec fs fe p : keeps fs fe p = true <-> passes fs fe p.
Proof.
  unfold keeps, passes. rewrite andb_true_iff.
  assert (match fs with Some s => speakerIs (speaker p) s | None => true end = true
          <-> (forall s, fs = Some s -> speaker p = Some s)) as ->.
  { destruct fs as [s|]; [rewrite speakerIs_spec|]; split; try done.
    - by intros -> ? [= <-].
    - auto. }
  assert ((if truthy fe then mentions (text p) fe else true) = true
          <-> (fe <> [] -> containsIgnoringCase (text p) fe)) as ->; [|done].
  destruct fe as [|c fe]; simpl; [split; done|].
  rewrite mentions_spec. split; [done | intros H; by apply H].
Qed.

End FilterFacts.

Section PageFacts.
Variable matcher : Fuse.Matcher.

(** The two filter steps of the search page keep what [keeps] keeps. *)
Lemma SearchPage_filters fs fe (ms : list SearchPage.SearchResult) :
  SearchPage.byEntity fe (SearchPage.bySpeaker fs ms) =
  List.filter (fun m => keeps fs fe (SearchPage.paragraph m)) ms.
Proof.
  unfold SearchPage.byEntity, SearchPage.bySpeaker, keeps.
  destruct fs as [s|], (truthy fe) eqn:E.
  - by rewrite filter_both.
  - apply filter_ext. intros m. by rewrite andb_true_r.
  - done.
  - by rewrite filter_all.
Qed.

(** The same for the transcript page. *)
Lemma TranscriptPage_filters fs fe (rs : list TranscriptPage.Row) :
  TranscriptPage.byEntity fe (TranscriptPage.bySpeaker fs rs) =
  List.filter (fun r => keeps fs fe (TranscriptPage.para r)) rs.
Proof.
  unfold TranscriptPage.byEntity, TranscriptPage.bySpeaker, keeps.
  destruct fs as [s|], (truthy fe) eqn:E.
  - by rewrite filter_both.
  - apply filter_ext. intros m. by rewrite andb_true_r.
  - done.
  - by rewrite filter_all.
Qed.

(** With a blank query the text stage lists every paragraph. *)
Lemma SearchPage_matches_blank d query :
  trim query = [] ->
  SearchPage.matches matcher d query =
  imap (fun i p => SearchPage.Build_SearchResult p i) (paragraphs d).
Proof. intros H. unfold SearchPage.matches. by rewrite H. Qed.

Lemma TranscriptPage_matches_blank d query :
  trim query = [] ->
  TranscriptPage.matches matcher d query =
  imap (fun i p => TranscriptPage.Build_Row p i) (paragraphs d).
Proof. intros H. unfold TranscriptPage.matches. by rewrite H. Qed.

Lemma SearchPage_results_blank d query :
  trim query = [] ->
  SearchPage.results matcher (Some d) query None [] =
  take 100 (imap (fun i p => SearchPage.Build_SearchResult p i) (paragraphs d)).
Proof. intros H. unfold SearchPage.results. by rewrite SearchPage_matches_blank. Qed.

Lemma TranscriptPage_filtered_blank d query :
  trim query = [] ->
  TranscriptPage.filtered matcher (Some d) query None [] =
  imap (fun i p => TranscriptPage.Build_Row p i) (paragraphs d).
Proof. intros H. unfold TranscriptPage.filtered. by rewrite TranscriptPage_matches_blank. Qed.

End PageFacts.

Section ListingClaims.

(** C1 as the specification states it fails on the transcript page: with a
    blank query and no filter, a transcript of 101 paragraphs is listed in
    full there, all 101 of them, not its first 100. *)
Lemma browse_page_lists_past_the_cap :
  length (TranscriptPage.filtered sampleMatcher (Some crowd) [] None []) = 101 /\
  map TranscriptPage.para
      (TranscriptPage.filtered sampleMatcher (Some crowd) [] None [])
  <> take 100 (paragraphs crowd).
Proof.
  rewrite TranscriptPage_filtered_blank by done.
  split; [by vm_compute|].
  intros H. apply (f_equal length) in H. vm_compute in H. discriminate.
Qed.

(** C1, amended.  For every loaded transcript, a blank query (empty or
    white space only) with no speaker and no entity filter lists the
    paragraphs in transcript order: the search page returns the first 100 of
    them, the transcript page returns all of them, without a cap.  The
    matcher is not consulted. *)
Theorem blank_query_lists_paragraphs
    (matcher : Fuse.Matcher) (d : TranscriptData) (query : str) :
  trim query = [] ->
  map SearchPage.paragraph (SearchPage.results matcher (Some d) query None [])
    = take 100 (paragraphs d) /\
  map SearchPage.index (SearchPage.results matcher (Some d) query None [])
    = seq 0 (min 100 (length (paragraphs d))) /\
  map TranscriptPage.para (TranscriptPage.filtered matcher (Some d) query None [])
    = paragraphs d /\
  map TranscriptPage.idx (TranscriptPage.filtered matcher (Some d) query None [])
    = seq 0 (length (paragraphs d)).
Proof.
  intros Hq.
  rewrite SearchPage_results_blank, TranscriptPage_filtered_blank by done.
  rewrite <- !firstn_map.
  rewrite (map_imap_proj SearchPage.paragraph) by done.
  rewrite (map_imap_index SearchPage.index _ _ 0) by done.
  rewrite (map_imap_proj TranscriptPage.para) by done.
  rewrite (map_imap_index TranscriptPage.idx _ _ 0) by done.
  by rewrite take_seq.
Qed.

Lemma blank_query_lists_paragraphs_witness :
  trim (lit "  ") = [] /\
  map SearchPage.paragraph
      (SearchPage.results sampleMatcher (Some trio) (lit "  ") None [])
    = take 100 (paragraphs trio) /\
  map SearchPage.index
      (SearchPage.results sampleMatcher (Some trio) (lit "  ") None [])
    = seq 0 (min 100 (length (paragraphs trio))) /\
  map TranscriptPage.para
      (TranscriptPage.filtered sampleMatcher (Some trio) (lit "  ") None [])
    = paragraphs trio /\
  map TranscriptPage.idx
      (TranscriptPage.filtered sampleMatcher (Some trio) (lit "  ") None [])
    = seq 0 (length (paragraphs trio)).
Proof.
  split; [reflexivity|].
  apply (blank_query_lists_paragraphs sampleMatcher trio (lit "  ")).
  reflexivity.
Defined.

(** C5.  Filters only narrow: on both pages, for every transcript, query
    and filter setting, the results with the speaker filter (or the entity
    filter) are at most as many as the results of the same query with that
    filter removed. *)
Theorem filters_only_narrow
    (matcher : Fuse.Matcher) (data : option TranscriptData) (query : str)
    (filterSpeaker : option Z) (filterEntity : str) :
  length (SearchPage.results matcher data query filterSpeaker filterEntity)
    <= length (SearchPage.results matcher data query None filterEntity) /\
  length (SearchPage.results matcher data query filterSpeaker filterEntity)
    <= length (SearchPage.results matcher data query filterSpeaker []) /\
  length (TranscriptPage.filtered matcher data query filterSpeaker filterEntity)
    <= length (TranscriptPage.filtered matcher data query None filterEntity) /\
  length (TranscriptPage.filtered matcher data query filterSpeaker filterEntity)
    <= length (TranscriptPage.filtered matcher data query filterSpeaker []).
Proof.
  destruct data as [d|]; [|simpl; lia].
  unfold SearchPage.results, TranscriptPage.filtered.
  repeat split.
  - apply take_length_mono.
    unfold SearchPage.byEntity, SearchPage.bySpeaker.
    destruct filterSpeaker, (truthy filterEntity);
      auto using filter_filter_length, filter_length_le.
  - apply take_length_mono.
    unfold SearchPage.byEntity at 2. simpl.
    unfold SearchPage.byEntity. destruct (truthy filterEntity);
      auto using filter_length_le.
  - unfold TranscriptPage.byEntity, TranscriptPage.bySpeaker.
    destruct filterSpeaker, (truthy filterEntity);
      auto using filter_filter_length, filter_length_le.
  - unfold TranscriptPage.byEntity at 2. simpl.
    unfold TranscriptPage.byEntity. destruct (truthy filterEntity);
      auto using filter_length_le.
Qed.

(** C6.  Filter semantics.  On both pages the filters are applied to the
    output of the text stage ([matches]) and keep, in order, exactly the
    entries that pass every active filter (a conjunction); the search page
    then keeps the first 100.  An entry passes the speaker filter exactly
    when the speaker id of its paragraph equals the selected integer, so a
    paragraph without a speaker never passes; it passes the entity filter
    exactly when its text contains the selected value up to case. *)
Theorem filters_keep_exactly_the_passing
    (matcher : Fuse.Matcher) (d : TranscriptData) (query : str)
    (filterSpeaker : option Z) (filterEntity : str) :
  SearchPage.results matcher (Some d) query filterSpeaker filterEntity
    = take 100 (List.filter
                  (fun m => keeps filterSpeaker filterEntity (SearchPage.paragraph m))
                  (SearchPage.matches matcher d query)) /\
  TranscriptPage.filtered matcher (Some d) query filterSpeaker filterEntity
    = List.filter
        (fun r => keeps filterSpeaker filterEntity (TranscriptPage.para r))
        (TranscriptPage.matches matcher d query) /\
  (forall p, keeps filterSpeaker filterEntity p = true
             <-> passes filterSpeaker filterEntity p) /\
  (forall r, In r (TranscriptPage.filtered matcher (Some d) query
                     filterSpeaker filterEntity)
             <-> In r (TranscriptPage.matches matcher d query) /\
                 passes filterSpeaker filterEntity (TranscriptPage.para r)) /\
  (forall p s, speaker p = None ->
               ~ passes (Some s) filterEntity p) /\
  (forall p s e, keeps (Some s) e p = true
                 <-> speaker p = Some s /\
                     (e <> [] -> containsIgnoringCase (text p) e)).
Proof.
  unfold SearchPage.results, TranscriptPage.filtered.
  rewrite SearchPage_filters, TranscriptPage_filters.
  split; [done|]. split; [done|].
  split; [intros p; apply keeps_spec|].
  split.
  { intros r. rewrite filter_In, keeps_spec. tauto. }
  split.
  { intros p s Hnone [H _]. specialize (H s eq_refl). congruence. }
  intros p s e. rewrite keeps_spec. unfold passes. split.
  - intros [H1 H2]. split; [by apply H1 | done].
  - intros [H1 H2]. split; [by intros ? [= <-] | done].
Qed.

End ListingClaims.

(** ** The order of results *)

Section OrderFacts.
Context {A B : Type}.

Lemma sublist_List_filter (f : A -> bool) (l : list A) :
  List.filter f l `sublist_of` l.
Proof.
  induction l as [|x l IH]; simpl; [done|].
  destruct (f x); by constructor.
Qed.

Lemma sublist_map (f : A -> B) (k l : list A) :
  k `sublist_of` l -> map f k `sublist_of` map f l.
Proof. induction 1; simpl; by constructor. Qed.

Lemma Forall_sublist (P : A -> Prop) (k l : list A) :
  k `sublist_of` l -> Forall P l -> Forall P k.
Proof.
  induction 1 as [|x k l _ IH|x k l _ IH]; intros H; [done|..].
  - apply Forall_cons in H as [? ?]. constructor; auto.
  - apply Forall_cons in H as [? ?]. auto.
Qed.

Lemma StronglySorted_sublist (R : A -> A -> Prop) (k l : list A) :
  k `sublist_of` l -> StronglySorted R l -> StronglySorted R k.
Proof.
  induction 1 as [|x k l Hs IH|x k l Hs IH]; intros H; [done|..].
  - apply StronglySorted_inv in H as [H1 H2].
    constructor; [auto | by apply (Forall_sublist _ _ _ Hs)].
  - apply StronglySorted_inv in H as [H1 H2]. auto.
Qed.

End OrderFacts.

Lemma StronglySorted_seq a n : StronglySorted lt (seq a n).
Proof.
  revert a; induction n as [|n IH]; intros a; simpl; constructor; [apply IH|].
  apply Forall_forall. intros x Hx. apply elem_of_seq in Hx. lia.
Qed.

Lemma indexDocs_lookup ps i d : indexDocs ps !! i = Some d -> doc_index d = i.
Proof.
  unfold indexDocs. rewrite list_lookup_imap.
  destruct (ps !! i); simpl; [|done]. by intros [= <-].
Qed.

Section HitFacts.
Context {R : Type}.
Variable toRow : Fuse.Result -> R.
Variable proj : R -> nat.
Hypothesis proj_toRow : forall r, proj (toRow r) = doc_index (Fuse.item r).

(** The rows built from the hits, filtered, carry the paragraph numbers of
    some of the hits, in the order of the hits. *)
Lemma rows_of_hits ps (keep : R -> bool) (hits : list (nat * Q)) :
  exists kept,
    kept `sublist_of` hits /\
    map proj (List.filter keep (map toRow (omap (Fuse.hit (indexDocs ps)) hits)))
      = map fst kept.
Proof.
  induction hits as [|h hits (kept & Hsub & Heq)]; simpl.
  - exists []. by split.
  - unfold Fuse.hit at 1. destruct (indexDocs ps !! h.1) as [d|] eqn:Hd; simpl.
    + destruct (keep _) eqn:Hk; simpl.
      * exists (h :: kept). split; [by constructor|].
        rewrite proj_toRow. simpl. rewrite (indexDocs_lookup _ _ _ Hd).
        by f_equal.
      * exists kept. split; [by constructor | done].
    + exists kept. split; [by constructor | done].
Qed.

(** A hit inside the collection gives a row, no later in the rows than the
    hit is in the hits. *)
Lemma hit_row_position ps (hits : list (nat * Q)) : forall k i sc,
  hits !! k = Some (i, sc) -> i < length ps ->
  exists k', k' <= k /\
    map proj (map toRow (omap (Fuse.hit (indexDocs ps)) hits)) !! k' = Some i.
Proof.
  induction hits as [|h hits IH]; intros k i sc Hk Hi; [done|].
  simpl. unfold Fuse.hit at 1.
  destruct k as [|k]; simpl in Hk.
  - injection Hk as ->. simpl.
    destruct (lookup_lt_is_Some_2 (indexDocs ps) i) as [d Hd].
    { unfold indexDocs. by rewrite length_imap. }
    rewrite Hd. simpl. exists 0. split; [lia|].
    rewrite proj_toRow. simpl. by rewrite (indexDocs_lookup _ _ _ Hd).
  - destruct (IH k i sc Hk Hi) as (k' & Hle & Hk').
    destruct (indexDocs ps !! h.1); simpl.
    + exists (S k'). split; [lia | done].
    + exists k'. split; [lia | done].
Qed.

End HitFacts.

Section OrderedPages.
Variable matcher : Fuse.Matcher.

(** With a query that is not blank the text stage is the library's. *)
Lemma SearchPage_matches_query d query :
  truthy (trim query) = true ->
  SearchPage.matches matcher d query =
  map (fun r => SearchPage.Build_SearchResult
                  (doc_paragraph (Fuse.item r)) (doc_index (Fuse.item r)))
      (omap (Fuse.hit (indexDocs (paragraphs d))) (pageHits matcher d query)).
Proof. intros H. unfold SearchPage.matches. by rewrite H. Qed.

Lemma TranscriptPage_matches_query d query :
  truthy (trim query) = true ->
  TranscriptPage.matches matcher d query =
  map (fun r => TranscriptPage.Build_Row
                  (doc_paragraph (Fuse.item r)) (doc_index (Fuse.item r)))
      (omap (Fuse.hit (indexDocs (paragraphs d))) (pageHits matcher d query)).
Proof. intros H. unfold TranscriptPage.matches. by rewrite H. Qed.

Lemma bestFirst_take hits indices n :
  bestFirst hits indices -> bestFirst hits (take n indices).
Proof.
  intros (kept & Hsub & -> & Hsorted). exists (take n kept).
  split; [etrans; [apply sublist_take | done]|].
  split; [by rewrite firstn_map|].
  eapply StronglySorted_sublist; [apply sublist_take | done].
Qed.

End OrderedPages.

Section OrderClaims.

(** The pages keep the order of the hits, on both pages and under any
    filters, whatever the matcher: when the hits of a query that is not blank
    come best first (by score, then by position in the collection), so do
    the results, since mapping, filtering and capping keep the order; for a
    blank query the results are in the order of the transcript. *)
Lemma results_are_ordered
    (matcher : Fuse.Matcher) (d : TranscriptData) (query : str)
    (filterSpeaker : option Z) (filterEntity : str) :
  (truthy (trim query) = true ->
   StronglySorted Fuse.before (pageHits matcher d query)) ->
  if truthy (trim query)
  then
    bestFirst (pageHits matcher d query)
      (map SearchPage.index
         (SearchPage.results matcher (Some d) query filterSpeaker filterEntity)) /\
    bestFirst (pageHits matcher d query)
      (map TranscriptPage.idx
         (TranscriptPage.filtered matcher (Some d) query filterSpeaker filterEntity))
  else
    StronglySorted lt
      (map SearchPage.index
         (SearchPage.results matcher (Some d) query filterSpeaker filterEntity)) /\
    StronglySorted lt
      (map TranscriptPage.idx
         (TranscriptPage.filtered matcher (Some d) query filterSpeaker filterEntity)).
Proof.
  intros Hsorted. unfold SearchPage.results, TranscriptPage.filtered.
  rewrite SearchPage_filters, TranscriptPage_filters.
  destruct (truthy (trim query)) eqn:E.
  - specialize (Hsorted eq_refl).
    rewrite SearchPage_matches_query, TranscriptPage_matches_query by done.
    split.
    + rewrite <- firstn_map. apply bestFirst_take.
      destruct (rows_of_hits
                  (fun r => SearchPage.Build_SearchResult
                              (doc_paragraph (Fuse.item r)) (doc_index (Fuse.item r)))
                  SearchPage.index (fun _ => eq_refl) (paragraphs d)
                  (fun m => keeps filterSpeaker filterEntity (SearchPage.paragraph m))
                  (pageHits matcher d query)) as (kept & Hsub & Heq).
      exists kept. eauto using StronglySorted_sublist.
    + destruct (rows_of_hits
                  (fun r => TranscriptPage.Build_Row
                              (doc_paragraph (Fuse.item r)) (doc_index (Fuse.item r)))
                  TranscriptPage.idx (fun _ => eq_refl) (paragraphs d)
                  (fun r => keeps filterSpeaker filterEntity (TranscriptPage.para r))
                  (pageHits matcher d query)) as (kept & Hsub & Heq).
      exists kept. eauto using StronglySorted_sublist.
  - apply truthy_false in E.
    rewrite SearchPage_matches_blank, TranscriptPage_matches_blank by done.
    split.
    + eapply StronglySorted_sublist; [|apply (StronglySorted_seq 0 (length (paragraphs d)))].
      rewrite <- (map_imap_index SearchPage.index
                    (fun i p => SearchPage.Build_SearchResult p i) (paragraphs d) 0)
        by done.
      apply sublist_map. etrans; [apply sublist_take | apply sublist_List_filter].
    + eapply StronglySorted_sublist; [|apply (StronglySorted_seq 0 (length (paragraphs d)))].
      rewrite <- (map_imap_index TranscriptPage.idx
                    (fun i p => TranscriptPage.Build_Row p i) (paragraphs d) 0)
        by done.
      apply sublist_map. apply sublist_List_filter.
Qed.

End OrderClaims.

Section HitCounts.
Context {R : Type}.
Variable toRow : Fuse.Result -> R.
Variable proj : R -> nat.
Hypothesis proj_toRow : forall r, proj (toRow r) = doc_index (Fuse.item r).

(** The rows built from the hits carry the numbers of the hits that lie in
    the collection. *)
Lemma rows_of_hits_indices ps (hits : list (nat * Q)) :
  map proj (map toRow (omap (Fuse.hit (indexDocs ps)) hits))
  = map fst (List.filter (fun h => h.1 <? length ps) hits).
Proof.
  induction hits as [|h hits IH]; simpl; [done|].
  unfold Fuse.hit at 1. destruct (h.1 <? length ps) eqn:E.
  - apply Nat.ltb_lt in E.
    destruct (lookup_lt_is_Some_2 (indexDocs ps) h.1) as [d Hd].
    { unfold indexDocs. by rewrite length_imap. }
    rewrite Hd. simpl. rewrite proj_toRow. simpl.
    rewrite (indexDocs_lookup _ _ _ Hd). by f_equal.
  - apply Nat.ltb_ge in E.
    rewrite (lookup_ge_None_2 (indexDocs ps) h.1); [done|].
    unfold indexDocs. by rewrite length_imap.
Qed.

End HitCounts.

Section UnrelatedClaims.


(** For every transcript, every matcher and every query that is not blank,
    with no filter, the results are the paragraphs the matcher reports as
    hits, in its order (the first 100 of them on the search page); so the
    search returns zero results exactly when the matcher reports no hit. *)
Lemma query_results_are_the_hits
    (matcher : Fuse.Matcher) (d : TranscriptData) (query : str) :
  truthy (trim query) = true ->
  map TranscriptPage.idx (TranscriptPage.filtered matcher (Some d) query None [])
    = map fst (hitsInRange matcher d query) /\
  map SearchPage.index (SearchPage.results matcher (Some d) query None [])
    = take 100 (map fst (hitsInRange matcher d query)) /\
  (TranscriptPage.filtered matcher (Some d) query None [] = []
     <-> hitsInRange matcher d query = []) /\
  (SearchPage.results matcher (Some d) query None [] = []
     <-> hitsInRange matcher d query = []).
Proof.
  intros Hq.
  assert (map TranscriptPage.idx (TranscriptPage.filtered matcher (Some d) query None [])
          = map fst (hitsInRange matcher d query)) as H1.
  { unfold TranscriptPage.filtered, TranscriptPage.byEntity, TranscriptPage.bySpeaker.
    simpl. rewrite TranscriptPage_matches_query by done.
    by rewrite (rows_of_hits_indices
                  (fun r => TranscriptPage.Build_Row
                              (doc_paragraph (Fuse.item r)) (doc_index (Fuse.item r)))
                  TranscriptPage.idx (fun _ => eq_refl)). }
  assert (map SearchPage.index (SearchPage.results matcher (Some d) query None [])
          = take 100 (map fst (hitsInRange matcher d query))) as H2.
  { unfold SearchPage.results, SearchPage.byEntity, SearchPage.bySpeaker.
    simpl. rewrite SearchPage_matches_query by done.
    rewrite <- firstn_map.
    by rewrite (rows_of_hits_indices
                  (fun r => SearchPage.Build_SearchResult
                              (doc_paragraph (Fuse.item r)) (doc_index (Fuse.item r)))
                  SearchPage.index (fun _ => eq_refl)). }
  split; [done|]. split; [done|]. split.
  - split; intros H.
    + rewrite H in H1. simpl in H1. symmetry in H1. by apply map_eq_nil in H1.
    + rewrite H in H1. by apply map_eq_nil in H1.
  - split; intros H.
    + rewrite H in H2. simpl in H2.
      destruct (hitsInRange matcher d query); [done | discriminate].
    + rewrite H in H2. by apply map_eq_nil in H2.
Qed.

End UnrelatedClaims.

Section TypoClaims.

(** C2 as the specification states it fails on the search page, whatever
    the matcher does: in a transcript of 101 paragraphs that all contain
    "Ehud", no matcher makes the search page return every one of them for
    the query "Ehdu", since the page returns 100 results at most. *)
Lemma cap_leaves_out_an_Ehud_paragraph :
  ~ exists matcher : Fuse.Matcher,
      forall i p,
        paragraphs crowd !! i = Some p ->
        includes (text p) (lit "Ehud") = true ->
        In i (map SearchPage.index
                (SearchPage.results matcher (Some crowd) (lit "Ehdu") None [])).
Proof.
  intros [matcher H].
  set (shown := map SearchPage.index
                  (SearchPage.results matcher (Some crowd) (lit "Ehdu") None [])) in *.
  assert (length shown <= 100) as Hlen.
  { unfold shown, SearchPage.results. rewrite length_map, length_take. lia. }
  assert (incl (seq 0 101) shown) as Hincl.
  { intros i Hi. apply in_seq in Hi.
    apply (H i (plain (Some 1%Z) "Ehud said so")).
    - change (paragraphs crowd)
        with (replicate 101 (plain (Some 1%Z) "Ehud said so")).
      apply lookup_replicate_2. lia.
    - reflexivity. }
  apply NoDup_incl_length in Hincl; [|apply seq_NoDup].
  rewrite length_seq in Hincl. lia.
Qed.

(** For the query "Ehdu" with no filter and any matcher, every paragraph
    the matcher reports as a hit is returned by the transcript page; the
    search page returns it when it is among the first 100 hits. *)
Lemma reported_hit_is_returned
    (matcher : Fuse.Matcher) (d : TranscriptData) (k i : nat) (sc : Q) :
  pageHits matcher d (lit "Ehdu") !! k = Some (i, sc) ->
  i < length (paragraphs d) ->
  In i (map TranscriptPage.idx
          (TranscriptPage.filtered matcher (Some d) (lit "Ehdu") None [])) /\
  (k < 100 ->
   In i (map SearchPage.index
           (SearchPage.results matcher (Some d) (lit "Ehdu") None []))).
Proof.
  intros Hk Hi. unfold SearchPage.results, TranscriptPage.filtered.
  unfold SearchPage.byEntity, SearchPage.bySpeaker,
    TranscriptPage.byEntity, TranscriptPage.bySpeaker. simpl truthy. cbv iota.
  rewrite SearchPage_matches_query, TranscriptPage_matches_query by done.
  split.
  - destruct (hit_row_position
                (fun r => TranscriptPage.Build_Row
                            (doc_paragraph (Fuse.item r)) (doc_index (Fuse.item r)))
                TranscriptPage.idx (fun _ => eq_refl) (paragraphs d) _ k i sc Hk Hi)
      as (k' & _ & Hk').
    apply list_elem_of_In. by eapply list_elem_of_lookup_2.
  - intros Hcap.
    destruct (hit_row_position
                (fun r => SearchPage.Build_SearchResult
                            (doc_paragraph (Fuse.item r)) (doc_index (Fuse.item r)))
                SearchPage.index (fun _ => eq_refl) (paragraphs d) _ k i sc Hk Hi)
      as (k' & Hle & Hk').
    apply list_elem_of_In. rewrite <- firstn_map.
    apply (list_elem_of_lookup_2 _ k'). rewrite lookup_take_lt by lia. done.
Qed.

End TypoClaims.

(** ** The ask page *)

Section AskClaims.
Import Ask.

(** C8.  A failed call behind [ask] is an explicit error.  When the request
    errors or the response is not ok, the helper [askQuestion] throws (for a
    response that is not ok, the error "Failed to get answer"); the page
    catches it and appends its fixed error notice after the question, ends
    the loading state, and the notice carries no sources, is rendered
    without a Sources block, and differs from the message any reply,
    whatever its answer text, would have produced. *)
Theorem ask_failure_is_explicit
    (API_BASE : str) (fetch : Request -> Settled) (st : State) :
  truthy (trim (input st)) = true ->
  isLoading st = false ->
  failed (fetch (askRequest API_BASE (trim (input st)))) ->
  (exists e, askQuestion API_BASE fetch (trim (input st)) = inl e) /\
  (forall res, fetch (askRequest API_BASE (trim (input st))) = Fulfilled res ->
     askQuestion API_BASE fetch (trim (input st))
       = inl (ErrorMessage "Failed to get answer")) /\
  handleSubmit API_BASE fetch st =
    {| messages := (messages st ++ [userMessage (trim (input st))]) ++ [errorMessage];
       input := [];
       isLoading := false |} /\
  sources errorMessage = None /\
  showsSources errorMessage = false /\
  (forall result, answerMessage result <> errorMessage).
Proof.
  intros Hq Hload Hfail.
  assert (exists e, askQuestion API_BASE fetch (trim (input st)) = inl e) as [e He].
  { unfold askQuestion.
    destruct (fetch _) as [|res]; simpl in *; [eauto|]. rewrite Hfail. simpl. eauto. }
  split; [eauto|]. split.
  { intros res Hres. unfold askQuestion. rewrite Hres in *. simpl in *.
    by rewrite Hfail. }
  split.
  { unfold handleSubmit. rewrite Hq, Hload, He. reflexivity. }
  repeat split. intros result. discriminate.
Qed.

Lemma ask_failure_is_explicit_witness :
  truthy (trim (input (typing " who spoke? "))) = true /\
  isLoading (typing " who spoke? ") = false /\
  failed (offline (askRequest [] (trim (input (typing " who spoke? "))))) /\
  handleSubmit [] offline (typing " who spoke? ") =
    {| messages := [userMessage (lit "who spoke?"); errorMessage];
       input := [];
       isLoading := false |}.
Proof.
  split; [reflexivity|]. split; [reflexivity|]. split; [exact I|].
  exact (proj1 (proj2 (proj2
    (ask_failure_is_explicit [] offline (typing " who spoke? ")
       eq_refl eq_refl I)))).
Defined.

End AskClaims.

(** ** The store *)

Section StoreFacts.
Import Store Frame.

Lemma alloc_fresh (h : heap) : h !! fresh (dom h) = None.
Proof. apply not_elem_of_dom, is_fresh. Qed.

Lemma preserves_ret {A} (a : A) : preserves (ret a).
Proof. intros h a' h' [= _ <-]. done. Qed.

Lemma preserves_throw {A} : preserves (@throw A).
Proof. intros h a h' [=]. Qed.

Lemma preserves_bind {A B} (m : M A) (k : A -> M B) :
  preserves m -> (forall a, preserves (k a)) -> preserves (bind m k).
Proof.
  intros Hm Hk h b h' H. unfold bind in H.
  destruct (m h) as [[a h1]|] eqn:E; [|done].
  etrans; [by eapply Hm | by eapply Hk].
Qed.

Lemma preserves_alloc o : preserves (alloc o).
Proof.
  intros h l h' [= _ <-]. apply insert_subseteq, alloc_fresh.
Qed.

Lemma readonly_preserves {A} (m : M A) : readonly m -> preserves m.
Proof. intros H h a h' E. by rewrite (H _ _ _ E). Qed.

Lemma readonly_ret {A} (a : A) : readonly (ret a).
Proof. by intros h a' h' [= _ <-]. Qed.

Lemma readonly_throw {A} : readonly (@throw A).
Proof. intros h a h' [=]. Qed.

Lemma readonly_bind {A B} (m : M A) (k : A -> M B) :
  readonly m -> (forall a, readonly (k a)) -> readonly (bind m k).
Proof.
  intros Hm Hk h b h' H. unfold bind in H.
  destruct (m h) as [[a h1]|] eqn:E; [|done].
  rewrite <- (Hm _ _ _ E). by eapply Hk.
Qed.

Lemma readonly_load l : readonly (load l).
Proof.
  intros h o h' H. unfold load in H. destruct (h !! l); simpl in H; congruence.
Qed.

Lemma readonly_getArray l : readonly (getArray l).
Proof.
  apply readonly_bind; [apply readonly_load|].
  intros []; auto using readonly_ret, readonly_throw.
Qed.

Lemma readonly_getFields l : readonly (getFields l).
Proof.
  apply readonly_bind; [apply readonly_load|].
  intros []; auto using readonly_ret, readonly_throw.
Qed.

Lemma readonly_getValue l : readonly (getValue l).
Proof.
  apply readonly_bind; [apply readonly_load|].
  intros []; auto using readonly_ret, readonly_throw.
Qed.

Lemma readonly_mapIdx {A B} (f : A -> nat -> M B) l : forall i,
  (forall x j, readonly (f x j)) -> readonly (mapIdx f i l).
Proof.
  induction l as [|x l IH]; intros i Hf; simpl; [apply readonly_ret|].
  apply readonly_bind; [done|]. intros y.
  apply readonly_bind; [by apply IH|]. intros ys. apply readonly_ret.
Qed.

Lemma readonly_filterM f l :
  (forall x, readonly (f x)) -> readonly (filterM f l).
Proof.
  intros Hf. induction l as [|x l IH]; simpl; [apply readonly_ret|].
  apply readonly_bind; [done|]. intros b.
  apply readonly_bind; [done|]. intros ys. apply readonly_ret.
Qed.

Lemma preserves_mapIdx {A B} (f : A -> nat -> M B) l : forall i,
  (forall x j, preserves (f x j)) -> preserves (mapIdx f i l).
Proof.
  induction l as [|x l IH]; intros i Hf; simpl; [apply preserves_ret|].
  apply preserves_bind; [done|]. intros y.
  apply preserves_bind; [by apply IH|]. intros ys. apply preserves_ret.
Qed.

Lemma preserves_Array_map f arr :
  (forall x j, preserves (f x j)) -> preserves (Array_map f arr).
Proof.
  intros Hf. apply preserves_bind; [apply readonly_preserves, readonly_getArray|].
  intros es. apply preserves_bind; [by apply preserves_mapIdx|].
  intros rs. apply preserves_alloc.
Qed.

Lemma preserves_Array_filter f arr :
  (forall x, readonly (f x)) -> preserves (Array_filter f arr).
Proof.
  intros Hf. apply preserves_bind; [apply readonly_preserves, readonly_getArray|].
  intros es. apply preserves_bind; [by apply readonly_preserves, readonly_filterM|].
  intros rs. apply preserves_alloc.
Qed.

Lemma preserves_Array_slice n arr : preserves (Array_slice n arr).
Proof.
  apply preserves_bind; [apply readonly_preserves, readonly_getArray|].
  intros es. apply preserves_alloc.
Qed.

Lemma preserves_Fuse_new docs opts : preserves (Fuse_new docs opts).
Proof.
  apply preserves_bind; [apply readonly_preserves, readonly_getArray|].
  intros es. apply preserves_bind.
  - apply readonly_preserves, readonly_mapIdx. intros d _.
    apply readonly_bind; [apply readonly_getFields | intros; apply readonly_ret].
  - intros texts. apply preserves_alloc.
Qed.

Lemma preserves_Fuse_search m fz pattern : preserves (Fuse_search m fz pattern).
Proof.
  apply preserves_bind; [apply readonly_preserves, readonly_load|].
  intros []; try apply preserves_throw.
  apply preserves_bind; [apply readonly_preserves, readonly_getArray|].
  intros es. apply preserves_bind.
  - apply preserves_mapIdx. intros; apply preserves_alloc.
  - intros rs. apply preserves_alloc.
Qed.

Lemma readonly_rowFields m : readonly (rowFields m).
Proof.
  apply readonly_bind; [apply readonly_load|].
  intros []; auto using readonly_getFields, readonly_throw.
Qed.

Lemma preserves_rowOfHit r : preserves (rowOfHit r).
Proof.
  apply preserves_bind; [apply readonly_preserves, readonly_load|].
  intros []; try apply preserves_throw.
  apply preserves_bind; [apply readonly_preserves, readonly_load|].
  intros []; auto using preserves_alloc, preserves_throw.
Qed.

Lemma preserves_fuse data : preserves (fuse data).
Proof.
  destruct data as [d|]; [|apply preserves_ret].
  apply preserves_bind; [apply readonly_preserves, readonly_load|].
  intros []; try apply preserves_throw.
  apply preserves_bind.
  - apply preserves_Array_map. intros p i.
    apply preserves_bind; [apply readonly_preserves, readonly_getFields|].
    intros f. apply preserves_alloc.
  - intros docs. apply preserves_bind; [apply preserves_Fuse_new|].
    intros fz. apply preserves_ret.
Qed.

Lemma preserves_rows matcher cap data fz query fs fe :
  preserves (rows matcher cap data fz query fs fe).
Proof.
  destruct data as [d|]; [|apply preserves_alloc].
  apply preserves_bind; [apply readonly_preserves, readonly_load|].
  intros []; try apply preserves_throw.
  apply preserves_bind.
  { destruct (if truthy (trim query) then fz else None).
    - apply preserves_bind; [apply preserves_Fuse_search|].
      intros hits. apply preserves_Array_map. intros; apply preserves_rowOfHit.
    - apply preserves_Array_map. intros; apply preserves_alloc. }
  intros ms. apply preserves_bind.
  { destruct fs; [|apply preserves_ret].
    apply preserves_Array_filter. intros m.
    apply readonly_bind; [apply readonly_rowFields | intros; apply readonly_ret]. }
  intros ms'. apply preserves_bind.
  { destruct (truthy fe); [|apply preserves_ret].
    apply preserves_Array_filter. intros m.
    apply readonly_bind; [apply readonly_rowFields | intros; apply readonly_ret]. }
  intros ms''. destruct cap; [apply preserves_Array_slice | apply preserves_ret].
Qed.

(** [sort] writes, but only to the array it is called on. *)
Lemma sortByValue_writes localeCompare arr h r h' :
  sortByValue localeCompare arr h = Some (r, h') ->
  r = arr /\ exists es, h' = <[arr := OArray es]> h.
Proof.
  unfold sortByValue, bind. intros H.
  destruct (getArray arr h) as [[es h1]|] eqn:E1; [|done].
  apply readonly_getArray in E1 as ->.
  destruct (mapIdx _ 0 es h) as [[entries h2]|] eqn:E2; [|done].
  apply readonly_mapIdx in E2 as ->.
  2: { intros e _. apply readonly_bind;
         [apply readonly_getValue | intros; apply readonly_ret]. }
  unfold store in H. destruct (h !! arr); [|done].
  injection H as <- <-. eauto.
Qed.

(** [uniqueEntities] sorts the array it has just made, so the store it
    started from is as before. *)
Lemma preserves_uniqueEntities localeCompare data :
  preserves (uniqueEntities localeCompare data).
Proof.
  destruct data as [d|]; [|apply preserves_alloc].
  apply preserves_bind; [apply readonly_preserves, readonly_load|].
  intros []; try apply preserves_throw.
  apply preserves_bind; [apply readonly_preserves, readonly_getArray|].
  intros es. apply preserves_bind.
  { apply readonly_preserves, readonly_mapIdx. intros e _.
    apply readonly_bind; [apply readonly_getValue | intros; apply readonly_ret]. }
  intros entries h r h' H. unfold bind, alloc in H.
  apply sortByValue_writes in H as [_ [es' ->]].
  rewrite insert_insert_eq. apply insert_subseteq, alloc_fresh.
Qed.

Lemma preserves_render matcher localeCompare cap data query fs fe :
  preserves (render matcher localeCompare cap data query fs fe).
Proof.
  apply preserves_bind; [apply preserves_fuse|]. intros fz.
  apply preserves_bind; [apply preserves_uniqueEntities|]. intros ents.
  apply preserves_bind; [apply preserves_rows|]. intros rs.
  apply preserves_ret.
Qed.

End StoreFacts.

Section StoreSteps.
Import Store Frame.

Lemma bind_Some {A B} (m : M A) (k : A -> M B) h a h1 :
  m h = Some (a, h1) -> bind m k h = k a h1.
Proof. intros E. unfold bind. by rewrite E. Qed.

Lemma load_Some l o (h : heap) : h !! l = Some o -> load l h = Some (o, h).
Proof. intros E. unfold load. by rewrite E. Qed.

Lemma getArray_Some l es (h : heap) :
  h !! l = Some (OArray es) -> getArray l h = Some (es, h).
Proof. intros E. unfold getArray. by rewrite (bind_Some _ _ _ _ _ (load_Some _ _ _ E)). Qed.

Lemma fieldsAt_weaken (h h' : heap) p f :
  h ⊆ h' -> fieldsAt h p = Some f -> fieldsAt h' p = Some f.
Proof.
  intros Hsub. unfold fieldsAt. destruct (h !! p) as [o|] eqn:E; [|done].
  by rewrite (lookup_weaken _ _ _ _ E Hsub).
Qed.

Lemma getFields_Some (h : heap) p f :
  fieldsAt h p = Some f -> getFields p h = Some (f, h).
Proof.
  unfold fieldsAt, getFields. destruct (h !! p) as [o|] eqn:E; [|done].
  rewrite (bind_Some _ _ _ _ _ (load_Some _ _ _ E)).
  destruct o; intros [= ->]; done.
Qed.

Lemma rowFields_Some (h : heap) r p i f :
  h !! r = Some (ORow p i) -> fieldsAt h p = Some f -> rowFields r h = Some (f, h).
Proof.
  intros Hr Hp. unfold rowFields.
  rewrite (bind_Some _ _ _ _ _ (load_Some _ _ _ Hr)). by apply getFields_Some.
Qed.

Lemma Rows_weaken (h0 h h' : heap) rs cands :
  h ⊆ h' -> Rows h0 h rs cands -> Rows h0 h' rs cands.
Proof.
  intros Hsub H. eapply Forall2_impl; [exact H|]. intros r c (H0 & H1 & H2).
  eauto using lookup_weaken, fieldsAt_weaken.
Qed.

Lemma Rows_base (h0 h1 h : heap) rs cands :
  h0 ⊆ h1 -> Rows h1 h rs cands -> Rows h0 h rs cands.
Proof.
  intros Hsub H. eapply Forall2_impl; [exact H|]. intros r c (H0 & H1 & H2).
  split; [by apply (lookup_weaken_None _ _ _ H0) | done].
Qed.

Lemma Rows_new (h0 h : heap) rs cands :
  Rows h0 h rs cands -> Forall (fun r => h0 !! r = None) rs.
Proof. induction 1 as [|r c rs cands (H0 & _) _ IH]; by constructor. Qed.

Lemma Allocated_weaken (h h1 h' : heap) rs os :
  h1 ⊆ h' -> Allocated h h1 rs os ->
  Forall2 (fun r o => h' !! r = Some o) rs os.
Proof.
  intros Hsub H. eapply Forall2_impl; [exact H|].
  intros r o [_ H']. eauto using lookup_weaken.
Qed.

(** A callback that allocates one known object per element. *)
Lemma mapIdx_alloc {A} (f : A -> nat -> M loc) (l : list A) :
  forall (os : list Obj) i (h : heap),
    length os = length l ->
    (forall j x o h1, l !! j = Some x -> os !! j = Some o -> h ⊆ h1 ->
                      f x (i + j) h1 = alloc o h1) ->
    exists rs h', mapIdx f i l h = Some (rs, h') /\ h ⊆ h' /\ Allocated h h' rs os.
Proof.
  induction l as [|x l IH]; intros [|o os] i h Hlen Hf; try done.
  - exists [], h. by repeat split; try constructor.
  - simpl in Hlen. simpl.
    pose proof (Hf 0 x o h eq_refl eq_refl (reflexivity _)) as H0.
    rewrite Nat.add_0_r in H0.
    rewrite (bind_Some _ _ _ _ _ H0).
    set (y := fresh (dom h)). set (h1 := <[y := o]> h).
    assert (h ⊆ h1) as Hsub by apply insert_subseteq, alloc_fresh.
    destruct (IH os (S i) h1) as (rs & h' & Hrun & Hsub' & Hall); [lia| |].
    { intros j x' o' h2 Hx Ho Hh2.
      replace (S i + j) with (i + S j) by lia.
      apply (Hf (S j)); [done | done | by etrans]. }
    exists (y :: rs), h'. rewrite (bind_Some _ _ _ _ _ Hrun).
    split; [done|]. split; [by etrans|].
    constructor.
    + split; [apply alloc_fresh|].
      apply (lookup_weaken h1); [|done]. apply lookup_insert_eq.
    + eapply Forall2_impl; [exact Hall|]. intros r o' [Hn Hs]. split; [|done].
      by apply (lookup_weaken_None _ _ _ Hn).
Qed.

(** A callback that reads one known value per element. *)
Lemma mapIdx_read {A B} (f : A -> nat -> M B) (l : list A) (h : heap) :
  forall (ys : list B) i,
    length ys = length l ->
    (forall j x y, l !! j = Some x -> ys !! j = Some y ->
                   f x (i + j) h = Some (y, h)) ->
    mapIdx f i l h = Some (ys, h).
Proof.
  induction l as [|x l IH]; intros [|y ys] i Hlen Hf; try done.
  simpl in Hlen. simpl.
  pose proof (Hf 0 x y eq_refl eq_refl) as H0. rewrite Nat.add_0_r in H0.
  rewrite (bind_Some _ _ _ _ _ H0).
  rewrite (bind_Some _ _ h ys h); [done|].
  apply IH; [lia|]. intros j x' y' Hx Hy.
  replace (S i + j) with (i + S j) by lia. by apply (Hf (S j)).
Qed.

(** Filtering entries by a test on the fields of their paragraph. *)
Lemma filterM_rows (pred : ParagraphFields -> bool) (h0 h : heap) rs cands :
  Rows h0 h rs cands ->
  exists rs',
    filterM (fun m => bind (rowFields m) (fun f => ret (pred f))) rs h
      = Some (rs', h) /\
    Rows h0 h rs' (List.filter (fun c => pred c.2) cands).
Proof.
  induction 1 as [|r c rs cands (Hn & Hr & Hf) _ (rs' & Hrun & Hrows)]; simpl.
  - exists []. split; [done | constructor].
  - rewrite (bind_Some _ _ _ _ _
               (bind_Some _ _ _ _ _ (rowFields_Some _ _ _ _ _ Hr Hf))).
    rewrite (bind_Some _ _ _ _ _ Hrun).
    destruct (pred c.2).
    + exists (r :: rs'). split; [done|]. constructor; [done | done].
    + exists rs'. by split.
Qed.

Lemma readRows_Rows (h0 h : heap) r rs cands :
  h !! r = Some (OArray rs) -> Rows h0 h rs cands ->
  readRows h r = Some (map (fun c => c.1) cands).
Proof.
  intros Hr Hrows. unfold readRows. rewrite Hr. clear Hr.
  apply mapM_Some. induction Hrows as [|x c rs cands (_ & Hx & _) _ IH]; simpl;
    [constructor|].
  constructor; [|done].
  destruct c as [[p i] f]. simpl in *. by rewrite Hx.
Qed.

Lemma alloc_array_spec (h : heap) es :
  exists a h', alloc (OArray es) h = Some (a, h') /\ h ⊆ h' /\
               h !! a = None /\ h' !! a = Some (OArray es).
Proof.
  exists (fresh (dom h)), (<[fresh (dom h) := OArray es]> h).
  split; [done|]. split; [apply insert_subseteq, alloc_fresh|].
  split; [apply alloc_fresh | apply lookup_insert_eq].
Qed.

(** One filter step of a page. *)
Lemma stage_filter pred a rs cands (h0 h : heap) :
  h !! a = Some (OArray rs) -> Rows h0 h rs cands ->
  exists a' rs' h',
    Array_filter (fun m => bind (rowFields m) (fun f => ret (pred f))) a h
      = Some (a', h') /\
    h ⊆ h' /\ h !! a' = None /\ h' !! a' = Some (OArray rs') /\
    Rows h0 h' rs' (List.filter (fun c => pred c.2) cands).
Proof.
  intros Ha Hrows. unfold Array_filter.
  rewrite (bind_Some _ _ _ _ _ (getArray_Some _ _ _ Ha)).
  destruct (filterM_rows pred h0 h rs cands Hrows) as (rs' & Hrun & Hrows').
  rewrite (bind_Some _ _ _ _ _ Hrun).
  destruct (alloc_array_spec h rs') as (a' & h' & Hal & Hsub & Hnew & Hat).
  exists a', rs', h'. eauto 10 using Rows_weaken.
Qed.

(** The cap of the search page. *)
Lemma stage_slice n a rs cands (h0 h : heap) :
  h !! a = Some (OArray rs) -> Rows h0 h rs cands ->
  exists a' h',
    Array_slice n a h = Some (a', h') /\
    h ⊆ h' /\ h !! a' = None /\ h' !! a' = Some (OArray (take n rs)) /\
    Rows h0 h' (take n rs) (take n cands).
Proof.
  intros Ha Hrows. unfold Array_slice.
  rewrite (bind_Some _ _ _ _ _ (getArray_Some _ _ _ Ha)).
  destruct (alloc_array_spec h (take n rs)) as (a' & h' & Hal & Hsub & Hnew & Hat).
  exists a', h'. repeat split; try done.
  eapply Rows_weaken; [done|]. by apply Forall2_take.
Qed.

Lemma loaded_weaken (h h' : heap) d pl fl el :
  h ⊆ h' -> loaded h d pl fl el -> loaded h' d pl fl el.
Proof.
  intros Hsub (ps & ents & Hd & Hps & Hents & Hpl & Hel).
  exists ps, ents.
  split; [by apply (lookup_weaken h)|]. split; [by apply (lookup_weaken h)|].
  split; [by apply (lookup_weaken h)|]. split.
  - eapply Forall2_impl; [exact Hpl|]. intros p f Hp. by apply (lookup_weaken h).
  - eapply Forall_impl; [exact Hel|]. intros e [en He].
    exists en. by apply (lookup_weaken h).
Qed.

Lemma indexed_weaken (h h' : heap) fz ds fl :
  h ⊆ h' -> indexed h fz ds fl -> indexed h' fz ds fl.
Proof.
  intros Hsub (docs & Hfz & Hdocs & Hds).
  exists docs.
  split; [by apply (lookup_weaken h)|]. split; [by apply (lookup_weaken h)|].
  eapply Forall2_impl; [exact Hds|]. intros dl o Hdl. by apply (lookup_weaken h).
Qed.

(** The text stage with a blank query: an array of new entries, each
    referring to a paragraph object of the transcript itself. *)
Lemma stage_blank (h : heap) ps pl fl :
  h !! ps = Some (OArray pl) ->
  Forall2 (fun p f => h !! p = Some (OParagraph f)) pl fl ->
  exists a rs h',
    Array_map (fun p i => alloc (ORow p i)) ps h = Some (a, h') /\
    h ⊆ h' /\ h !! a = None /\ h' !! a = Some (OArray rs) /\
    Rows h h' rs (imap (fun i pf => (pf.1, i, pf.2)) (zip pl fl)).
Proof.
  intros Hps Hpl. unfold Array_map.
  rewrite (bind_Some _ _ _ _ _ (getArray_Some _ _ _ Hps)).
  destruct (mapIdx_alloc (fun p i => alloc (ORow p i)) pl
              (imap (fun i p => ORow p i) pl) 0 h) as (rs & h1 & Hrun & Hsub & Hall).
  { by rewrite length_imap. }
  { intros j x o h1 Hx Ho _. rewrite list_lookup_imap, Hx in Ho.
    by injection Ho as <-. }
  rewrite (bind_Some _ _ _ _ _ Hrun).
  destruct (alloc_array_spec h1 rs) as (a & h' & Hal & Hsub' & Hnew & Hat).
  exists a, rs, h'. split; [done|]. split; [by etrans|].
  split; [by apply (lookup_weaken_None _ _ _ Hnew)|]. split; [done|].
  pose proof (Forall2_length _ _ _ Hpl) as Hlen.
  pose proof (Forall2_length _ _ _ Hall) as Hlen'. rewrite length_imap in Hlen'.
  apply Forall2_same_length_lookup. split.
  { rewrite length_imap, length_zip_with. lia. }
  intros i r c Hr Hc. rewrite list_lookup_imap in Hc.
  destruct (zip pl fl !! i) as [[p f]|] eqn:Hz; [|done].
  injection Hc as <-. simpl.
  apply lookup_zip_with_Some in Hz as (p' & f' & [= <- <-] & Hp & Hf).
  assert (imap (fun i p => ORow p i) pl !! i = Some (ORow p i)) as Ho
    by (by rewrite list_lookup_imap, Hp).
  destruct (Forall2_lookup_lr _ _ _ _ _ _ Hall Hr Ho) as [Hn Hrow].
  split; [done|]. split.
  - by apply (lookup_weaken h1).
  - apply (fieldsAt_weaken h); [by etrans|]. unfold fieldsAt.
    by rewrite (Forall2_lookup_lr _ _ _ _ _ _ Hpl Hp Hf).
Qed.

Lemma indexed_doc (h : heap) fz ds fl i dl :
  indexed h fz ds fl -> ds !! i = Some dl ->
  exists f, fl !! i = Some f /\ h !! dl = Some (ODoc f i).
Proof.
  intros (docs & _ & _ & Hds) Hi.
  destruct (Forall2_lookup_l _ _ _ _ _ Hds Hi) as (o & Ho & Hdl).
  rewrite list_lookup_imap in Ho. destruct (fl !! i) as [f|]; [|done].
  injection Ho as <-. eauto.
Qed.

Lemma located_inv ds (hits : list (nat * Q)) j dh :
  omap (located ds) hits !! j = Some dh -> ds !! dh.2.1 = Some dh.1.
Proof.
  intros Hj. apply list_elem_of_lookup_2, list_elem_of_omap in Hj as (hit & _ & Hl).
  unfold located in Hl. destruct (ds !! hit.1) eqn:E; [|done].
  by injection Hl as <-.
Qed.

(** The candidates of a query are the located hits with their fields. *)
Lemma located_candidates ds fl (hits : list (nat * Q)) :
  length ds = length fl ->
  Forall2 (fun (dh : loc * (nat * Q)) (c : loc * nat * ParagraphFields) =>
             c.1 = (dh.1, dh.2.1) /\ fl !! dh.2.1 = Some c.2)
    (omap (located ds) hits)
    (omap (fun hit : nat * Q =>
             match ds !! hit.1, fl !! hit.1 with
             | Some dl, Some f => Some (dl, hit.1, f)
             | _, _ => None
             end) hits).
Proof.
  intros Hlen. induction hits as [|hit hits IH]; simpl; [constructor|].
  unfold located at 1. destruct (ds !! hit.1) as [dl|] eqn:Hd; simpl; [|done].
  destruct (lookup_lt_is_Some_2 fl hit.1) as [f Hf].
  { rewrite <- Hlen. by eapply lookup_lt_Some. }
  rewrite Hf. constructor; [by split | done].
Qed.

(** The text stage with a query: the library allocates its results, and
    the page an entry for each, referring to the record of the index. *)
Lemma stage_hits matcher (h : heap) fz ds fl query :
  indexed h fz ds fl ->
  exists a rs h',
    bind (Fuse_search matcher fz query) (Array_map (fun r _ => rowOfHit r)) h
      = Some (a, h') /\
    h ⊆ h' /\ h !! a = None /\ h' !! a = Some (OArray rs) /\
    Rows h h' rs
      (omap (fun hit : nat * Q =>
               match ds !! hit.1, fl !! hit.1 with
               | Some dl, Some f => Some (dl, hit.1, f)
               | _, _ => None
               end)
            (matcher fuseOptions (map f_text fl) query)).
Proof.
  intros Hidx. pose proof Hidx as (docs & Hfz & Hdocs & Hds).
  set (hits := matcher fuseOptions (map f_text fl) query).
  set (lh := omap (located ds) hits).
  (* the library *)
  destruct (mapIdx_alloc (fun dh (_ : nat) => alloc (OHit dh.1 dh.2.1 dh.2.2)) lh
              ((fun dh => OHit dh.1 dh.2.1 dh.2.2) <$> lh) 0 h)
    as (hs & h1 & Hrun1 & Hsub1 & Hall1).
  { by rewrite length_fmap. }
  { intros j x o h' Hx Ho _. rewrite list_lookup_fmap, Hx in Ho.
    by injection Ho as <-. }
  destruct (alloc_array_spec h1 hs) as (harr & h2 & Hal2 & Hsub2 & Hnew2 & Hat2).
  assert (Fuse_search matcher fz query h = Some (harr, h2)) as Hsearch.
  { unfold Fuse_search.
    rewrite (bind_Some _ _ _ _ _ (load_Some _ _ _ Hfz)).
    rewrite (bind_Some _ _ _ _ _ (getArray_Some _ _ _ Hdocs)).
    fold hits. fold lh. by rewrite (bind_Some _ _ _ _ _ Hrun1). }
  rewrite (bind_Some _ _ _ _ _ Hsearch).
  (* the page *)
  assert (h ⊆ h2) as Hsub02 by (by etrans).
  destruct (mapIdx_alloc (fun r (_ : nat) => rowOfHit r) hs
              ((fun dh => ORow dh.1 dh.2.1) <$> lh) 0 h2)
    as (rs & h3 & Hrun3 & Hsub3 & Hall3).
  { rewrite length_fmap. symmetry. pose proof (Forall2_length _ _ _ Hall1) as E.
    by rewrite length_fmap in E. }
  { intros j r o h' Hr Ho Hh'. rewrite list_lookup_fmap in Ho.
    destruct (lh !! j) as [dh|] eqn:Hdh; [|done]. injection Ho as <-.
    destruct (indexed_doc _ _ _ _ _ _ Hidx (located_inv _ _ _ _ Hdh)) as (f & Hf & Hdl).
    assert (h1 !! r = Some (OHit dh.1 dh.2.1 dh.2.2)) as Hhit.
    { eapply (Forall2_lookup_lr _ _ _ _ _ _ Hall1 Hr).
      by rewrite list_lookup_fmap, Hdh. }
    unfold rowOfHit.
    rewrite (bind_Some _ _ _ _ _ (load_Some _ _ _
               (lookup_weaken _ _ _ _ Hhit (transitivity Hsub2 Hh')))).
    rewrite (bind_Some _ _ _ _ _ (load_Some _ _ _
               (lookup_weaken _ _ _ _ Hdl (transitivity Hsub02 Hh')))).
    done. }
  destruct (alloc_array_spec h3 rs) as (a & h4 & Hal4 & Hsub4 & Hnew4 & Hat4).
  exists a, rs, h4. split.
  { unfold Array_map.
    rewrite (bind_Some _ _ _ _ _ (getArray_Some _ _ _ Hat2)).
    by rewrite (bind_Some _ _ _ _ _ Hrun3). }
  assert (h ⊆ h4) as Hsub04.
  { etrans; [exact Hsub02|]. etrans; [exact Hsub3 | exact Hsub4]. }
  split; [done|].
  split.
  { apply (lookup_weaken_None _ _ _ Hnew4). etrans; [exact Hsub02 | exact Hsub3]. }
  split; [done|].
  assert (length ds = length fl) as Hlen.
  { apply Forall2_length in Hds. by rewrite length_imap in Hds. }
  pose proof (located_candidates ds fl hits Hlen) as Hc. fold lh in Hc.
  apply Forall2_same_length_lookup. split.
  { rewrite <- (Forall2_length _ _ _ Hc), (Forall2_length _ _ _ Hall3).
    by rewrite length_fmap. }
  intros j r c Hr Hcj.
  destruct (Forall2_lookup_r _ _ _ _ _ Hc Hcj) as (dh & Hdh & Hc1 & Hc2).
  destruct (indexed_doc _ _ _ _ _ _ Hidx (located_inv _ _ _ _ Hdh)) as (f & Hf & Hdl).
  assert (((fun dh : loc * (nat * Q) => ORow dh.1 dh.2.1) <$> lh) !! j
          = Some (ORow dh.1 dh.2.1)) as Ho
    by (by rewrite list_lookup_fmap, Hdh).
  destruct (Forall2_lookup_lr _ _ _ _ _ _ Hall3 Hr Ho) as [Hn Hrow].
  rewrite Hc1. simpl. split.
  { by apply (lookup_weaken_None _ _ _ Hn). }
  split.
  - by apply (lookup_weaken h3).
  - unfold fieldsAt. rewrite (lookup_weaken _ _ _ _ Hdl Hsub04). congruence.
Qed.

(** Building the index: every record is a new object holding the fields of
    its paragraph and its number. *)
Lemma fuse_spec (h : heap) d pl fl el :
  loaded h d pl fl el ->
  exists fz ds h',
    fuse (Some d) h = Some (Some fz, h') /\ h ⊆ h' /\
    indexed h' fz ds fl /\ Forall (fun dl => h !! dl = None) ds.
Proof.
  intros (ps & ents & Hd & Hps & Hents & Hpl & Hel).
  pose proof (Forall2_length _ _ _ Hpl) as Hlen.
  destruct (mapIdx_alloc
              (fun p i => bind (getFields p) (fun f => alloc (ODoc f i))) pl
              (imap (fun i f => ODoc f i) fl) 0 h)
    as (ds & h1 & Hrun1 & Hsub1 & Hall1).
  { by rewrite length_imap. }
  { intros j p o h' Hp Ho Hh'. rewrite list_lookup_imap in Ho.
    destruct (fl !! j) as [f|] eqn:Hf; [|done]. injection Ho as <-.
    assert (fieldsAt h' p = Some f) as Hfields.
    { apply (fieldsAt_weaken h); [done|]. unfold fieldsAt.
      by rewrite (Forall2_lookup_lr _ _ _ _ _ _ Hpl Hp Hf). }
    by rewrite (bind_Some _ _ _ _ _ (getFields_Some _ _ _ Hfields)). }
  destruct (alloc_array_spec h1 ds) as (docs & h2 & Hal2 & Hsub2 & Hnew2 & Hat2).
  assert (mapIdx (fun d (_ : nat) => bind (getFields d) (fun f => ret (f_text f)))
                 0 ds h2 = Some (f_text <$> fl, h2)) as Hrun3.
  { apply mapIdx_read.
    - rewrite length_fmap. apply Forall2_length in Hall1.
      by rewrite length_imap in Hall1.
    - intros j dl y Hdl Hy. rewrite list_lookup_fmap in Hy.
      destruct (fl !! j) as [f|] eqn:Hf; [|done]. injection Hy as <-.
      assert (fieldsAt h2 dl = Some f) as Hfields.
      { unfold fieldsAt. rewrite (lookup_weaken h1 h2 dl (ODoc f j)); [done| |done].
        eapply (Forall2_lookup_lr _ _ _ _ _ _ Hall1 Hdl).
        by rewrite list_lookup_imap, Hf. }
      by rewrite (bind_Some _ _ _ _ _ (getFields_Some _ _ _ Hfields)). }
  set (h3 := <[fresh (dom h2) := OFuse docs (f_text <$> fl) fuseOptions]> h2).
  assert (h2 ⊆ h3) as Hsub3 by apply insert_subseteq, alloc_fresh.
  exists (fresh (dom h2)), ds, h3. split.
  { unfold fuse. rewrite (bind_Some _ _ _ _ _ (load_Some _ _ _ Hd)).
    assert (Array_map (fun p i => bind (getFields p) (fun f => alloc (ODoc f i)))
                      ps h = Some (docs, h2)) as Hmap.
    { unfold Array_map. rewrite (bind_Some _ _ _ _ _ (getArray_Some _ _ _ Hps)).
      by rewrite (bind_Some _ _ _ _ _ Hrun1). }
    rewrite (bind_Some _ _ _ _ _ Hmap).
    assert (Fuse_new docs fuseOptions h2 = Some (fresh (dom h2), h3)) as Hnew.
    { unfold Fuse_new. rewrite (bind_Some _ _ _ _ _ (getArray_Some _ _ _ Hat2)).
      by rewrite (bind_Some _ _ _ _ _ Hrun3). }
    by rewrite (bind_Some _ _ _ _ _ Hnew). }
  split; [etrans; [exact Hsub1|]; etrans; [exact Hsub2 | exact Hsub3]|].
  split.
  - exists docs. split; [apply lookup_insert_eq|].
    split; [by apply (lookup_weaken h2)|].
    apply (Allocated_weaken h h1); [|done]. etrans; [exact Hsub2 | exact Hsub3].
  - apply Forall_forall. intros dl Hin.
    apply list_elem_of_lookup in Hin as [j Hj].
    by destruct (Forall2_lookup_l _ _ _ _ _ Hall1 Hj) as (o & _ & Hn & _).
Qed.

Lemma mapIdx_getValue (h : heap) l : forall i,
  Forall (fun e => exists en, h !! e = Some (OEntity en)) l ->
  exists ys,
    mapIdx (fun e (_ : nat) => bind (getValue e) (fun v => ret (v, e))) i l h
      = Some (ys, h) /\
    ys.*2 = l.
Proof.
  induction l as [|e l IH]; intros i Hl; simpl.
  - by exists [].
  - apply Forall_cons in Hl as [[en He] Hl].
    destruct (IH (S i) Hl) as (ys & Hrun & Hys).
    exists ((value en, e) :: ys). split; [|simpl; by f_equal].
    assert (getValue e h = Some (value en, h)) as Hv.
    { unfold getValue. by rewrite (bind_Some _ _ _ _ _ (load_Some _ _ _ He)). }
    rewrite (bind_Some _ _ _ _ _ (bind_Some _ _ _ _ _ Hv)).
    by rewrite (bind_Some _ _ _ _ _ Hrun).
Qed.

Lemma mapSet_values (P : loc -> Prop) m k v :
  Forall P m.*2 -> P v -> Forall P (mapSet m k v).*2.
Proof.
  induction m as [|[k' v'] m IH]; simpl; intros Hm Hv.
  - by constructor.
  - apply Forall_cons in Hm as [? ?].
    destruct (bool_decide (k' = k)); simpl; constructor; auto.
Qed.

Lemma newMap_values (P : loc -> Prop) entries :
  Forall P entries.*2 -> Forall P (newMap entries).*2.
Proof.
  unfold newMap. assert (Forall P ([] : list (str * loc)).*2) as Hacc by constructor.
  revert Hacc. generalize ([] : list (str * loc)) as acc.
  induction entries as [|[k v] entries IH]; intros acc Hacc He; simpl; [done|].
  apply Forall_cons in He as [? ?]. apply IH; [|done]. by apply mapSet_values.
Qed.

(** The entity list of a page is built without a [TypeError]. *)
Lemma uniqueEntities_total localeCompare (h : heap) d pl fl el :
  loaded h d pl fl el ->
  exists r h', uniqueEntities localeCompare (Some d) h = Some (r, h').
Proof.
  intros (ps & ents & Hd & Hps & Hents & Hpl & Hel).
  destruct (mapIdx_getValue h el 0 Hel) as (entries & Hrun & Hvals).
  set (vals := (newMap entries).*2).
  set (arr := fresh (dom h)). set (h1 := <[arr := OArray vals]> h).
  assert (h ⊆ h1) as Hsub by apply insert_subseteq, alloc_fresh.
  assert (Forall (fun e => exists en, h1 !! e = Some (OEntity en)) vals) as Hvals1.
  { eapply Forall_impl.
    - apply (newMap_values (fun e => exists en, h !! e = Some (OEntity en))).
      by rewrite Hvals.
    - intros e [en He]. exists en. by apply (lookup_weaken h). }
  destruct (mapIdx_getValue h1 vals 0 Hvals1) as (entries' & Hrun' & _).
  eexists arr, _. unfold uniqueEntities.
  rewrite (bind_Some _ _ _ _ _ (load_Some _ _ _ Hd)).
  rewrite (bind_Some _ _ _ _ _ (getArray_Some _ _ _ Hents)).
  rewrite (bind_Some _ _ _ _ _ Hrun).
  rewrite (bind_Some _ _ h arr h1) by done.
  unfold sortByValue.
  rewrite (bind_Some _ _ h1 vals h1)
    by (apply getArray_Some, lookup_insert_eq).
  rewrite (bind_Some _ _ _ _ _ Hrun').
  unfold bind, store. unfold h1 at 1. rewrite lookup_insert_eq. reflexivity.
Qed.

(** The body of [results] and [filtered]: it returns, the store it started
    from is as before, the array is new, and its entries are the expected
    ones. *)
Lemma rows_spec matcher cap (h : heap) d fz pl fl el ds query fs fe :
  loaded h d pl fl el ->
  (truthy (trim query) = true -> exists f, fz = Some f /\ indexed h f ds fl) ->
  exists r h',
    rows matcher cap (Some d) fz query fs fe h = Some (r, h') /\
    h ⊆ h' /\ h !! r = None /\
    (exists es, h' !! r = Some (OArray es) /\ Forall (fun e => h !! e = None) es) /\
    readRows h' r = Some (expectedRows matcher cap pl ds fl query fs fe).
Proof.
  intros (ps & ents & Hd & Hps & Hents & Hpl & Hel) Hfz.
  set (cands :=
    if truthy (trim query)
    then omap (fun hit : nat * Q =>
                 match ds !! hit.1, fl !! hit.1 with
                 | Some dl, Some f => Some (dl, hit.1, f)
                 | _, _ => None
                 end)
              (matcher fuseOptions (map f_text fl) query)
    else imap (fun i pf => (pf.1, i, pf.2)) (zip pl fl)).
  set (text_stage :=
    match (if truthy (trim query) then fz else None) with
    | Some f => bind (Fuse_search matcher f query) (Array_map (fun r _ => rowOfHit r))
    | None => Array_map (fun p i => alloc (ORow p i)) ps
    end).
  assert (exists a rs h1, text_stage h = Some (a, h1) /\ h ⊆ h1 /\ h !! a = None /\
            h1 !! a = Some (OArray rs) /\ Rows h h1 rs cands)
    as (a & rs & h1 & HrunA & HsubA & HnewA & HatA & HrowsA).
  { unfold text_stage, cands. destruct (truthy (trim query)).
    - destruct (Hfz eq_refl) as (f & -> & Hidx). by apply stage_hits.
    - by apply stage_blank. }
  set (pS := fun f : ParagraphFields =>
               match fs with Some s => speakerIs (f_speaker f) s | None => true end).
  set (speaker_stage := fun matches : loc =>
    match fs with
    | Some s => Array_filter (fun m => bind (rowFields m)
                                (fun f => ret (speakerIs (f_speaker f) s))) matches
    | None => ret matches
    end).
  assert (exists b rs2 h2, speaker_stage a h1 = Some (b, h2) /\ h1 ⊆ h2 /\ h !! b = None /\
            h2 !! b = Some (OArray rs2) /\
            Rows h h2 rs2 (List.filter (fun c => pS c.2) cands))
    as (b & rs2 & h2 & HrunB & HsubB & HnewB & HatB & HrowsB).
  { unfold speaker_stage, pS. destruct fs as [s|].
    - destruct (stage_filter (fun f => speakerIs (f_speaker f) s) a rs cands h h1
                  HatA HrowsA)
        as (b & rs2 & h2 & ? & ? & Hn & ? & ?).
      exists b, rs2, h2. repeat split; try done.
      by apply (lookup_weaken_None _ _ _ Hn).
    - exists a, rs, h1. rewrite filter_all. by repeat split. }
  set (pE := fun f : ParagraphFields =>
               if truthy fe then mentions (f_text f) fe else true).
  set (entity_stage := fun matches : loc =>
    if truthy fe
    then Array_filter (fun m => bind (rowFields m)
                         (fun f => ret (mentions (f_text f) fe))) matches
    else ret matches).
  assert (h ⊆ h2) as Hsub02 by (etrans; [exact HsubA | exact HsubB]).
  assert (exists c rs3 h3, entity_stage b h2 = Some (c, h3) /\ h2 ⊆ h3 /\ h !! c = None /\
            h3 !! c = Some (OArray rs3) /\
            Rows h h3 rs3 (List.filter (fun c => pE c.2)
                           (List.filter (fun c => pS c.2) cands)))
    as (c & rs3 & h3 & HrunC & HsubC & HnewC & HatC & HrowsC).
  { unfold entity_stage, pE. destruct (truthy fe).
    - destruct (stage_filter (fun f => mentions (f_text f) fe) b rs2 _ h h2 HatB HrowsB)
        as (c & rs3 & h3 & ? & ? & Hn & ? & ?).
      exists c, rs3, h3. repeat split; try done.
      by apply (lookup_weaken_None _ _ _ Hn).
    - exists b, rs2, h2. rewrite filter_all. by repeat split. }
  assert (h ⊆ h3) as Hsub03 by (etrans; [exact Hsub02 | exact HsubC]).
  set (kept := List.filter (fun c => pE c.2) (List.filter (fun c => pS c.2) cands)) in *.
  set (cap_stage := fun matches : loc =>
    match cap with Some n => Array_slice n matches | None => ret matches end).
  assert (exists r rs4 h4, cap_stage c h3 = Some (r, h4) /\ h3 ⊆ h4 /\ h !! r = None /\
            h4 !! r = Some (OArray rs4) /\ Rows h h4 rs4 (capped cap kept))
    as (r & rs4 & h4 & HrunD & HsubD & HnewD & HatD & HrowsD).
  { unfold cap_stage, capped. destruct cap as [n|].
    - destruct (stage_slice n c rs3 kept h h3 HatC HrowsC) as (r & h4 & ? & ? & Hn & ? & ?).
      exists r, (take n rs3), h4. repeat split; try done.
      by apply (lookup_weaken_None _ _ _ Hn).
    - exists c, rs3, h3. by repeat split. }
  exists r, h4. split.
  { unfold rows. rewrite (bind_Some _ _ _ _ _ (load_Some _ _ _ Hd)).
    fold text_stage. rewrite (bind_Some _ _ _ _ _ HrunA).
    fold (speaker_stage a). rewrite (bind_Some _ _ _ _ _ HrunB).
    fold (entity_stage b). rewrite (bind_Some _ _ _ _ _ HrunC).
    exact HrunD. }
  split; [etrans; [exact Hsub03 | exact HsubD]|]. split; [done|].
  split; [exists rs4; eauto using Rows_new|].
  rewrite (readRows_Rows _ _ _ _ _ HatD HrowsD). f_equal.
  unfold expectedRows. fold cands. unfold kept. rewrite filter_both.
  reflexivity.
Qed.

End StoreSteps.

Section StoreClaims.
Import Store Frame.

(** One render of a page over a loaded transcript. *)
Lemma render_spec matcher localeCompare cap (h : heap) d pl fl el query fs fe :
  loaded h d pl fl el ->
  exists fz ents r ds h',
    render matcher localeCompare cap (Some d) query fs fe h
      = Some ((Some fz, ents, r), h') /\
    h ⊆ h' /\
    indexed h' fz ds fl /\
    Forall (fun dl => h !! dl = None) ds /\
    h !! r = None /\
    (exists es, h' !! r = Some (OArray es) /\ Forall (fun e => h !! e = None) es) /\
    readRows h' r = Some (expectedRows matcher cap pl ds fl query fs fe).
Proof.
  intros Hload.
  destruct (fuse_spec h d pl fl el Hload) as (fz & ds & h1 & Hrun1 & Hsub1 & Hidx & Hnew).
  pose proof (loaded_weaken _ _ _ _ _ _ Hsub1 Hload) as Hload1.
  destruct (uniqueEntities_total localeCompare h1 d pl fl el Hload1)
    as (ents & h2 & Hrun2).
  pose proof (preserves_uniqueEntities _ _ _ _ _ Hrun2) as Hsub2.
  pose proof (loaded_weaken _ _ _ _ _ _ Hsub2 Hload1) as Hload2.
  pose proof (indexed_weaken _ _ _ _ _ Hsub2 Hidx) as Hidx2.
  destruct (rows_spec matcher cap h2 d (Some fz) pl fl el ds query fs fe Hload2)
    as (r & h3 & Hrun3 & Hsub3 & Hnew3 & (es & Hes & Hnewes) & Hread); [by eauto|].
  assert (h ⊆ h2) as Hsub02 by (etrans; [exact Hsub1 | exact Hsub2]).
  exists fz, ents, r, ds, h3. split.
  { unfold render. rewrite (bind_Some _ _ _ _ _ Hrun1).
    rewrite (bind_Some _ _ _ _ _ Hrun2). by rewrite (bind_Some _ _ _ _ _ Hrun3). }
  split; [etrans; [exact Hsub02 | exact Hsub3]|].
  split; [by apply (indexed_weaken h2)|]. split; [done|].
  split; [by apply (lookup_weaken_None _ _ _ Hnew3)|].
  split; [|done].
  exists es. split; [done|]. eapply Forall_impl; [exact Hnewes|].
  intros e He. by apply (lookup_weaken_None _ _ _ He).
Qed.

(** What the entries of a result refer to. *)
Lemma expectedRows_refs matcher cap pl ds fl query fs fe p i :
  In (p, i) (expectedRows matcher cap pl ds fl query fs fe) ->
  if truthy (trim query) then ds !! i = Some p else pl !! i = Some p.
Proof.
  unfold expectedRows. intros Hin. apply in_map_iff in Hin as ([[p' i'] f] & [= -> ->] & Hin).
  assert (In (p, i, f)
            (List.filter (fun c => keepsFields fs fe c.2)
               (if truthy (trim query)
                then omap (fun hit : nat * Q =>
                             match ds !! hit.1, fl !! hit.1 with
                             | Some dl, Some f => Some (dl, hit.1, f)
                             | _, _ => None
                             end)
                          (matcher fuseOptions (map f_text fl) query)
                else imap (fun i pf => (pf.1, i, pf.2)) (zip pl fl)))) as Hin'.
  { destruct cap as [n|]; simpl in Hin; [|done].
    apply list_elem_of_In. apply list_elem_of_In in Hin.
    eapply elem_of_sublist; [exact Hin | apply sublist_take]. }
  apply filter_In in Hin' as [Hin' _]. apply list_elem_of_In in Hin'.
  destruct (truthy (trim query)).
  - apply list_elem_of_omap in Hin' as (hit & _ & Hhit).
    destruct (ds !! hit.1) as [dl|] eqn:Hd; [|done].
    destruct (fl !! hit.1); [|done]. by injection Hhit as <- <- _.
  - apply list_elem_of_lookup in Hin' as [j Hj]. rewrite list_lookup_imap in Hj.
    destruct (zip pl fl !! j) as [[p' f']|] eqn:Hz; [|done].
    injection Hj as <- <- _.
    by apply lookup_zip_with_Some in Hz as (? & ? & [= <- <-] & ? & ?).
Qed.

(** C9 as the specification states it fails in its last part: with a blank
    query the entries of the result refer to the paragraph objects of the
    transcript themselves (here the objects at 4 and 5 of the sample store),
    not to copies of them. *)
Lemma blank_query_entries_are_the_paragraphs :
  exists fz ents r h',
    render sampleMatcher byLength (Some 100) (Some 1%positive) [] None []
      sampleStore = Some ((fz, ents, r), h') /\
    readRows h' r = Some [(4%positive, 0); (5%positive, 1)] /\
    ~ overCopies sampleStore h' r.
Proof.
  eexists _, _, _, _. split; [vm_compute; reflexivity|].
  assert (forall rows, Some [(4%positive, 0); (5%positive, 1)] = Some rows ->
            ~ Forall (fun pi : loc * nat => sampleStore !! pi.1 = None) rows) as Hno.
  { intros rows [= <-] H. apply Forall_cons in H as [H _]. vm_compute in H. discriminate. }
  split; [vm_compute; reflexivity|].
  intros (rows & Hrows & Hall).
  assert (Some [(4%positive, 0); (5%positive, 1)] = Some rows) as E.
  { rewrite <- Hrows. vm_compute. reflexivity. }
  exact (Hno rows E Hall).
Qed.

(** C9, amended.  One render of a page (the index, the entity list and the
    search itself, for every query and filter combination, with the cap of
    the search page or without it) leaves every object that existed before
    as it was, whatever the store and the transcript reference.  Over a
    loaded transcript the render returns, and afterwards: the transcript
    object, its paragraphs array, its entities array and every paragraph
    object are as before; the records of the search index are new objects,
    copies of the paragraph fields with the paragraph number; the result is
    a new array of new entries, which refer to the records of the index when
    the query is not blank, and to the paragraph objects of the transcript
    themselves (not to copies) when it is blank.  Nothing that existed is
    written to: the one in-place operation, the sort of the entity list,
    acts on the array that was just created. *)
Theorem search_leaves_the_transcript_unchanged
    (matcher : Fuse.Matcher) (localeCompare : str -> str -> Z)
    (cap : option nat) (query : str) (fs : option Z) (fe : str) :
  (forall data, preserves (render matcher localeCompare cap data query fs fe)) /\
  forall (h : heap) d pl fl el,
    loaded h d pl fl el ->
    exists fz ents r ds entries h',
      render matcher localeCompare cap (Some d) query fs fe h
        = Some ((Some fz, ents, r), h') /\
      h ⊆ h' /\
      loaded h' d pl fl el /\
      indexed h' fz ds fl /\
      Forall (fun dl => h !! dl = None) ds /\
      h !! r = None /\
      (exists es, h' !! r = Some (OArray es) /\ Forall (fun e => h !! e = None) es) /\
      readRows h' r = Some entries /\
      entries = expectedRows matcher cap pl ds fl query fs fe /\
      (forall p i, In (p, i) entries ->
         if truthy (trim query) then ds !! i = Some p else pl !! i = Some p).
Proof.
  split; [intros; apply preserves_render|].
  intros h d pl fl el Hload.
  destruct (render_spec matcher localeCompare cap h d pl fl el query fs fe Hload)
    as (fz & ents & r & ds & h' & Hrun & Hsub & Hidx & Hnew & Hr & Hes & Hread).
  exists fz, ents, r, ds, (expectedRows matcher cap pl ds fl query fs fe), h'.
  repeat (split; [done|]).
  split; [by apply (loaded_weaken h)|].
  repeat (split; [done|]).
  intros p i. apply expectedRows_refs.
Qed.

Lemma search_leaves_the_transcript_unchanged_witness :
  loaded sampleStore 1%positive [4; 5]%positive sampleFields [8%positive] /\
  exists fz ents r ds entries h',
    render sampleMatcher byLength (Some 100) (Some 1%positive) (lit "ehud") None []
      sampleStore = Some ((Some fz, ents, r), h') /\
    sampleStore ⊆ h' /\
    loaded h' 1%positive [4; 5]%positive sampleFields [8%positive] /\
    indexed h' fz ds sampleFields /\
    Forall (fun dl => sampleStore !! dl = None) ds /\
    sampleStore !! r = None /\
    (exists es, h' !! r = Some (OArray es) /\
                Forall (fun e => sampleStore !! e = None) es) /\
    readRows h' r = Some entries /\
    entries = expectedRows sampleMatcher (Some 100) [4; 5]%positive ds
                sampleFields (lit "ehud") None [] /\
    (forall p i, In (p, i) entries ->
       if truthy (trim (lit "ehud")) then ds !! i = Some p
       else [4; 5]%positive !! i = Some p).
Proof.
  assert (loaded sampleStore 1%positive [4; 5]%positive sampleFields [8%positive])
    as Hload.
  { exists 2%positive, 3%positive.
    split; [reflexivity|]. split; [reflexivity|]. split; [reflexivity|].
    split; [repeat constructor|].
    constructor; [eexists; reflexivity | constructor]. }
  split; [exact Hload|].
  exact (proj2 (search_leaves_the_transcript_unchanged
                  sampleMatcher byLength (Some 100) (lit "ehud") None [])
               sampleStore 1%positive [4; 5]%positive sampleFields [8%positive]
               Hload).
Defined.

End StoreClaims.

(** ** The two models agree *)

Section Agreement.
Import Store Frame.
Context {Rw : Type}.
Variable mk : Paragraph -> nat -> Rw.
Variable para : Rw -> Paragraph.
Variable idx : Rw -> nat.
Hypothesis para_mk : forall p i, para (mk p i) = p.
Hypothesis idx_mk : forall p i, idx (mk p i) = i.

Lemma Forall2_List_filter {A B} (R : A -> B -> Prop) f g l k :
  Forall2 R l k -> (forall x y, R x y -> f x = g y) ->
  Forall2 R (List.filter f l) (List.filter g k).
Proof.
  intros H Hfg. induction H as [|x y l k Hxy _ IH]; simpl; [constructor|].
  rewrite (Hfg x y Hxy). destruct (g y); [by constructor | done].
Qed.

Lemma keyed_indexDocs ps : map Fuse.keyed (indexDocs ps) = map text ps.
Proof.
  unfold indexDocs.
  assert (forall (f : nat -> Paragraph -> Doc),
            (forall i p, doc_paragraph (f i p) = p) ->
            map Fuse.keyed (imap f ps) = map text ps) as H.
  { induction ps as [|p ps IH]; intros f Hf; simpl; [done|].
    unfold Fuse.keyed at 1. rewrite Hf. f_equal. apply IH. intros i q. apply Hf. }
  by apply H.
Qed.

Lemma texts_agree ps fl :
  Forall2 (fun p f => speaker p = f_speaker f /\ text p = f_text f) ps fl ->
  map text ps = map f_text fl.
Proof. induction 1 as [|p f ps fl [_ Ht] _ IH]; simpl; [done|]. by rewrite Ht, IH. Qed.

Lemma blank_candidates_agree ps pl fl :
  Forall2 (fun p f => speaker p = f_speaker f /\ text p = f_text f) ps fl ->
  length pl = length fl ->
  Forall2 (Frame.sameRow para idx) (imap (fun i pf => (pf.1, i, pf.2)) (zip pl fl))
                  (imap (fun i p => mk p i) ps).
Proof.
  intros Hps Hlen. pose proof (Forall2_length _ _ _ Hps) as Hlen'.
  apply Forall2_same_length_lookup. split.
  { rewrite !length_imap, length_zip_with. lia. }
  intros i c m Hc Hm. rewrite list_lookup_imap in Hc. rewrite list_lookup_imap in Hm.
  destruct (zip pl fl !! i) as [[p f]|] eqn:Hz; [|done].
  destruct (ps !! i) as [q|] eqn:Hq; [|done].
  injection Hc as <-. injection Hm as <-.
  apply lookup_zip_with_Some in Hz as (? & ? & [= <- <-] & _ & Hf).
  destruct (Forall2_lookup_lr _ _ _ _ _ _ Hps Hq Hf) as [Hs Ht].
  unfold Frame.sameRow. simpl. by rewrite para_mk, idx_mk.
Qed.

Lemma query_candidates_agree ps ds fl (hits : list (nat * Q)) :
  Forall2 (fun p f => speaker p = f_speaker f /\ text p = f_text f) ps fl ->
  length ds = length fl ->
  Forall2 (Frame.sameRow para idx)
    (omap (fun hit : nat * Q =>
             match ds !! hit.1, fl !! hit.1 with
             | Some dl, Some f => Some (dl, hit.1, f)
             | _, _ => None
             end) hits)
    (map (fun r => mk (doc_paragraph (Fuse.item r)) (doc_index (Fuse.item r)))
         (omap (Fuse.hit (indexDocs ps)) hits)).
Proof.
  intros Hps Hlen. pose proof (Forall2_length _ _ _ Hps) as Hlen'.
  induction hits as [|hit hits IH]; simpl; [constructor|].
  unfold Fuse.hit at 1. unfold indexDocs at 1. rewrite list_lookup_imap.
  destruct (ps !! hit.1) as [p|] eqn:Hp; simpl.
  - destruct (lookup_lt_is_Some_2 fl hit.1) as [f Hf].
    { rewrite <- Hlen'. by eapply lookup_lt_Some. }
    destruct (lookup_lt_is_Some_2 ds hit.1) as [dl Hdl].
    { rewrite Hlen. by eapply lookup_lt_Some. }
    rewrite Hdl, Hf. constructor; [|done].
    destruct (Forall2_lookup_lr _ _ _ _ _ _ Hps Hp Hf) as [Hs Ht].
    unfold Frame.sameRow. simpl. by rewrite para_mk, idx_mk.
  - rewrite (lookup_ge_None_2 ds hit.1); [done|].
    apply lookup_ge_None_1 in Hp. lia.
Qed.

(** The paragraph numbers in the result of the store model are those of
    the value model. *)
Lemma expectedRows_agree matcher cap (d : TranscriptData) pl ds fl query fs fe :
  Forall2 (fun p f => speaker p = f_speaker f /\ text p = f_text f)
          (paragraphs d) fl ->
  length pl = length fl -> length ds = length fl ->
  map snd (expectedRows matcher cap pl ds fl query fs fe) =
  map idx
    (capped cap
       (List.filter (fun m => keeps fs fe (para m))
          (if truthy (trim query)
           then map (fun r => mk (doc_paragraph (Fuse.item r))
                                 (doc_index (Fuse.item r)))
                    (omap (Fuse.hit (indexDocs (paragraphs d)))
                          (pageHits matcher d query))
           else imap (fun i p => mk p i) (paragraphs d)))).
Proof.
  intros Hps Hpl Hds. unfold expectedRows.
  match goal with
  | |- map snd (map fst (capped cap (List.filter _ ?c))) =
       map idx (capped cap (List.filter _ ?m)) =>
      assert (Forall2 (Frame.sameRow para idx) c m) as Hcm
  end.
  { unfold pageHits. rewrite keyed_indexDocs, (texts_agree _ _ Hps).
    destruct (truthy (trim query)).
    - by apply query_candidates_agree.
    - by apply blank_candidates_agree. }
  eapply (Forall2_List_filter _ (fun c => keepsFields fs fe c.2)
            (fun m => keeps fs fe (para m))) in Hcm.
  2: { intros c m (_ & Hs & Ht). unfold keepsFields, keeps. by rewrite Hs, Ht. }
  assert (forall l k, Forall2 (Frame.sameRow para idx) l k -> map snd (map fst l) = map idx k) as Hmap.
  { induction 1 as [|c m l k [Hi _] _ IH]; simpl; [done|]. by rewrite Hi, IH. }
  apply Hmap. destruct cap as [n|]; simpl; [by apply Forall2_take | done].
Qed.

End Agreement.

Section PagesAgree.
Import Store Frame.

(** The result of the search page over the store carries the paragraph
    numbers of [SearchPage.results] over the values. *)
Lemma store_results_agree matcher (d : TranscriptData) pl ds fl query fs fe :
  Forall2 (fun p f => speaker p = f_speaker f /\ text p = f_text f)
          (paragraphs d) fl ->
  length pl = length fl -> length ds = length fl ->
  map snd (expectedRows matcher (Some 100) pl ds fl query fs fe) =
  map SearchPage.index (SearchPage.results matcher (Some d) query fs fe).
Proof.
  intros Hps Hpl Hds.
  rewrite (expectedRows_agree SearchPage.Build_SearchResult SearchPage.paragraph
             SearchPage.index (fun _ _ => eq_refl) (fun _ _ => eq_refl)
             matcher (Some 100) d pl ds fl query fs fe Hps Hpl Hds).
  unfold SearchPage.results. rewrite SearchPage_filters.
  unfold SearchPage.matches, capped. simpl. by destruct (truthy (trim query)).
Qed.

(** The same for the transcript page and [TranscriptPage.filtered]. *)
Lemma store_filtered_agree matcher (d : TranscriptData) pl ds fl query fs fe :
  Forall2 (fun p f => speaker p = f_speaker f /\ text p = f_text f)
          (paragraphs d) fl ->
  length pl = length fl -> length ds = length fl ->
  map snd (expectedRows matcher None pl ds fl query fs fe) =
  map TranscriptPage.idx (TranscriptPage.filtered matcher (Some d) query fs fe).
Proof.
  intros Hps Hpl Hds.
  rewrite (expectedRows_agree TranscriptPage.Build_Row TranscriptPage.para
             TranscriptPage.idx (fun _ _ => eq_refl) (fun _ _ => eq_refl)
             matcher None d pl ds fl query fs fe Hps Hpl Hds).
  unfold TranscriptPage.filtered. rewrite TranscriptPage_filters.
  unfold TranscriptPage.matches, capped. simpl. by destruct (truthy (trim query)).
Qed.

End PagesAgree.

(** * Further properties of the code *)

(** ** Rows and paragraphs *)

Section RowFacts.
Variable matcher : Fuse.Matcher.

Lemma indexDocs_paragraph ps i d :
  indexDocs ps !! i = Some d -> ps !! doc_index d = Some (doc_paragraph d).
Proof.
  unfold indexDocs. rewrite list_lookup_imap.
  destruct (ps !! i) as [p|] eqn:E; simpl; [|done].
  by intros [= <-].
Qed.

Lemma hit_paragraph ps h r :
  Fuse.hit (indexDocs ps) h = Some r ->
  ps !! doc_index (Fuse.item r) = Some (doc_paragraph (Fuse.item r)).
Proof.
  unfold Fuse.hit. destruct (indexDocs ps !! h.1) as [d|] eqn:E; simpl; [|done].
  intros [= <-]. simpl. by apply (indexDocs_paragraph ps h.1).
Qed.

Lemma SearchPage_matches_paragraph d query m :
  In m (SearchPage.matches matcher d query) ->
  paragraphs d !! SearchPage.index m = Some (SearchPage.paragraph m).
Proof.
  unfold SearchPage.matches, SearchPage.fuse.
  destruct (truthy (trim query)); simpl.
  - intros H. apply in_map_iff in H as (r & <- & Hr). simpl.
    unfold Fuse.search in Hr. simpl in Hr.
    apply list_elem_of_In, list_elem_of_omap in Hr as (h & _ & Hh).
    by apply (hit_paragraph _ h).
  - intros H. apply list_elem_of_In, elem_of_lookup_imap in H as (i & p & -> & Hp).
    done.
Qed.

Lemma TranscriptPage_matches_paragraph d query r :
  In r (TranscriptPage.matches matcher d query) ->
  paragraphs d !! TranscriptPage.idx r = Some (TranscriptPage.para r).
Proof.
  unfold TranscriptPage.matches, TranscriptPage.fuse.
  destruct (truthy (trim query)); simpl.
  - intros H. apply in_map_iff in H as (x & <- & Hr). simpl.
    unfold Fuse.search in Hr. simpl in Hr.
    apply list_elem_of_In, list_elem_of_omap in Hr as (h & _ & Hh).
    by apply (hit_paragraph _ h).
  - intros H. apply list_elem_of_In, elem_of_lookup_imap in H as (i & p & -> & Hp).
    done.
Qed.

Lemma In_take {A} n (l : list A) x : In x (take n l) -> In x l.
Proof.
  revert n; induction l as [|y l IH]; intros [|n]; simpl; try tauto.
  intros [?|?]; [by left | right; eauto].
Qed.

Lemma SearchPage_results_in d query fs fe m :
  In m (SearchPage.results matcher (Some d) query fs fe) ->
  In m (SearchPage.matches matcher d query) /\
  keeps fs fe (SearchPage.paragraph m) = true.
Proof.
  unfold SearchPage.results. rewrite SearchPage_filters.
  intros H. apply In_take in H. by apply filter_In in H.
Qed.

Lemma TranscriptPage_filtered_in d query fs fe r :
  In r (TranscriptPage.filtered matcher (Some d) query fs fe) <->
  In r (TranscriptPage.matches matcher d query) /\
  keeps fs fe (TranscriptPage.para r) = true.
Proof.
  unfold TranscriptPage.filtered. rewrite TranscriptPage_filters.
  apply filter_In.
Qed.

End RowFacts.

Section RowClaims.

(** X1.  The number of a row is the number of its paragraph: on both
    pages, for every query, filter setting and matcher, each row that is
    listed shows the paragraph that stands at the row's index in the
    transcript (so the label and the jump to the audio belong to the text
    that is shown). *)
Theorem rows_show_their_paragraph
    (matcher : Fuse.Matcher) (d : TranscriptData) (query : str)
    (filterSpeaker : option Z) (filterEntity : str) :
  (forall m, In m (SearchPage.results matcher (Some d) query filterSpeaker filterEntity) ->
     paragraphs d !! SearchPage.index m = Some (SearchPage.paragraph m)) /\
  (forall r, In r (TranscriptPage.filtered matcher (Some d) query filterSpeaker filterEntity) ->
     paragraphs d !! TranscriptPage.idx r = Some (TranscriptPage.para r)).
Proof.
  split.
  - intros m H. apply SearchPage_results_in in H as [H _].
    by apply (SearchPage_matches_paragraph matcher d query).
  - intros r H. apply TranscriptPage_filtered_in in H as [H _].
    by apply (TranscriptPage_matches_paragraph matcher d query).
Qed.

End RowClaims.

Section ListFacts2.
Context {A B : Type}.

Lemma take_prefix_le (l : list A) n m : n <= m -> take n l `prefix_of` take m l.
Proof.
  intros H. replace (take n l) with (take n (take m l)); [apply prefix_take|].
  rewrite take_take. f_equal. lia.
Qed.

Lemma filter_take_prefix (f : A -> bool) (l : list A) : forall n,
  List.filter f (take n l) `prefix_of` take n (List.filter f l).
Proof.
  induction l as [|x l IH]; intros n.
  - rewrite take_nil. simpl. by rewrite take_nil.
  - destruct n as [|n]; simpl; [apply prefix_nil|].
    destruct (f x); simpl.
    + by apply prefix_cons.
    + etrans; [apply IH|]. apply take_prefix_le. lia.
Qed.

Lemma filter_comm (f g : A -> bool) (l : list A) :
  List.filter f (List.filter g l) = List.filter g (List.filter f l).
Proof.
  rewrite !filter_both. apply filter_ext. intros x. apply andb_comm.
Qed.

Lemma filter_idem (f : A -> bool) (l : list A) :
  List.filter f (List.filter f l) = List.filter f l.
Proof.
  rewrite filter_both. apply filter_ext. intros x. by destruct (f x).
Qed.

Lemma StronglySorted_lookup (R : A -> A -> Prop) (l : list A) :
  StronglySorted R l ->
  forall i j x y, i < j -> l !! i = Some x -> l !! j = Some y -> R x y.
Proof.
  induction 1 as [|a l Hs IH Hall]; intros i j x y Hij Hi Hj; [done|].
  destruct j as [|j]; [lia|]. simpl in Hj.
  destruct i as [|i]; simpl in Hi.
  - injection Hi as <-. rewrite List.Forall_forall in Hall. apply Hall.
    apply list_elem_of_In, list_elem_of_lookup. eauto.
  - apply (IH i j); [lia | done | done].
Qed.

Lemma StronglySorted_impl (R R' : A -> A -> Prop) (l : list A) :
  (forall a b, R a b -> R' a b) -> StronglySorted R l -> StronglySorted R' l.
Proof.
  intros H. induction 1 as [|a l Hs IH Hall]; constructor; [done|].
  eapply List.Forall_impl; [|exact Hall]. intros b. apply H.
Qed.

End ListFacts2.

Section PagesAgreeFacts.
Variable matcher : Fuse.Matcher.

Lemma pages_matches_agree d query :
  map (fun m => (SearchPage.paragraph m, SearchPage.index m))
      (SearchPage.matches matcher d query)
  = map (fun r => (TranscriptPage.para r, TranscriptPage.idx r))
        (TranscriptPage.matches matcher d query).
Proof.
  unfold SearchPage.matches, TranscriptPage.matches, SearchPage.fuse,
    TranscriptPage.fuse.
  destruct (truthy (trim query)); simpl.
  - by rewrite !map_map.
  - change (@map) with (@fmap list _). by rewrite !fmap_imap.
Qed.

Lemma TranscriptPage_bySpeaker_byEntity fs fe (rs : list TranscriptPage.Row) :
  TranscriptPage.bySpeaker fs (TranscriptPage.byEntity fe rs)
  = TranscriptPage.byEntity fe (TranscriptPage.bySpeaker fs rs).
Proof.
  unfold TranscriptPage.bySpeaker, TranscriptPage.byEntity.
  destruct fs, (truthy fe); try done. apply filter_comm.
Qed.

End PagesAgreeFacts.

Section CompositionClaims.

(** X2.  For the same transcript, query and filters, the search page lists
    the first 100 of the rows the transcript page lists: the same paragraphs
    with the same numbers, in the same order. *)
Theorem search_page_is_the_head_of_the_transcript_page
    (matcher : Fuse.Matcher) (data : option TranscriptData) (query : str)
    (filterSpeaker : option Z) (filterEntity : str) :
  map (fun m => (SearchPage.paragraph m, SearchPage.index m))
      (SearchPage.results matcher data query filterSpeaker filterEntity)
  = take 100
      (map (fun r => (TranscriptPage.para r, TranscriptPage.idx r))
         (TranscriptPage.filtered matcher data query filterSpeaker filterEntity)).
Proof.
  destruct data as [d|]; [|done].
  unfold SearchPage.results, TranscriptPage.filtered.
  rewrite SearchPage_filters, TranscriptPage_filters.
  change (@map) with (@fmap list _). rewrite fmap_take.
  change (@fmap list _) with (@map). f_equal.
  pose proof (filter_map_comm
    (fun m => (SearchPage.paragraph m, SearchPage.index m))
    (fun pi => keeps filterSpeaker filterEntity pi.1)
    (SearchPage.matches matcher d query)) as Hs.
  pose proof (filter_map_comm
    (fun r => (TranscriptPage.para r, TranscriptPage.idx r))
    (fun pi => keeps filterSpeaker filterEntity pi.1)
    (TranscriptPage.matches matcher d query)) as Ht.
  simpl in Hs, Ht. rewrite <- Hs, <- Ht. by rewrite pages_matches_agree.
Qed.

(** X3.  On the transcript page the filters compose: the list for a speaker
    and an entity together is the list for the entity alone narrowed to the
    speaker, and the list for the speaker alone narrowed to the entity;
    the two filters commute, and applying a filter a second time changes
    nothing. *)
Theorem transcript_filters_compose
    (matcher : Fuse.Matcher) (data : option TranscriptData) (query : str)
    (filterSpeaker : option Z) (filterEntity : str) :
  let both := TranscriptPage.filtered matcher data query filterSpeaker filterEntity in
  both = TranscriptPage.bySpeaker filterSpeaker
           (TranscriptPage.filtered matcher data query None filterEntity) /\
  both = TranscriptPage.byEntity filterEntity
           (TranscriptPage.filtered matcher data query filterSpeaker []) /\
  TranscriptPage.bySpeaker filterSpeaker both = both /\
  TranscriptPage.byEntity filterEntity both = both.
Proof.
  destruct data as [d|]; simpl.
  - split; [by rewrite TranscriptPage_bySpeaker_byEntity|].
    split; [done|].
    split.
    + rewrite TranscriptPage_bySpeaker_byEntity. f_equal.
      unfold TranscriptPage.bySpeaker. destruct filterSpeaker; [|done].
      apply filter_idem.
    + unfold TranscriptPage.byEntity. destruct (truthy filterEntity); [|done].
      apply filter_idem.
  - unfold TranscriptPage.bySpeaker, TranscriptPage.byEntity.
    destruct filterSpeaker, (truthy filterEntity); done.
Qed.

(** X4.  On the search page, a row that is listed without filters and
    passes the filters stays listed once the filters are set: the rows of
    the unfiltered list that pass are, in order, the first rows of the
    filtered list.  The filtered list can hold more: the cap of 100 is
    applied after the filters, so a filter can bring up a paragraph that the
    unfiltered list left out, as the speaker filter does for the last
    paragraph of a transcript of 100 paragraphs of speaker 0 and one of
    speaker 1. *)
Theorem search_filters_keep_the_visible_rows :
  (forall (matcher : Fuse.Matcher) (data : option TranscriptData) (query : str)
          (filterSpeaker : option Z) (filterEntity : str),
     List.filter (fun m => keeps filterSpeaker filterEntity (SearchPage.paragraph m))
       (SearchPage.results matcher data query None [])
     `prefix_of` SearchPage.results matcher data query filterSpeaker filterEntity) /\
  (List.filter (fun m => keeps (Some 1%Z) [] (SearchPage.paragraph m))
     (SearchPage.results sampleMatcher (Some queue) [] None []) = [] /\
   map SearchPage.index
     (SearchPage.results sampleMatcher (Some queue) [] (Some 1%Z) []) = [100]).
Proof.
  split; [|split; vm_compute; reflexivity].
  intros matcher data query filterSpeaker filterEntity.
  destruct data as [d|]; [|done].
  unfold SearchPage.results.
  change (SearchPage.byEntity [] (SearchPage.bySpeaker None
            (SearchPage.matches matcher d query)))
    with (SearchPage.matches matcher d query).
  rewrite SearchPage_filters. apply filter_take_prefix.
Qed.

End CompositionClaims.

Section KeyFacts.
Variable matcher : Fuse.Matcher.

Lemma SearchPage_matches_NoDup d query :
  (truthy (trim query) = true -> NoDup (map fst (pageHits matcher d query))) ->
  NoDup (map SearchPage.index (SearchPage.matches matcher d query)).
Proof.
  intros H. destruct (truthy (trim query)) eqn:Hq.
  - rewrite (SearchPage_matches_query matcher d query Hq).
    rewrite (rows_of_hits_indices
               (fun r => SearchPage.Build_SearchResult
                           (doc_paragraph (Fuse.item r)) (doc_index (Fuse.item r)))
               SearchPage.index (fun _ => eq_refl)).
    eapply sublist_NoDup; [exact (H eq_refl)|].
    apply sublist_map, sublist_List_filter.
  - apply truthy_false in Hq.
    rewrite (SearchPage_matches_blank matcher d query Hq).
    rewrite (map_imap_index _ _ _ 0) by done. apply NoDup_seq.
Qed.

Lemma TranscriptPage_matches_NoDup d query :
  (truthy (trim query) = true -> NoDup (map fst (pageHits matcher d query))) ->
  NoDup (map TranscriptPage.idx (TranscriptPage.matches matcher d query)).
Proof.
  intros H. destruct (truthy (trim query)) eqn:Hq.
  - rewrite (TranscriptPage_matches_query matcher d query Hq).
    rewrite (rows_of_hits_indices
               (fun r => TranscriptPage.Build_Row
                           (doc_paragraph (Fuse.item r)) (doc_index (Fuse.item r)))
               TranscriptPage.idx (fun _ => eq_refl)).
    eapply sublist_NoDup; [exact (H eq_refl)|].
    apply sublist_map, sublist_List_filter.
  - apply truthy_false in Hq.
    rewrite (TranscriptPage_matches_blank matcher d query Hq).
    rewrite (map_imap_index _ _ _ 0) by done. apply NoDup_seq.
Qed.

End KeyFacts.

Section KeyClaims.

(** X5.  The React keys of the rows ([key={r.index}], [key={r.idx}]) are
    pairwise distinct: no paragraph is listed twice.  With a blank query this
    holds outright; with a query it holds when the library reports no record
    twice. *)
Theorem row_keys_are_distinct
    (matcher : Fuse.Matcher) (d : TranscriptData) (query : str)
    (filterSpeaker : option Z) (filterEntity : str) :
  (truthy (trim query) = true -> NoDup (map fst (pageHits matcher d query))) ->
  NoDup (map SearchPage.index
           (SearchPage.results matcher (Some d) query filterSpeaker filterEntity)) /\
  NoDup (map TranscriptPage.idx
           (TranscriptPage.filtered matcher (Some d) query filterSpeaker filterEntity)).
Proof.
  intros H. split.
  - unfold SearchPage.results. rewrite SearchPage_filters.
    eapply sublist_NoDup; [exact (SearchPage_matches_NoDup matcher d query H)|].
    apply sublist_map. etrans; [apply sublist_take | apply sublist_List_filter].
  - unfold TranscriptPage.filtered. rewrite TranscriptPage_filters.
    eapply sublist_NoDup; [exact (TranscriptPage_matches_NoDup matcher d query H)|].
    apply sublist_map, sublist_List_filter.
Qed.

Lemma row_keys_are_distinct_witness :
  (truthy (trim (lit "E")) = true ->
   NoDup (map fst (pageHits sampleMatcher trio (lit "E")))) /\
  NoDup (map SearchPage.index
           (SearchPage.results sampleMatcher (Some trio) (lit "E") None [])) /\
  NoDup (map TranscriptPage.idx
           (TranscriptPage.filtered sampleMatcher (Some trio) (lit "E") None [])).
Proof.
  assert (truthy (trim (lit "E")) = true ->
          NoDup (map fst (pageHits sampleMatcher trio (lit "E")))) as H.
  { intros _. apply (bool_decide_unpack _). vm_compute. reflexivity. }
  split; [exact H|].
  apply (row_keys_are_distinct sampleMatcher trio (lit "E") None []). exact H.
Defined.

End KeyClaims.

Section PlayingFacts.

Lemma isActive_spec pl t r :
  TranscriptContent.isActive pl t r = true <->
  pl = true /\ (start (TranscriptPage.para r) <= t)%Q /\
  (t < end_ (TranscriptPage.para r))%Q.
Proof.
  unfold TranscriptContent.isActive.
  rewrite !andb_true_iff, negb_true_iff, Qle_bool_iff.
  split.
  - intros [[-> ?] Hn]. split; [done|]. split; [done|].
    apply Qnot_le_lt. intros Hle. apply Qle_bool_iff in Hle. congruence.
  - intros (-> & ? & Hlt). split; [done|].
    destruct (Qle_bool (end_ (TranscriptPage.para r)) t) eqn:E; [|done].
    apply Qle_bool_iff in E. exfalso. by apply (Qlt_not_le _ _ Hlt).
Qed.

Lemma isSearching_false query fs fe :
  TranscriptContent.isSearching query fs fe = false <->
  trim query = [] /\ fs = None /\ fe = [].
Proof.
  unfold TranscriptContent.isSearching. rewrite !orb_false_iff. split.
  - intros [[Hq Hs] He]. apply Nat.ltb_ge in Hq.
    split; [destruct (trim query); [done | simpl in Hq; lia]|].
    split; [by destruct fs | by destruct fe].
  - intros (-> & -> & ->). done.
Qed.

End PlayingFacts.

Section PlayingClaims.

(** X6.  At most one row of the transcript page is the active one: when
    the paragraphs follow one another in time (each ends before or when the
    next one starts), then for any query, filters and playback time, two
    listed rows that are both active are the same row. *)
Theorem at_most_one_row_is_active
    (matcher : Fuse.Matcher) (d : TranscriptData) (query : str)
    (filterSpeaker : option Z) (filterEntity : str)
    (isPlaying : bool) (currentTime : Q) (r1 r2 : TranscriptPage.Row) :
  StronglySorted (fun p q => (end_ p <= start q)%Q) (paragraphs d) ->
  In r1 (TranscriptPage.filtered matcher (Some d) query filterSpeaker filterEntity) ->
  In r2 (TranscriptPage.filtered matcher (Some d) query filterSpeaker filterEntity) ->
  TranscriptContent.isActive isPlaying currentTime r1 = true ->
  TranscriptContent.isActive isPlaying currentTime r2 = true ->
  r1 = r2.
Proof.
  intros Hs H1 H2 A1 A2.
  apply TranscriptPage_filtered_in in H1 as [H1 _].
  apply TranscriptPage_filtered_in in H2 as [H2 _].
  apply TranscriptPage_matches_paragraph in H1, H2.
  apply isActive_spec in A1 as (_ & S1 & E1), A2 as (_ & S2 & E2).
  assert (forall a b : TranscriptPage.Row,
            paragraphs d !! TranscriptPage.idx a = Some (TranscriptPage.para a) ->
            paragraphs d !! TranscriptPage.idx b = Some (TranscriptPage.para b) ->
            (start (TranscriptPage.para b) <= currentTime)%Q ->
            (currentTime < end_ (TranscriptPage.para a))%Q ->
            ~ TranscriptPage.idx a < TranscriptPage.idx b) as Hno.
  { intros a b Ha Hb Sb Ea Hlt.
    pose proof (StronglySorted_lookup _ _ Hs _ _ _ _ Hlt Ha Hb) as Hle.
    apply (Qlt_not_le _ _ Ea). by apply (Qle_trans _ _ _ Hle). }
  assert (TranscriptPage.idx r1 = TranscriptPage.idx r2) as Hi.
  { pose proof (Hno r1 r2 H1 H2 S2 E1). pose proof (Hno r2 r1 H2 H1 S1 E2). lia. }
  destruct r1 as [p1 i1], r2 as [p2 i2]. simpl in *. subst i2. congruence.
Qed.

Lemma at_most_one_row_is_active_witness :
  StronglySorted (fun p q => (end_ p <= start q)%Q) (paragraphs timed) /\
  In (TranscriptPage.Build_Row (spoken (Some 1%Z) 5 (19 # 2) "Ehud was there") 1)
     (TranscriptPage.filtered sampleMatcher (Some timed) [] None []) /\
  TranscriptContent.isActive true 7
    (TranscriptPage.Build_Row (spoken (Some 1%Z) 5 (19 # 2) "Ehud was there") 1) = true /\
  TranscriptPage.Build_Row (spoken (Some 1%Z) 5 (19 # 2) "Ehud was there") 1
  = TranscriptPage.Build_Row (spoken (Some 1%Z) 5 (19 # 2) "Ehud was there") 1.
Proof.
  assert (StronglySorted (fun p q => (end_ p <= start q)%Q) (paragraphs timed)) as Hs.
  { repeat constructor; simpl; unfold Qle; simpl; lia. }
  assert (In (TranscriptPage.Build_Row (spoken (Some 1%Z) 5 (19 # 2) "Ehud was there") 1)
             (TranscriptPage.filtered sampleMatcher (Some timed) [] None [])) as Hin.
  { simpl. right. left. reflexivity. }
  split; [exact Hs|]. split; [exact Hin|]. split; [reflexivity|].
  apply (at_most_one_row_is_active sampleMatcher timed [] None [] true 7 _ _
           Hs Hin Hin); reflexivity.
Defined.

(** X7.  While the transcript page is not searching (the condition under
    which it scrolls to the active paragraph), the list is the whole
    transcript, so the paragraph that is being played is always a row of the
    list, under its own number, and that row is the active one. *)
Theorem playing_paragraph_is_listed
    (matcher : Fuse.Matcher) (d : TranscriptData) (query : str)
    (filterSpeaker : option Z) (filterEntity : str)
    (currentTime : Q) (i : nat) (p : Paragraph) :
  TranscriptContent.isSearching query filterSpeaker filterEntity = false ->
  paragraphs d !! i = Some p ->
  (start p <= currentTime)%Q ->
  (currentTime < end_ p)%Q ->
  In (TranscriptPage.Build_Row p i)
     (TranscriptPage.filtered matcher (Some d) query filterSpeaker filterEntity) /\
  TranscriptContent.isActive true currentTime (TranscriptPage.Build_Row p i) = true.
Proof.
  intros Hq Hp Hs He. apply isSearching_false in Hq as (Hq & -> & ->).
  split.
  - rewrite (TranscriptPage_filtered_blank matcher d query Hq).
    apply list_elem_of_In.
    apply (elem_of_lookup_imap_2 (fun i p => TranscriptPage.Build_Row p i) _ _ _ Hp).
  - apply isActive_spec. simpl. done.
Qed.

Lemma playing_paragraph_is_listed_witness :
  TranscriptContent.isSearching (lit "  ") None [] = false /\
  paragraphs timed !! 1 = Some (spoken (Some 1%Z) 5 (19 # 2) "Ehud was there") /\
  In (TranscriptPage.Build_Row (spoken (Some 1%Z) 5 (19 # 2) "Ehud was there") 1)
     (TranscriptPage.filtered sampleMatcher (Some timed) (lit "  ") None []) /\
  TranscriptContent.isActive true 7
    (TranscriptPage.Build_Row (spoken (Some 1%Z) 5 (19 # 2) "Ehud was there") 1) = true.
Proof.
  split; [reflexivity|]. split; [reflexivity|].
  apply (playing_paragraph_is_listed sampleMatcher timed (lit "  ") None [] 7 1);
    [reflexivity | reflexivity | unfold Qle; simpl; lia | unfold Qlt; simpl; lia].
Defined.

End PlayingClaims.

Section CaptionClaims.

(** X8.  The search page announces a cut whenever there is one: the note
    " (showing first 100)" is rendered exactly when at least 100 entries pass
    the filters, so always when entries are left out (and also when exactly
    100 pass and none is); the number shown before it is the number of rows
    listed, the smaller of 100 and the number of entries that pass. *)
Theorem cap_note_is_shown_when_results_are_cut
    (matcher : Fuse.Matcher) (d : TranscriptData) (query : str)
    (filterSpeaker : option Z) (filterEntity : str) :
  let passing := SearchPage.byEntity filterEntity
                   (SearchPage.bySpeaker filterSpeaker
                      (SearchPage.matches matcher d query)) in
  let results := SearchPage.results matcher (Some d) query filterSpeaker filterEntity in
  (SearchView.caption results !! 3 = Some (Str (lit " (showing first 100)"))
     <-> 100 <= length passing) /\
  (SearchView.caption results !! 3 = Some (Str []) <-> length passing < 100) /\
  SearchView.caption results !! 0 = Some (Num (min 100 (length passing))).
Proof.
  intros passing results.
  assert (length results = min 100 (length passing)) as Hlen.
  { unfold results, SearchPage.results. fold passing. apply length_take. }
  unfold SearchView.caption. rewrite Hlen.
  assert (min 100 (length passing) = 100 <-> 100 <= length passing) as Hcut by lia.
  clear Hlen. clearbody results.
  generalize dependent (min 100 (length passing)). intros n Hcut. simpl.
  destruct (n =? 100) eqn:E.
  - apply Nat.eqb_eq in E.
    split; [split; [lia | done]|].
    split; [split; [discriminate | lia]|]. done.
  - apply Nat.eqb_neq in E.
    split; [split; [discriminate | lia]|].
    split; [split; [lia | done]|]. done.
Qed.

End CaptionClaims.

(** ** Maps and sorting *)

Section MapFacts.
Context {V : Type}.
Implicit Types (m : list (str * V)) (k : str) (v : V).

Lemma set_elem m k v k' v' :
  NoDup (map fst m) ->
  ((k', v') ∈ JSMap.set m k v <-> (k' = k /\ v' = v) \/ (k' <> k /\ (k', v') ∈ m)).
Proof.
  induction m as [|[k0 v0] m IH]; simpl; intros Hnd.
  - rewrite list_elem_of_singleton. split.
    + intros [= -> ->]. by left.
    + intros [[-> ->]|[_ H]]; [done | by apply not_elem_of_nil in H].
  - apply NoDup_cons in Hnd as [Hk0 Hnd]. specialize (IH Hnd).
    destruct (bool_decide (k0 = k)) eqn:E.
    + apply bool_decide_eq_true in E. subst k0.
      rewrite !elem_of_cons. split.
      * intros [[= -> ->]|H]; [by left|].
        right. split; [|by right]. intros ->. apply Hk0.
        apply list_elem_of_fmap. by exists (k, v').
      * intros [[-> ->]|[Hne [[= -> ->]|H]]]; [by left | done | by right].
    + apply bool_decide_eq_false in E.
      rewrite !elem_of_cons, IH. split.
      * intros [[= -> ->]|[[-> ->]|[Hne H]]]; [right; split; [done|by left] | by left |].
        right. split; [done | by right].
      * intros [[-> ->]|[Hne [[= -> ->]|H]]]; [right; by left | by left |].
        right. right. by split.
Qed.

Lemma set_keys m k v :
  map fst (JSMap.set m k v)
  = if bool_decide (k ∈ map fst m) then map fst m else map fst m ++ [k].
Proof.
  induction m as [|[k0 v0] m IH]; simpl; [done|].
  destruct (bool_decide (k0 = k)) eqn:E; simpl.
  - apply bool_decide_eq_true in E. subst k0.
    rewrite bool_decide_eq_true_2; [done | by left].
  - apply bool_decide_eq_false in E. rewrite IH.
    destruct (bool_decide (k ∈ map fst m)) eqn:E'.
    + apply bool_decide_eq_true in E'.
      rewrite bool_decide_eq_true_2; [done | by right].
    + apply bool_decide_eq_false in E'.
      rewrite bool_decide_eq_false_2; [done|].
      intros [?|?]%elem_of_cons; [by apply E | by apply E'].
Qed.

Lemma set_NoDup m k v : NoDup (map fst m) -> NoDup (map fst (JSMap.set m k v)).
Proof.
  intros H. rewrite set_keys.
  destruct (bool_decide (k ∈ map fst m)) eqn:E; [done|].
  apply bool_decide_eq_false in E.
  apply NoDup_app. split; [done|]. split; [|apply NoDup_singleton].
  intros x Hx ->%list_elem_of_singleton. by apply E.
Qed.

Lemma fold_set_NoDup (entries : list (str * V)) : forall m,
  NoDup (map fst m) ->
  NoDup (map fst (fold_left (fun m kv => JSMap.set m kv.1 kv.2) entries m)).
Proof.
  induction entries as [|e entries IH]; intros m H; simpl; [done|].
  by apply IH, set_NoDup.
Qed.

(** What a map built from entries holds: for each key, the value of the
    last entry with that key. *)
Lemma fold_set_elem (entries : list (str * V)) : forall m k v,
  NoDup (map fst m) ->
  ((k, v) ∈ fold_left (fun m kv => JSMap.set m kv.1 kv.2) entries m <->
   (exists pre post, entries = pre ++ (k, v) :: post /\ k ∉ map fst post) \/
   ((k, v) ∈ m /\ k ∉ map fst entries)).
Proof.
  induction entries as [|[k0 v0] entries IH]; intros m k v Hnd; simpl.
  - split.
    + intros H. right. split; [done | apply not_elem_of_nil].
    + intros [(pre & post & E & _)|[H _]]; [by destruct pre | done].
  - rewrite (IH _ k v (set_NoDup m k0 v0 Hnd)), (set_elem m k0 v0 k v Hnd).
    split.
    + intros [(pre & post & -> & Hpost)|[[[-> ->]|[Hne Hin]] Hk]].
      * left. by exists ((k0, v0) :: pre), post.
      * left. by exists [], entries.
      * right. split; [done|]. intros [?|?]%elem_of_cons; [by apply Hne | by apply Hk].
    + intros [(pre & post & E & Hpost)|[Hin Hk]].
      * destruct pre as [|e pre]; simpl in E.
        -- injection E as -> -> ->. right. split; [by left | done].
        -- injection E as <- ->. left. by exists pre, post.
      * right. apply not_elem_of_cons in Hk as [Hne Hk]. split; [|done].
        right. by split.
Qed.

Lemma create_NoDup (entries : list (str * V)) :
  NoDup (map fst (JSMap.create entries)).
Proof. apply fold_set_NoDup. constructor. Qed.

Lemma create_elem (entries : list (str * V)) k v :
  (k, v) ∈ JSMap.create entries <->
  exists pre post, entries = pre ++ (k, v) :: post /\ k ∉ map fst post.
Proof.
  unfold JSMap.create. rewrite fold_set_elem by constructor. split.
  - intros [H|[H _]]; [done | by apply not_elem_of_nil in H].
  - by left.
Qed.

Lemma create_keys (entries : list (str * V)) k :
  k ∈ map fst (JSMap.create entries) <-> k ∈ map fst entries.
Proof.
  split.
  - intros ([k' v] & -> & (pre & post & -> & _)%create_elem)%list_elem_of_fmap.
    rewrite map_app. simpl. apply elem_of_app. right. by left.
  - intros H. induction entries as [|[k0 v0] entries IH] using rev_ind.
    + by apply not_elem_of_nil in H.
    + rewrite map_app in H. simpl in H.
      destruct (decide (k = k0)) as [->|Hne].
      * apply list_elem_of_fmap. exists (k0, v0). split; [done|].
        apply create_elem. exists entries, []. split; [done | apply not_elem_of_nil].
      * apply elem_of_app in H as [H|H%list_elem_of_singleton]; [|done].
        apply IH in H.
        apply list_elem_of_fmap in H as ([k' v] & -> & (pre & post & -> & Hpost)%create_elem).
        apply list_elem_of_fmap. exists (k', v). split; [done|].
        apply create_elem. exists pre, (post ++ [(k0, v0)]).
        split; [by rewrite <- app_assoc|].
        rewrite map_app. simpl. intros [?|?%list_elem_of_singleton]%elem_of_app; done.
Qed.

End MapFacts.

Section MapFacts2.
Context {A : Type}.

(** The values of a map keyed by a field of its values. *)
Lemma create_keyed (key : A -> str) (l : list A) :
  map key (JSMap.values (JSMap.create (map (fun x => (key x, x)) l)))
  = map fst (JSMap.create (map (fun x => (key x, x)) l)).
Proof.
  unfold JSMap.values. rewrite map_map.
  apply map_ext_in. intros [k x] Hin. simpl.
  apply list_elem_of_In, create_elem in Hin as (pre & post & E & _).
  assert ((k, x) ∈ map (fun x => (key x, x)) l) as Hx.
  { rewrite E. apply elem_of_app. right. by left. }
  apply list_elem_of_fmap in Hx as (y & [= -> ->] & _). done.
Qed.

Lemma create_values_NoDup (key : A -> str) (l : list A) :
  NoDup (map key (JSMap.values (JSMap.create (map (fun x => (key x, x)) l)))).
Proof. rewrite create_keyed. apply create_NoDup. Qed.

Lemma create_values_keys (key : A -> str) (l : list A) k :
  k ∈ map key (JSMap.values (JSMap.create (map (fun x => (key x, x)) l)))
  <-> k ∈ map key l.
Proof.
  rewrite create_keyed, create_keys, map_map. simpl. done.
Qed.

(** The value kept for a key is the last element of the list with it. *)
Lemma create_values_last (key : A -> str) (l : list A) x :
  x ∈ JSMap.values (JSMap.create (map (fun x => (key x, x)) l)) <->
  exists pre post, l = pre ++ x :: post /\ key x ∉ map key post.
Proof.
  unfold JSMap.values. split.
  - intros ([k y] & -> & Hin)%list_elem_of_fmap. simpl.
    apply create_elem in Hin as (pre & post & E & Hpost).
    apply map_eq_app in E as (pre' & rest & -> & <- & E).
    destruct rest as [|z post']; [done|]. simpl in E.
    injection E as <- <- <-. exists pre', post'. split; [done|].
    by rewrite map_map in Hpost.
  - intros (pre & post & -> & Hpost).
    apply list_elem_of_fmap. exists (key x, x). split; [done|].
    apply create_elem. exists (map (fun x => (key x, x)) pre),
                              (map (fun x => (key x, x)) post).
    split; [by rewrite map_app | by rewrite map_map].
Qed.

End MapFacts2.

Section SortFacts.
Context {A : Type}.
Variable cmp : A -> A -> Z.

Lemma insertBy_perm x (l : list A) : Store.insertBy cmp x l ≡ₚ x :: l.
Proof.
  induction l as [|y l IH]; simpl; [done|].
  destruct (cmp y x <=? 0)%Z; [|done].
  rewrite IH. apply Permutation_swap.
Qed.

Lemma fold_insertBy_perm (l : list A) : forall acc,
  fold_left (fun acc x => Store.insertBy cmp x acc) l acc ≡ₚ acc ++ l.
Proof.
  induction l as [|x l IH]; intros acc; simpl; [by rewrite app_nil_r|].
  rewrite IH, insertBy_perm. simpl. apply Permutation_middle.
Qed.

(** Sorting rearranges: nothing is lost, nothing is added. *)
Lemma sortBy_perm (l : list A) : Store.sortBy cmp l ≡ₚ l.
Proof. apply (fold_insertBy_perm l []). Qed.

Hypothesis total : forall a b, (cmp a b <= 0)%Z \/ (cmp b a <= 0)%Z.
Hypothesis trans : forall a b c,
  (cmp a b <= 0)%Z -> (cmp b c <= 0)%Z -> (cmp a c <= 0)%Z.

Lemma insertBy_sorted x (l : list A) :
  StronglySorted (fun a b => (cmp a b <= 0)%Z) l ->
  StronglySorted (fun a b => (cmp a b <= 0)%Z) (Store.insertBy cmp x l).
Proof.
  induction 1 as [|y l Hs IH Hall]; simpl.
  - repeat constructor.
  - destruct (cmp y x <=? 0)%Z eqn:E.
    + apply Z.leb_le in E. constructor; [done|].
      rewrite List.Forall_forall in *. intros z Hz.
      apply list_elem_of_In in Hz. rewrite insertBy_perm in Hz.
      apply elem_of_cons in Hz as [->|Hz]; [done|].
      by apply Hall, list_elem_of_In.
    + apply Z.leb_gt in E.
      assert (cmp x y <= 0)%Z as Hxy by (destruct (total x y); [done | lia]).
      constructor; [by constructor|].
      constructor; [done|].
      rewrite List.Forall_forall in *. intros z Hz. by eapply trans, Hall.
Qed.

Lemma fold_insertBy_sorted (l : list A) : forall acc,
  StronglySorted (fun a b => (cmp a b <= 0)%Z) acc ->
  StronglySorted (fun a b => (cmp a b <= 0)%Z)
    (fold_left (fun acc x => Store.insertBy cmp x acc) l acc).
Proof.
  induction l as [|x l IH]; intros acc H; simpl; [done|].
  by apply IH, insertBy_sorted.
Qed.

(** With a comparator that is a total preorder the result is in order. *)
Lemma sortBy_sorted (l : list A) :
  StronglySorted (fun a b => (cmp a b <= 0)%Z) (Store.sortBy cmp l).
Proof. apply fold_insertBy_sorted. constructor. Qed.

End SortFacts.

(** ** The entity menu *)

Section MenuClaims.

(** X9.  The entity menu of the search page and of the transcript page
    lists every entity value of the transcript once: no two options carry
    the same value, a value is in the menu exactly when some entity of the
    transcript has it, and the entity shown for a value (its label) is the
    last one of the transcript with that value.  This holds whatever the
    collation of the engine is. *)
Theorem entity_menu_lists_each_value_once
    (localeCompare : str -> str -> Z) (d : TranscriptData) :
  let menu := uniqueEntities localeCompare (Some d) in
  NoDup (map value menu) /\
  (forall v, v ∈ map value menu <-> v ∈ map value (entities d)) /\
  (forall e, e ∈ menu <->
     exists pre post, entities d = pre ++ e :: post /\ value e ∉ map value post).
Proof.
  intros menu.
  assert (menu ≡ₚ JSMap.values
            (JSMap.create (map (fun e => (value e, e)) (entities d)))) as Hp
    by apply sortBy_perm.
  split; [|split].
  - change (@map) with (@fmap list _). rewrite Hp. apply create_values_NoDup.
  - intros v. change (@map) with (@fmap list _). rewrite Hp.
    apply create_values_keys.
  - intros e. rewrite Hp. apply create_values_last.
Qed.

(** X10.  When the collation is a total preorder (any two strings compare,
    transitively), the options of the entity menu are in its order. *)
Theorem entity_menu_is_sorted
    (localeCompare : str -> str -> Z) (data : option TranscriptData) :
  (forall a b, (localeCompare a b <= 0)%Z \/ (localeCompare b a <= 0)%Z) ->
  (forall a b c, (localeCompare a b <= 0)%Z -> (localeCompare b c <= 0)%Z ->
                 (localeCompare a c <= 0)%Z) ->
  StronglySorted (fun a b => (localeCompare (value a) (value b) <= 0)%Z)
    (uniqueEntities localeCompare data).
Proof.
  intros total trans. destruct data as [d|]; simpl; [|constructor].
  apply (sortBy_sorted (fun a b => localeCompare (value a) (value b))).
  - intros a b. apply total.
  - intros a b c. apply trans.
Qed.

Lemma entity_menu_is_sorted_witness :
  (forall a b, (byLength a b <= 0)%Z \/ (byLength b a <= 0)%Z) /\
  (forall a b c, (byLength a b <= 0)%Z -> (byLength b c <= 0)%Z ->
                 (byLength a c <= 0)%Z) /\
  StronglySorted (fun a b => (byLength (value a) (value b) <= 0)%Z)
    (uniqueEntities byLength (Some cast)).
Proof.
  assert (forall a b, (byLength a b <= 0)%Z \/ (byLength b a <= 0)%Z) as total
    by (intros a b; unfold byLength; lia).
  assert (forall a b c, (byLength a b <= 0)%Z -> (byLength b c <= 0)%Z ->
                        (byLength a c <= 0)%Z) as trans
    by (intros a b c; unfold byLength; lia).
  split; [exact total|]. split; [exact trans|].
  apply (entity_menu_is_sorted byLength (Some cast) total trans).
Defined.

End MenuClaims.

(** ** The overview page *)

Section OverviewFacts.

Lemma sign_diff_le (a b : Q) : (Overview.sign (b - a) <= 0)%Z <-> (b <= a)%Q.
Proof.
  unfold Overview.sign. rewrite Z.sgn_nonpos.
  unfold Qle, Qminus, Qplus, Qopp. simpl. lia.
Qed.

Lemma sortBy_descending {A} (f : A -> Q) (l : list A) :
  StronglySorted (fun a b => (f b <= f a)%Q)
    (Store.sortBy (fun a b => Overview.sign (f b - f a)) l).
Proof.
  eapply StronglySorted_impl; [|apply sortBy_sorted].
  - intros a b H. apply sign_diff_le. exact H.
  - intros a b. rewrite !sign_diff_le. destruct (Qlt_le_dec (f a) (f b)) as [H|H].
    + right. by apply Qlt_le_weak.
    + by left.
  - intros a b c. rewrite !sign_diff_le. intros H1 H2. by apply (Qle_trans _ (f b)).
Qed.

Lemma take_drop_sorted {A} (R : A -> A -> Prop) (l : list A) n i j a b :
  StronglySorted R l ->
  take n l !! i = Some a -> l !! j = Some b -> n <= j -> R a b.
Proof.
  intros Hs Ha Hb Hj. apply lookup_take_Some in Ha as [Ha Hi].
  apply (StronglySorted_lookup R l Hs i j); [lia | done | done].
Qed.

Lemma splitAt_concat sep s : forall cur,
  concat (Overview.splitAt sep cur s)
  = rev cur ++ List.filter (fun c => negb (charEqb c sep)) s.
Proof.
  induction s as [|c s IH]; intros cur; simpl.
  - by rewrite app_nil_r.
  - destruct (charEqb c sep); simpl; rewrite IH; simpl; [done|].
    by rewrite <- app_assoc.
Qed.

Lemma splitAt_pieces sep s : forall cur,
  Forall (fun c => charEqb c sep = false) cur ->
  Forall (Forall (fun c => charEqb c sep = false)) (Overview.splitAt sep cur s).
Proof.
  induction s as [|c s IH]; intros cur Hcur; simpl.
  - constructor; [|constructor]. by apply Forall_rev.
  - destruct (charEqb c sep) eqn:E.
    + constructor; [by apply Forall_rev | by apply IH].
    + apply IH. by constructor.
Qed.

Lemma concat_filter_truthy (l : list str) : concat (List.filter truthy l) = concat l.
Proof.
  induction l as [|[|c s] l IH]; simpl; [done | done |]. by rewrite IH.
Qed.

Lemma sum_count_cons {A B} (f : A -> B -> bool) (roster : list A) (p : B) (ps : list B) :
  sum_list (map (fun s => length (List.filter (f s) (p :: ps))) roster)
  = sum_list (map (fun s => if f s p then 1 else 0) roster)
    + sum_list (map (fun s => length (List.filter (f s) ps)) roster).
Proof.
  induction roster as [|s roster IH]; simpl; [done|].
  simpl in IH. rewrite IH. destruct (f s p); simpl; lia.
Qed.

Lemma one_speaker sp (roster : list Z) :
  NoDup roster ->
  sum_list (map (fun s => if speakerIs sp s then 1 else 0) roster)
  = if existsb (speakerIs sp) roster then 1 else 0.
Proof.
  induction 1 as [|s roster Hs Hnd IH]; simpl; [done|].
  rewrite IH. destruct (speakerIs sp s) eqn:E; simpl; [|done].
  apply speakerIs_spec in E. subst sp.
  destruct (existsb (speakerIs (Some s)) roster) eqn:E'; [|done].
  apply existsb_exists in E' as (s' & Hin & E'). apply speakerIs_spec in E'.
  injection E' as <-. by apply list_elem_of_In in Hin.
Qed.

End OverviewFacts.

Section OverviewClaims.
Import Summary.

(** X11.  The overview page shows the most confident entities and topics:
    its lists are in descending order of confidence, so every one of the 30
    entities (20 topics) shown is at least as confident as every one left
    out; and no value (topic name) is listed twice. *)
Theorem overview_shows_the_most_confident (d : TranscriptData) :
  StronglySorted (fun a b => (confidence b <= confidence a)%Q)
    (Overview.uniqueEntities d) /\
  StronglySorted (fun a b => (topic_confidence b <= topic_confidence a)%Q)
    (Overview.uniqueTopics d) /\
  (forall i j a b,
     Overview.shownEntities d !! i = Some a ->
     Overview.uniqueEntities d !! j = Some b -> 30 <= j ->
     (confidence b <= confidence a)%Q) /\
  (forall i j a b,
     Overview.shownTopics d !! i = Some a ->
     Overview.uniqueTopics d !! j = Some b -> 20 <= j ->
     (topic_confidence b <= topic_confidence a)%Q) /\
  NoDup (map value (Overview.uniqueEntities d)) /\
  NoDup (map topic (Overview.uniqueTopics d)).
Proof.
  pose proof (sortBy_descending confidence
    (JSMap.values (JSMap.create (map (fun e => (value e, e)) (entities d))))) as He.
  pose proof (sortBy_descending topic_confidence
    (JSMap.values (JSMap.create (map (fun t => (topic t, t)) (topics d))))) as Ht.
  split; [exact He|]. split; [exact Ht|].
  split; [intros i j a b Ha Hb Hj; by apply (take_drop_sorted _ _ _ _ _ _ _ He Ha Hb)|].
  split; [intros i j a b Ha Hb Hj; by apply (take_drop_sorted _ _ _ _ _ _ _ Ht Ha Hb)|].
  unfold Overview.uniqueEntities, Overview.uniqueTopics.
  change (@map) with (@fmap list _). rewrite !sortBy_perm.
  change (@fmap list _) with (@map).
  split; apply create_values_NoDup.
Qed.

(** X12.  The paragraph counts of the Speakers section count no paragraph
    twice: when the speakers of the transcript are listed once each, the
    counts add up to the number of paragraphs whose speaker is listed (a
    paragraph without a speaker is in no count). *)
Theorem speaker_counts_add_up (d : TranscriptData) :
  NoDup (speakers d) ->
  sum_list (Overview.speakerCounts d)
  = length (List.filter (fun p => existsb (speakerIs (speaker p)) (speakers d))
              (paragraphs d)).
Proof.
  intros Hnd. unfold Overview.speakerCounts, Overview.speakerCount.
  induction (paragraphs d) as [|p ps IH].
  - simpl. clear Hnd. induction (speakers d); simpl; auto.
  - rewrite (sum_count_cons (fun s p => speakerIs (speaker p) s)).
    rewrite IH, (one_speaker _ _ Hnd). simpl.
    destruct (existsb (speakerIs (speaker p)) (speakers d)); simpl; lia.
Qed.

Lemma speaker_counts_add_up_witness :
  NoDup (speakers trio) /\
  sum_list (Overview.speakerCounts trio)
  = length (List.filter (fun p => existsb (speakerIs (speaker p)) (speakers trio))
              (paragraphs trio)).
Proof.
  assert (NoDup (speakers trio)) as H.
  { apply (bool_decide_unpack _). vm_compute. reflexivity. }
  split; [exact H|]. apply (speaker_counts_add_up trio H).
Defined.

(** X13.  The paragraphs of the executive summary are the overview text
    cut at its line breaks: none of them is empty, none contains a line
    break, and together, in order, they spell the overview without its line
    breaks. *)
Theorem overview_paragraphs_are_the_lines (s : DetailedSummary) :
  Forall (fun para => para <> [] /\ ~ In Overview.newline para)
    (Overview.overviewParagraphs s) /\
  concat (Overview.overviewParagraphs s)
  = List.filter (fun c => negb (charEqb c Overview.newline)) (overview s).
Proof.
  unfold Overview.overviewParagraphs, Overview.split. split.
  - apply List.Forall_forall. intros para Hin.
    apply filter_In in Hin as [Hin Hne]. split; [by apply truthy_true|].
    pose proof (splitAt_pieces Overview.newline (overview s) []
                  (List.Forall_nil _)) as H.
    rewrite List.Forall_forall in H. specialize (H _ Hin).
    rewrite List.Forall_forall in H. intros Hnl. specialize (H _ Hnl).
    by rewrite charEqb_refl in H.
  - by rewrite concat_filter_truthy, splitAt_concat.
Qed.

(** X14.  No key figure is out of reach: either every figure of the summary
    is visible, or the button under the list is rendered and one click on it
    makes every figure visible.  What is visible is always a prefix of the
    figures. *)
Theorem every_figure_can_be_shown (st : Overview.State) :
  let all := default [] (Overview.figures (Overview.summary st)) in
  (Overview.visibleFigures st = all \/
   (Overview.showsToggle st = true /\
    Overview.visibleFigures (Overview.toggle st) = all)) /\
  Overview.visibleFigures st `prefix_of` all.
Proof.
  intros all. unfold Overview.visibleFigures, Overview.showsToggle, Overview.toggle.
  fold all. simpl. destruct (Overview.showAllFigures st); simpl.
  - split; [by left | done].
  - split; [|apply prefix_take].
    destruct (12 <? length all) eqn:E.
    + by right.
    + left. apply Nat.ltb_ge in E. by apply take_ge.
Qed.

End OverviewClaims.

(** ** Loading the transcript and the summary *)

Section LoadingClaims.
Import TranscriptProvider.

(** X15.  The gate of the pages.  Before the request for the transcript
    settles every page shows its loading line; once it has settled no page
    does, whatever the outcome.  A page then shows its content exactly when
    [fetchTranscript] returned a transcript, and that transcript is the one
    it shows; otherwise it shows an error line whose text is never empty
    (the message of the error, or "No data" when that message is empty),
    and for a response that is not ok that text is
    "Failed to fetch transcript". *)
Theorem pages_show_the_transcript_or_an_error
    (API_BASE : str) (fetch : str -> Api.Settled TranscriptData) :
  let st := load API_BASE fetch initial in
  view initial = Loading /\
  loading st = false /\
  view st <> Loading /\
  (forall d, view st = Content d <-> Api.fetchTranscript API_BASE fetch = inr d) /\
  (forall d, overviewView st = Content d <-> Api.fetchTranscript API_BASE fetch = inr d) /\
  (forall shown, view st = Failure shown -> shown <> []) /\
  (forall res, fetch (API_BASE ++ lit "/api/transcript") = Api.Fulfilled res ->
               Api.ok res = false ->
               view st = Failure (lit "Failed to fetch transcript")).
Proof.
  intros st. split; [done|]. split; [done|].
  assert (forall noData,
            match Api.fetchTranscript API_BASE fetch with
            | inr d => gate noData st = Content d
            | inl message =>
                gate noData st = Failure (orElse (Some message) noData)
            end) as Hgate.
  { intros noData. unfold st, load, gate.
    destruct (Api.fetchTranscript API_BASE fetch) as [message|d]; simpl; [|done].
    by destruct message. }
  split; [|split; [|split; [|split]]].
  - pose proof (Hgate (lit "No data")) as H. unfold view.
    destruct (Api.fetchTranscript API_BASE fetch); by rewrite H.
  - intros d. pose proof (Hgate (lit "No data")) as H. unfold view.
    destruct (Api.fetchTranscript API_BASE fetch) as [message|d']; rewrite H.
    + split; discriminate.
    + split; intros [= ->]; done.
  - intros d. pose proof (Hgate (lit "No data available")) as H. unfold overviewView.
    destruct (Api.fetchTranscript API_BASE fetch) as [message|d']; rewrite H.
    + split; discriminate.
    + split; intros [= ->]; done.
  - intros shown. pose proof (Hgate (lit "No data")) as H. unfold view.
    destruct (Api.fetchTranscript API_BASE fetch) as [message|d']; rewrite H.
    + intros [= <-]. by destruct message.
    + discriminate.
  - intros res Hres Hok. pose proof (Hgate (lit "No data")) as H. unfold view.
    unfold Api.fetchTranscript in H. rewrite Hres, Hok in H. simpl in H.
    exact H.
Qed.

End LoadingClaims.

Section FallbackFacts.

Lemma overview_entities_count (d : TranscriptData) :
  length (Overview.uniqueEntities d) = length (remove_dups (map value (entities d))).
Proof.
  unfold Overview.uniqueEntities. rewrite sortBy_perm.
  rewrite <- (length_map value).
  apply Permutation_length, NoDup_Permutation.
  - apply create_values_NoDup.
  - apply NoDup_remove_dups.
  - intros v. rewrite create_values_keys. by rewrite elem_of_remove_dups.
Qed.

End FallbackFacts.

Section FallbackClaims.

(** X16.  A failed request for the summary is silent: the overview page
    shows no error for it and falls back on the transcript.  When
    [fetchSummary] throws, the summary stays absent and its loading ends;
    the headline is the fixed title; the section of key figures is not
    rendered; the "Key Figures" statistic is the number of distinct entity
    values of the transcript; and the entity section is rendered exactly when
    the transcript has an entity. *)
Theorem failed_summary_falls_back_on_the_transcript
    (API_BASE : str) (fetch : str -> Api.Settled Summary.DetailedSummary)
    (d : TranscriptData) (message : str) :
  Api.fetchSummary API_BASE fetch = inl message ->
  let st := Overview.load API_BASE fetch Overview.initial in
  Overview.summary st = None /\
  Overview.summaryLoading st = false /\
  Overview.shownHeadline st = lit "Epstein Transcript Explorer" /\
  Overview.showsFigures st = false /\
  Overview.visibleFigures st = [] /\
  Overview.keyFiguresStat st d = length (remove_dups (map value (entities d))) /\
  (Overview.showsEntities st d = true <-> entities d <> []).
Proof.
  intros Hfail st.
  assert (Overview.summary st = None) as Hs.
  { unfold st, Overview.load. simpl. by rewrite Hfail. }
  split; [done|]. split; [done|].
  unfold Overview.shownHeadline, Overview.showsFigures, Overview.visibleFigures,
    Overview.keyFiguresStat, Overview.showsEntities.
  rewrite Hs. simpl.
  split; [done|]. split; [done|]. split; [done|].
  split; [apply overview_entities_count|].
  rewrite andb_true_r, Nat.ltb_lt, overview_entities_count.
  destruct (entities d) as [|e es] eqn:E.
  - simpl. split; [lia | done].
  - split; [done|]. intros _.
    assert (value e ∈ remove_dups (map value (e :: es))) as Hin
      by (apply elem_of_remove_dups; by left).
    destruct (remove_dups (map value (e :: es)));
      [by apply not_elem_of_nil in Hin | simpl; lia].
Qed.

Lemma failed_summary_falls_back_on_the_transcript_witness :
  Api.fetchSummary [] noSummary = inl (lit "Failed to fetch summary") /\
  Overview.summary (Overview.load [] noSummary Overview.initial) = None /\
  Overview.summaryLoading (Overview.load [] noSummary Overview.initial) = false /\
  Overview.shownHeadline (Overview.load [] noSummary Overview.initial)
    = lit "Epstein Transcript Explorer" /\
  Overview.showsFigures (Overview.load [] noSummary Overview.initial) = false /\
  Overview.visibleFigures (Overview.load [] noSummary Overview.initial) = [] /\
  Overview.keyFiguresStat (Overview.load [] noSummary Overview.initial) cast
    = length (remove_dups (map value (entities cast))) /\
  (Overview.showsEntities (Overview.load [] noSummary Overview.initial) cast = true
     <-> entities cast <> []).
Proof.
  split; [reflexivity|].
  apply (failed_summary_falls_back_on_the_transcript [] noSummary cast
           (lit "Failed to fetch summary")).
  reflexivity.
Defined.

End FallbackClaims.

(** ** The ask page, event by event *)

Section AskPageFacts.
Import Ask AskPage.

Lemma paired_app : forall n log rest,
  length log <= n -> paired log = true -> paired (log ++ rest) = paired rest.
Proof.
  induction n as [|n IH]; intros [|q [|a log]] rest Hn Hp; simpl in *;
    try done; try lia.
  destruct (role q), (role a); try done. apply IH; [lia | done].
Qed.

Lemma paired_exchange log q a :
  paired log = true -> role a = assistant ->
  paired ((log ++ [userMessage q]) ++ [a]) = true.
Proof.
  intros Hp Ha. rewrite <- app_assoc. simpl.
  rewrite (paired_app (length log) log) by done. simpl. by rewrite Ha.
Qed.

Lemma reply_role API_BASE fetch q : role (reply API_BASE fetch q) = assistant.
Proof. unfold reply. by destruct (askQuestion API_BASE fetch q). Qed.

End AskPageFacts.

Section AskPageClaims.
Import Ask AskPage.

(** X17.  The conversation of the ask page is a sequence of exchanges.
    Whatever the user types and submits and whenever the replies arrive,
    starting from the empty page: when the page is not loading, no request
    is in flight and the log is made of pairs, a question of the user
    followed by one reply of the assistant; when it is loading, exactly one
    request is in flight, and the log is such pairs followed by the question
    that is being asked.  So no question is asked while another is in
    flight, and every question gets one reply. *)
Theorem ask_log_is_a_sequence_of_exchanges
    (API_BASE : str) (fetch : Request -> Settled) (events : list Event) :
  let p := run API_BASE fetch events initial in
  (isLoading (st p) = false /\ pending p = None /\
   paired (messages (st p)) = true) \/
  (isLoading (st p) = true /\
   exists question log,
     pending p = Some question /\
     messages (st p) = log ++ [userMessage question] /\
     paired log = true).
Proof.
  simpl. unfold run.
  assert (forall p,
    ((isLoading (st p) = false /\ pending p = None /\
      paired (messages (st p)) = true) \/
     (isLoading (st p) = true /\
      exists question log,
        pending p = Some question /\
        messages (st p) = log ++ [userMessage question] /\
        paired log = true)) ->
    (isLoading (st (fold_left (step API_BASE fetch) events p)) = false /\
     pending (fold_left (step API_BASE fetch) events p) = None /\
     paired (messages (st (fold_left (step API_BASE fetch) events p))) = true) \/
    (isLoading (st (fold_left (step API_BASE fetch) events p)) = true /\
     exists question log,
       pending (fold_left (step API_BASE fetch) events p) = Some question /\
       messages (st (fold_left (step API_BASE fetch) events p))
         = log ++ [userMessage question] /\
       paired log = true)) as H.
  { induction events as [|e events IH]; intros p Hp; simpl; [done|].
    apply IH. clear IH.
    destruct e; simpl.
    - destruct Hp as [(Hl & Hpe & Hlog)|(Hl & q & log & Hpe & Hm & Hlog)];
        rewrite Hl; simpl; [left; done | right; eauto 10].
    - destruct Hp as [(Hl & Hpe & Hlog)|(Hl & q & log & Hpe & Hm & Hlog)]; rewrite Hl.
      + rewrite orb_false_r.
        destruct (truthy (trim (input (st p)))); simpl; [|by left].
        right. split; [done|]. by exists (trim (input (st p))), (messages (st p)).
      + rewrite orb_true_r. right. eauto 10.
    - destruct Hp as [(Hl & Hpe & Hlog)|(Hl & q & log & Hpe & Hm & Hlog)]; rewrite Hpe.
      + by left.
      + left. simpl. rewrite Hm. split; [done|]. split; [done|].
        apply paired_exchange; [done | apply reply_role]. }
  apply H. left. done.
Qed.

(** X18.  The guard of [handleSubmit] is the condition that disables the
    Ask button: a submission changes nothing exactly when the button is
    disabled (the page is loading, or the input is blank).  An accepted
    submission keeps the log and appends two messages to it; and one run of
    [handleSubmit] is the submit event followed by the arrival of the reply. *)
Theorem submit_does_nothing_exactly_when_disabled
    (API_BASE : str) (fetch : Request -> Settled) (s : State) :
  (handleSubmit API_BASE fetch s = s <-> submitDisabled s = true) /\
  messages s `prefix_of` messages (handleSubmit API_BASE fetch s) /\
  length (messages (handleSubmit API_BASE fetch s))
    = length (messages s) + (if submitDisabled s then 0 else 2) /\
  run API_BASE fetch [Submit; Settle] {| st := s; pending := None |}
    = {| st := handleSubmit API_BASE fetch s; pending := None |}.
Proof.
  unfold handleSubmit, submitDisabled, run. simpl.
  rewrite (orb_comm (isLoading s)).
  destruct (negb (truthy (trim (input s))) || isLoading s) eqn:E; simpl.
  - split; [done|]. split; [done|]. split; [lia | done].
  - split; [|split; [|split]].
    + split; [|done]. intros H. apply (f_equal (fun x => length (messages x))) in H.
      simpl in H. rewrite !length_app in H. simpl in H. lia.
    + rewrite <- app_assoc. by apply prefix_app_r.
    + rewrite !length_app. simpl. lia.
    + done.
Qed.

End AskPageClaims.

(** ** Speaker names and colours *)

Section SpeakerClaims.
Import Speakers.

(** X19.  The names and the styles of the speakers go together: the badge
    colour and the border colour are the neutral ones exactly for the
    speakers shown as "Unknown" (no speaker) or "Other" (any speaker but 0
    and 1); only speaker 0 is "Epstein" and only speaker 1 is "Ehud". *)
Theorem unnamed_speakers_share_the_neutral_style (speaker : option Z) :
  (getSpeakerName speaker = lit "Unknown" <-> speaker = None) /\
  (getSpeakerName speaker = lit "Epstein" <-> speaker = Some 0%Z) /\
  (getSpeakerName speaker = lit "Ehud" <-> speaker = Some 1%Z) /\
  (getSpeakerName speaker = lit "Other"
     <-> exists s, speaker = Some s /\ s <> 0%Z /\ s <> 1%Z) /\
  (getSpeakerColor speaker = lit DEFAULT_COLOR
     <-> getSpeakerName speaker = lit "Unknown" \/ getSpeakerName speaker = lit "Other") /\
  (getSpeakerBorderColor speaker = lit DEFAULT_BORDER
     <-> getSpeakerColor speaker = lit DEFAULT_COLOR).
Proof.
  destruct speaker as [[|[p|p|]|p]|];
    cbv [getSpeakerName getSpeakerColor getSpeakerBorderColor get SPEAKER_NAMES
         SPEAKER_COLORS SPEAKER_BORDERS Z.eqb Pos.eqb default];
    (split; [|split; [|split; [|split; [|split]]]]); split; intros H;
    try discriminate H; try reflexivity;
    try (destruct H as (s & [= <-] & H0 & H1); congruence);
    try (destruct H as [H|H]; discriminate H);
    try (eexists; split; [reflexivity | split; discriminate]);
    try (left; reflexivity); try (right; reflexivity).
Qed.

End SpeakerClaims.

(** ** Highlighting, again *)

Section HighlightFacts2.
Import RegExp.

Lemma ciEq_length a b : ciEq a b -> length a = length b.
Proof.
  unfold ciEq. intros H. apply (f_equal length) in H. by rewrite !length_map in H.
Qed.

Lemma matchHere_ciEq l1 : forall l2 s,
  ciEq l1 l2 -> matchHere l1 s = matchHere l2 s.
Proof.
  unfold ciEq. induction l1 as [|a l1 IH]; intros [|b l2] s H; simpl in H;
    try done.
  injection H as Hab H. destruct s as [|c s]; simpl; [done|].
  by rewrite Hab, (IH l2 s H).
Qed.

Lemma splitLoop_ciEq a1 l1 a2 l2 n : forall s cur,
  length s <= n -> ciEq (a1 :: l1) (a2 :: l2) ->
  splitLoop (a1 :: l1) cur s = splitLoop (a2 :: l2) cur s.
Proof.
  induction n as [|n IH]; intros s cur Hn Hci.
  - destruct s; [|simpl in Hn; lia]. by simp splitLoop.
  - destruct s as [|c s']; [by simp splitLoop|]. simpl in Hn.
    pose proof (matchHere_ciEq _ _ (c :: s') Hci) as Hm.
    pose proof (ciEq_length _ _ Hci) as Hlen. simpl in Hlen.
    destruct (matchHere (a1 :: l1) (c :: s')) eqn:E1.
    + rewrite (splitLoop_hit _ _ _ _ _ E1).
      rewrite (splitLoop_hit a2 l2 cur c s') by congruence.
      replace (length l2) with (length l1) by lia.
      do 2 f_equal. apply IH; [rewrite length_drop; lia | done].
    + rewrite (splitLoop_miss _ _ _ _ E1).
      rewrite (splitLoop_miss (a2 :: l2) cur c s') by congruence.
      apply IH; [lia | done].
Qed.

Lemma split_ciEq q1 q2 text :
  q1 <> [] -> ciEq q1 q2 -> split (mk q1 0) text = split (mk q2 0) text.
Proof.
  intros Hne Hci. pose proof (ciEq_length _ _ Hci) as Hlen.
  destruct q1 as [|a1 l1]; [done|]. destruct q2 as [|a2 l2]; [done|].
  unfold split. simpl lits. destruct text as [|c s].
  - by rewrite (matchHere_ciEq _ _ [] Hci).
  - by apply (splitLoop_ciEq a1 l1 a2 l2 (length (c :: s))).
Qed.

Lemma canonicalize_whiteSpace c : isWhiteSpace (canonicalize c) = isWhiteSpace c.
Proof. destruct c as [[] [] [] [] [] [] [] []]; reflexivity. Qed.

Lemma trimStart_head s c r : trimStart s = c :: r -> isWhiteSpace c = false.
Proof.
  induction s as [|d s IH]; simpl; [done|].
  destruct (isWhiteSpace d) eqn:E; [done|]. by intros [= <- _].
Qed.

Lemma trimStart_blank s : forallb isWhiteSpace s = true -> trimStart s = [].
Proof.
  induction s as [|c s IH]; simpl; [done|].
  destruct (isWhiteSpace c); [done | discriminate].
Qed.

(** A string trims to nothing exactly when it is white space only. *)
Lemma trim_blank s : trim s = [] <-> forallb isWhiteSpace s = true.
Proof.
  unfold trim, trimEnd. split.
  - intros H. apply (f_equal (@rev _)) in H. rewrite rev_involutive in H.
    simpl in H. apply trimStart_nil_inv in H.
    destruct (trimStart s) as [|c r] eqn:E; [by apply trimStart_nil_inv|].
    apply trimStart_head in E.
    rewrite forallb_forall in H. specialize (H c).
    rewrite H in E; [done|]. apply in_rev. rewrite rev_involutive. by left.
  - intros H. by rewrite (trimStart_blank _ H).
Qed.

Lemma ciEq_blank q1 q2 : ciEq q1 q2 -> truthy (trim q1) = truthy (trim q2).
Proof.
  intros Hci.
  assert (forallb isWhiteSpace q1 = forallb isWhiteSpace q2) as Hb.
  { unfold ciEq in Hci. revert q2 Hci.
    induction q1 as [|a q1 IH]; intros [|b q2] H; simpl in H; try done.
    injection H as Hab H. simpl.
    rewrite <- (canonicalize_whiteSpace a), Hab, canonicalize_whiteSpace.
    by rewrite (IH q2 H). }
  destruct (truthy (trim q1)) eqn:E1, (truthy (trim q2)) eqn:E2; try done.
  - apply truthy_false, trim_blank in E2. rewrite <- Hb in E2.
    apply trim_blank, truthy_false in E2. congruence.
  - apply truthy_false, trim_blank in E1. rewrite Hb in E1.
    apply trim_blank, truthy_false in E1. congruence.
Qed.

Lemma alternate_single parts u : alternate parts = [Text u] -> parts = [u].
Proof.
  destruct parts as [|v [|m rest]]; simpl; try done. by intros [= ->].
Qed.

End HighlightFacts2.

Section HighlightClaims2.
Import RegExp.

(** X20.  Highlighting does not depend on the letter case of the query:
    two queries that are equal up to case give the same children for every
    text (the marked pieces keep the case of the text). *)
Theorem highlight_ignores_the_case_of_the_query (q1 q2 text : str) :
  ciEq q1 q2 -> highlightText q1 text = highlightText q2 text.
Proof.
  intros Hci. pose proof (ciEq_blank _ _ Hci) as Hb.
  destruct (truthy (trim q1)) eqn:E1.
  - destruct (highlightText_parts q1 text E1) as [-> _].
    destruct (highlightText_parts q2 text (eq_sym Hb)) as [-> _].
    by rewrite (split_ciEq q1 q2 text (trim_truthy _ E1) Hci).
  - unfold highlightText. by rewrite E1, <- Hb.
Qed.

Lemma highlight_ignores_the_case_of_the_query_witness :
  ciEq (lit "Quick") (lit "QUICK") /\
  highlightText (lit "Quick") (lit "the quick fox")
  = highlightText (lit "QUICK") (lit "the quick fox").
Proof.
  split; [reflexivity|].
  apply (highlight_ignores_the_case_of_the_query (lit "Quick") (lit "QUICK")).
  reflexivity.
Defined.

(** X21.  A paragraph that does not contain the query is rendered without
    a mark, as one plain child, and only such a paragraph is: for a query
    that is not blank, [highlightText] returns the text as its single
    unmarked child exactly when the query occurs nowhere in the text up to
    case.  (A paragraph found by the fuzzy search need not contain the
    query, so a result can be listed with nothing highlighted.) *)
Theorem no_occurrence_no_mark (query text : str) :
  truthy (trim query) = true ->
  (highlightText query text = Some (Parts [Text text])
   <-> forall i, ~ occursAt query text i).
Proof.
  intros Hq. destruct (highlightText_parts query text Hq) as [-> Hs].
  pose proof (trim_truthy _ Hq) as Hne. split.
  - intros [= H]. apply alternate_single in H. rewrite H in Hs.
    inversion Hs as [u Hu|u m rest parts Hu Hm Hlen Hrest]; subst.
    intros i [Hi Hm]%matchHere_occursAt. rewrite Hu in Hm; done.
  - intros Hno. inversion Hs as [u Hu|u m rest parts Hu Hm Hlen Hrest]; subst.
    + done.
    + exfalso. apply (Hno (length u)). apply matchHere_occursAt.
      rewrite drop_app_length, !length_app. split; [lia | done].
Qed.

Lemma no_occurrence_no_mark_witness :
  truthy (trim (lit "zebra")) = true /\
  (highlightText (lit "zebra") (lit "the quick fox")
     = Some (Parts [Text (lit "the quick fox")])
   <-> forall i, ~ occursAt (lit "zebra") (lit "the quick fox") i).
Proof.
  split; [reflexivity|].
  apply (no_occurrence_no_mark (lit "zebra") (lit "the quick fox")). reflexivity.
Defined.

End HighlightClaims2.

(** ** The speaker menu *)

Section SelectFacts.

Lemma toNumber_toString n v : Num.toString n = Some v -> Num.toNumber v = Some n.
Proof.
  unfold Num.toString, Num.toNumber.
  destruct (Num.isSafeInteger n) eqn:E; [|done]. intros [= <-].
  unfold lit. rewrite string_of_list_ascii_of_string.
  rewrite NilZero.isi.
  - by rewrite DecimalZ.of_to, E.
  - destruct n; simpl; try done. intros [= H]. by apply Unsigned.to_uint_nonnil in H.
  - destruct n; simpl; try done. intros [= H]. by apply Unsigned.to_uint_nonnil in H.
Qed.

Lemma toString_not_all n : Num.toString n <> Some (lit "all").
Proof.
  intros H. apply toNumber_toString in H. vm_compute in H. done.
Qed.

End SelectFacts.

Section SelectClaims.

(** X22.  The speaker menu round-trips: choosing the option of a speaker
    sets the speaker filter to that speaker, choosing "All speakers" clears
    it, and the menu then shows the chosen option as selected.  That is,
    reading back the value the menu shows for a filter gives the filter, for
    no filter and for every speaker that is a safe integer. *)
Theorem speaker_menu_round_trips (filterSpeaker : option Z) (shown : str) :
  SpeakerSelect.value filterSpeaker = Some shown ->
  SpeakerSelect.onChange shown = Some filterSpeaker.
Proof.
  unfold SpeakerSelect.value, SpeakerSelect.onChange.
  destruct filterSpeaker as [s|].
  - intros H. rewrite bool_decide_eq_false_2.
    + by rewrite (toNumber_toString _ _ H).
    + intros ->. by apply toString_not_all in H.
  - intros [= <-]. done.
Qed.

Lemma speaker_menu_round_trips_witness :
  SpeakerSelect.value (Some 1%Z) = Some (lit "1") /\
  SpeakerSelect.onChange (lit "1") = Some (Some 1%Z).
Proof.
  split; [reflexivity|].
  apply (speaker_menu_round_trips (Some 1%Z) (lit "1")). reflexivity.
Defined.

End SelectClaims.

(** * The claims on the matching, over the matcher of the specification *)

(** ** Edit distance *)

Section EditFacts.
Import Fuzzy.





Lemma occursWithin_here k q t : within k q t = true -> occursWithin k q t = true.
Proof. intros H. destruct t; simpl; by rewrite H. Qed.

Lemma occursWithin_app k q pre t :
  occursWithin k q t = true -> occursWithin k q (pre ++ t) = true.
Proof.
  intros H. induction pre as [|c pre IH]; simpl; [done|].
  rewrite IH. apply orb_true_r.
Qed.

Lemma leastFrom_le q t k : forall fuel k0,
  k0 <= k -> occursWithin k q t = true -> leastFrom fuel k0 q t <= k.
Proof.
  induction fuel as [|fuel IH]; intros k0 Hk Ho; simpl; [done|].
  destruct (occursWithin k0 q t) eqn:E; [done|].
  apply IH; [|done]. destruct (decide (k0 = k)) as [->|]; [congruence | lia].
Qed.

(** The distance is the least number of edits that finds the query. *)
Lemma errors_le q t k : occursWithin k q t = true -> errors q t <= k.
Proof. apply leastFrom_le. lia. Qed.






End EditFacts.

(** ** Normalization *)

Section NormalizeFacts.
Import Fuzzy.





Lemma collapse_app pre : forall b s,
  exists pre' b', collapse b (pre ++ s) = pre' ++ collapse b' s.
Proof.
  induction pre as [|d pre IH]; intros b s; simpl.
  - by exists [], b.
  - destruct (isWhiteSpace d).
    + destruct b.
      * apply IH.
      * destruct (IH true s) as (pre' & b' & ->). by exists (" "%char :: pre'), b'.
    + destruct (IH false s) as (pre' & b' & ->). by exists (d :: pre'), b'.
Qed.



End NormalizeFacts.

(** ** The matcher of the specification *)

Section MatcherFacts.
Import Fuzzy.


Lemma rank_le a b :
  (rank a b <= 0)%Z <->
  (a.2 < b.2)%Q \/ ((a.2 == b.2)%Q /\ a.1 <= b.1).
Proof.
  unfold rank. destruct (Qcompare_spec a.2 b.2) as [H|H|H].
  - split.
    + intros ?. right. split; [done | lia].
    + intros [Hlt|[_ ?]]; [|lia]. rewrite H in Hlt. by apply Qlt_irrefl in Hlt.
  - split; [by left | lia].
  - split; [lia|]. intros [Hlt|[Heq _]].
    + exfalso. apply (Qlt_irrefl a.2). by apply (Qlt_trans _ b.2).
    + rewrite Heq in H. by apply Qlt_irrefl in H.
Qed.

Lemma rank_total a b : (rank a b <= 0)%Z \/ (rank b a <= 0)%Z.
Proof.
  rewrite !rank_le. destruct (Qcompare_spec a.2 b.2) as [H|H|H].
  - destruct (decide (a.1 <= b.1)).
    + left. by right.
    + right. right. split; [by symmetry | lia].
  - left. by left.
  - right. by left.
Qed.

Lemma rank_trans a b c :
  (rank a b <= 0)%Z -> (rank b c <= 0)%Z -> (rank a c <= 0)%Z.
Proof.
  rewrite !rank_le.
  intros [H1|[E1 L1]] [H2|[E2 L2]].
  - left. by apply (Qlt_trans _ b.2).
  - left. by rewrite <- E2.
  - left. by rewrite E1.
  - right. split; [by rewrite E1 | lia].
Qed.

End MatcherFacts.

Section HitsFacts.
Import Fuzzy.

Lemma omap_indices (g : nat * str -> option (nat * Q)) (texts : list str) :
  (forall it h, g it = Some h -> h.1 = it.1) ->
  forall k, map fst (omap g (imap (fun i t => (k + i, t)) texts))
            `sublist_of` seq k (length texts).
Proof.
  intros Hg. induction texts as [|t texts IH]; intros k; simpl; [done|].
  assert (imap ((fun i t => (k + i, t)) ∘ S) texts
          = imap (fun i t => (S k + i, t)) texts) as ->.
  { apply imap_ext. intros i x _. simpl. f_equal. lia. }
  pose proof (IH (S k)) as IH'. simpl in IH'.
  destruct (g (k + 0, t)) as [h|] eqn:E; simpl.
  - rewrite (Hg _ _ E). simpl. rewrite Nat.add_0_r. by apply sublist_skip.
  - by apply sublist_cons.
Qed.

(** What the matcher reports: the records that match, each once, with its
    score. *)
Lemma matcher_elem opts texts query h :
  h ∈ matcher opts texts query <->
  exists t, texts !! h.1 = Some t /\
            matches (Fuse.threshold opts) query t = true /\
            h.2 = score query t.
Proof.
  unfold matcher. rewrite sortBy_perm, list_elem_of_omap. split.
  - intros ([i t] & Hin & Hg). apply elem_of_lookup_imap in Hin as (j & x & [= -> ->] & Hx).
    simpl in Hg. destruct (matches (Fuse.threshold opts) query x) eqn:E; [|done].
    injection Hg as <-. by exists x.
  - intros (t & Ht & Hm & Hs). exists (h.1, t). split.
    + by apply (elem_of_lookup_imap_2 pair).
    + simpl. rewrite Hm, <- Hs. by destruct h.
Qed.

Lemma matcher_NoDup opts texts query :
  NoDup (map fst (matcher opts texts query)).
Proof.
  unfold matcher. change (@map) with (@fmap list _). rewrite sortBy_perm.
  eapply sublist_NoDup; [apply (NoDup_seq 0 (length texts))|].
  change (@fmap list _) with (@map).
  refine (omap_indices
            (fun it : nat * str =>
               if matches (Fuse.threshold opts) query it.2
               then Some (it.1, score query it.2)
               else None) texts _ 0).
  intros [i t] h. simpl.
  destruct (matches (Fuse.threshold opts) query t); [|done]. by intros [= <-].
Qed.

Lemma StronglySorted_distinct {A B} (R : A -> A -> Prop) (f : A -> B) (l : list A) :
  StronglySorted R l -> NoDup (map f l) ->
  StronglySorted (fun a b => R a b /\ f a <> f b) l.
Proof.
  induction 1 as [|a l Hs IH Hall]; intros Hnd; [constructor|].
  simpl in Hnd. apply NoDup_cons in Hnd as [Ha Hnd].
  constructor; [by apply IH|].
  rewrite List.Forall_forall in *. intros b Hb. split; [by apply Hall|].
  intros E. apply Ha. rewrite E. apply list_elem_of_In, in_map, Hb.
Qed.

(** The matcher reports the most relevant first, records of one score in
    the order of the collection. *)
Lemma matcher_sorted opts texts query :
  StronglySorted Fuse.before (matcher opts texts query).
Proof.
  pose proof (sortBy_sorted rank rank_total rank_trans
    (omap (fun it : nat * str =>
             if matches (Fuse.threshold opts) query it.2
             then Some (it.1, score query it.2)
             else None)
          (imap pair texts))) as Hs.
  fold (matcher opts texts query) in Hs.
  apply (StronglySorted_distinct _ fst) in Hs; [|apply matcher_NoDup].
  eapply StronglySorted_impl; [|exact Hs].
  intros a b [Hab Hne]. apply rank_le in Hab as [?|[? ?]]; [by left|].
  right. split; [done | lia].
Qed.

Lemma pageHits_elem d query h :
  h ∈ pageHits matcher d query <->
  exists p, paragraphs d !! h.1 = Some p /\
            matches (3 # 10) query (text p) = true /\
            h.2 = score query (text p).
Proof.
  unfold pageHits. rewrite keyed_indexDocs, matcher_elem. simpl.
  change (@map) with (@fmap list _). split.
  - intros (t & Ht & Hm & Hs). rewrite list_lookup_fmap in Ht.
    destruct (paragraphs d !! h.1) as [p|]; [|done].
    injection Ht as <-. by exists p.
  - intros (p & Hp & Hm & Hs). exists (text p).
    by rewrite list_lookup_fmap, Hp.
Qed.

(** The entries built from sorted hits that carry the scores of their
    paragraphs are in the order of the specification. *)
Lemma hits_ranked ps query (hits : list (nat * Q)) :
  StronglySorted Fuse.before hits ->
  Forall (fun h => forall p, ps !! h.1 = Some p -> h.2 = score query (text p)) hits ->
  StronglySorted (ranksBefore query)
    (map (fun r => (doc_paragraph (Fuse.item r), doc_index (Fuse.item r)))
       (omap (Fuse.hit (indexDocs ps)) hits)).
Proof.
  assert (forall h r, Fuse.hit (indexDocs ps) h = Some r ->
            doc_index (Fuse.item r) = h.1 /\
            ps !! h.1 = Some (doc_paragraph (Fuse.item r))) as Hhit.
  { intros h r Hr. pose proof (hit_paragraph ps h r Hr) as Hp.
    unfold Fuse.hit in Hr.
    destruct (indexDocs ps !! h.1) as [x|] eqn:E; simpl in Hr; [|done].
    injection Hr as <-. simpl in *.
    rewrite (indexDocs_lookup _ _ _ E) in *. done. }
  induction 1 as [|h hits Hs IH Hall]; intros Hsc; simpl; [constructor|].
  apply Forall_cons in Hsc as [Hh Hsc].
  destruct (Fuse.hit (indexDocs ps) h) as [r|] eqn:Hr; simpl; [|by apply IH].
  constructor; [by apply IH|].
  apply List.Forall_forall. intros x Hx.
  apply in_map_iff in Hx as (r' & <- & Hr').
  apply list_elem_of_In, list_elem_of_omap in Hr' as (h' & Hh' & Hr').
  destruct (Hhit _ _ Hr) as [Hi Hp]. destruct (Hhit _ _ Hr') as [Hi' Hp'].
  rewrite List.Forall_forall in Hall. specialize (Hall h').
  rewrite <- list_elem_of_In in Hall. specialize (Hall Hh').
  rewrite Forall_forall in Hsc. specialize (Hsc h' Hh' _ Hp').
  specialize (Hh _ Hp).
  unfold ranksBefore. simpl. rewrite Hi, Hi', <- Hh, <- Hsc. exact Hall.
Qed.

Lemma pageHits_ranked d query :
  StronglySorted (ranksBefore query)
    (map (fun r => (doc_paragraph (Fuse.item r), doc_index (Fuse.item r)))
       (omap (Fuse.hit (indexDocs (paragraphs d))) (pageHits matcher d query))).
Proof.
  apply hits_ranked; [apply matcher_sorted|].
  apply Forall_forall. intros h Hh p Hp.
  apply pageHits_elem in Hh as (p' & Hp' & _ & Hs). congruence.
Qed.

(** A text with "Ehud" in it is within one edit of the query "Ehdu". *)
Lemma Ehdu_close paragraphText :
  includes paragraphText (lit "Ehud") = true ->
  matches (3 # 10) (lit "Ehdu") paragraphText = true /\
  (score (lit "Ehdu") paragraphText <= 1 # 4)%Q.
Proof.
  intros H. apply includes_spec in H as (pre & post & ->).
  assert (errors (normalize (lit "Ehdu")) (normalize (pre ++ lit "Ehud" ++ post)) <= 1)
    as Herr.
  { apply errors_le. unfold normalize, toLowerCase. rewrite !map_app.
    destruct (collapse_app (map lowerChar pre) false
                (map lowerChar (lit "Ehud") ++ map lowerChar post))
      as (pre' & b & ->).
    apply occursWithin_app, occursWithin_here.
    by destruct b. }
  assert (score (lit "Ehdu") (pre ++ lit "Ehud" ++ post) <= 1 # 4)%Q as Hs.
  { unfold score.
    set (e := errors (normalize (lit "Ehdu"))
                (normalize (pre ++ lit "Ehud" ++ post))) in *.
    change (length (normalize (lit "Ehdu"))) with 4.
    unfold Qle. simpl. lia. }
  split; [|done]. unfold matches. apply orb_true_iff. right.
  apply Qle_bool_iff. apply (Qle_trans _ (1 # 4)); [done|]. by unfold Qle.
Qed.

End HitsFacts.

(** ** The claims *)

Section MatchingClaims.
Import Fuzzy.

(** C2, amended.  Fuzzy search is tolerant to the typo "Ehdu".  For every
    transcript and every paragraph of it whose text contains "Ehud", the
    query "Ehdu" with no filters returns that paragraph on the transcript
    page; the matcher reports it with a score of 1/4 at most (one edit in
    four characters, within the threshold 0.3), and the search page returns
    it when it is among the first 100 hits of the ranking, the search page
    keeping 100 results. *)
Theorem Ehdu_finds_the_Ehud_paragraph
    (d : TranscriptData) (i : nat) (p : Paragraph) :
  paragraphs d !! i = Some p ->
  includes (text p) (lit "Ehud") = true ->
  In i (map TranscriptPage.idx
          (TranscriptPage.filtered matcher (Some d) (lit "Ehdu") None [])) /\
  exists k sc,
    pageHits matcher d (lit "Ehdu") !! k = Some (i, sc) /\
    (sc <= 1 # 4)%Q /\
    (k < 100 ->
     In i (map SearchPage.index
             (SearchPage.results matcher (Some d) (lit "Ehdu") None []))).
Proof.
  intros Hp Hin. destruct (Ehdu_close (text p) Hin) as [Hm Hs].
  assert ((i, score (lit "Ehdu") (text p)) ∈ pageHits matcher d (lit "Ehdu")) as Hh.
  { apply pageHits_elem. by exists p. }
  apply list_elem_of_lookup in Hh as [k Hk].
  assert (i < length (paragraphs d)) as Hi by (by apply (lookup_lt_Some _ _ p)).
  destruct (reported_hit_is_returned matcher d k i _ Hk Hi) as [Ht Hsp].
  split; [done|]. by exists k, (score (lit "Ehdu") (text p)).
Qed.

Lemma Ehdu_finds_the_Ehud_paragraph_witness :
  paragraphs trio !! 1 = Some (plain (Some 1%Z) "Ehud was there") /\
  includes (text (plain (Some 1%Z) "Ehud was there")) (lit "Ehud") = true /\
  In 1 (map TranscriptPage.idx
          (TranscriptPage.filtered matcher (Some trio) (lit "Ehdu") None [])) /\
  exists k sc,
    pageHits matcher trio (lit "Ehdu") !! k = Some (1, sc) /\
    (sc <= 1 # 4)%Q /\
    (k < 100 ->
     In 1 (map SearchPage.index
             (SearchPage.results matcher (Some trio) (lit "Ehdu") None []))).
Proof.
  split; [reflexivity|]. split; [reflexivity|].
  apply (Ehdu_finds_the_Ehud_paragraph trio 1 (plain (Some 1%Z) "Ehud was there"));
    reflexivity.
Defined.



(** C4 as the specification states it fails for a query that is not empty
    but blank: for the query " " the search page lists the paragraph "ab"
    before the paragraph "c d", although "c d" contains the query (score 0)
    and "ab" does not (score 1).  A blank query is not ranked: it lists the
    transcript. *)
Lemma blank_query_is_listed_not_ranked :
  lit " " <> [] /\
  (Fuzzy.score (lit " ") (lit "c d") < Fuzzy.score (lit " ") (lit "ab"))%Q /\
  map (fun m => (text (SearchPage.paragraph m), SearchPage.index m))
      (SearchPage.results matcher (Some spaced) (lit " ") None [])
    = [(lit "ab", 0); (lit "c d", 1)] /\
  ~ StronglySorted (ranksBefore (lit " "))
      (map (fun m => (SearchPage.paragraph m, SearchPage.index m))
         (SearchPage.results matcher (Some spaced) (lit " ") None [])).
Proof.
  split; [discriminate|]. split; [by vm_compute|]. split; [reflexivity|].
  intros H. vm_compute in H.
  inversion H as [|a l _ Hall]; subst.
  inversion Hall as [|b l' Hab _]; subst.
  destruct Hab as [Hlt|[Heq _]]; [vm_compute in Hlt | vm_compute in Heq]; done.
Qed.

(** C4, amended.  The order of results, on both pages and under any
    filters.  For every query that is not blank, the entries are ordered by
    relevance, the best score first, and entries of equal score are in the
    order of the transcript; for a blank query (empty, or white space only)
    they are in the order of the transcript.  The pages do not sort: they
    map, filter and cap the list of the library, whose order this is. *)
Theorem results_go_best_first
    (d : TranscriptData) (query : str)
    (filterSpeaker : option Z) (filterEntity : str) :
  if truthy (trim query)
  then
    StronglySorted (ranksBefore query)
      (map (fun m => (SearchPage.paragraph m, SearchPage.index m))
         (SearchPage.results matcher (Some d) query filterSpeaker filterEntity)) /\
    StronglySorted (ranksBefore query)
      (map (fun r => (TranscriptPage.para r, TranscriptPage.idx r))
         (TranscriptPage.filtered matcher (Some d) query filterSpeaker filterEntity))
  else
    StronglySorted lt
      (map SearchPage.index
         (SearchPage.results matcher (Some d) query filterSpeaker filterEntity)) /\
    StronglySorted lt
      (map TranscriptPage.idx
         (TranscriptPage.filtered matcher (Some d) query filterSpeaker filterEntity)).
Proof.
  destruct (truthy (trim query)) eqn:Hq.
  - split.
    + unfold SearchPage.results. rewrite SearchPage_filters.
      eapply StronglySorted_sublist;
        [apply sublist_map; etrans; [apply sublist_take | apply sublist_List_filter]|].
      rewrite (SearchPage_matches_query matcher d query Hq), map_map. simpl.
      apply pageHits_ranked.
    + unfold TranscriptPage.filtered. rewrite TranscriptPage_filters.
      eapply StronglySorted_sublist;
        [apply sublist_map, sublist_List_filter|].
      rewrite (TranscriptPage_matches_query matcher d query Hq), map_map. simpl.
      apply pageHits_ranked.
  - pose proof (results_are_ordered matcher d query filterSpeaker filterEntity) as H.
    rewrite Hq in H. apply H. discriminate.
Qed.

End MatchingClaims.
